(** * The Cascade memory store: a shallow embedding and its properties

    The development follows the three classes of the store,
    [CascadeCore] (cascade_core.py), [CascadeMemory] (cascade_memory.py)
    and [CascadeSafety] (cascade_safety.py).  Python values, dictionaries,
    [sorted] and [json.dumps] come first; every operation of the classes is
    then a function in a state-and-exception monad over the part of the file
    system the class owns. *)

From Stdlib Require Import ZArith String Ascii List Lia.
From stdpp Require Import base tactics option list sorting gmap strings pretty.

Set Warnings "-register-all".

(** ** Python values *)

Module Py.

(** The values a caller can pass and a memory can hold.  [VNone] to
    [VDict] are what [json.load] produces (floats apart).  The others are
    values [json] does not give back as they were: [VTuple] a tuple, which
    it writes as an array and so reads back as a list; [VIntDict] a dict
    whose keys are ints, which it writes with the keys turned into strings
    and so reads back as a dict with [str] keys; [VObj] an object it cannot
    serialise (a datetime, a non-empty set, an instance of a class).

    A dict keeps its keys in insertion order and a key occurs once; the
    keys of a [VDict] are [str], and the empty dict is [VDict []].  Floats,
    and dicts whose keys are of both types or of another type, are not
    values of this type, and nothing below speaks of them. *)
Inductive value : Type :=
| VNone
| VBool (b : bool)
| VInt (n : Z)
| VStr (s : string)
| VList (l : list value)
| VDict (d : list (string * value))
| VObj (repr : string)
| VTuple (t : list value)
| VIntDict (m : list (Z * value)).

Abbreviation dict := (list (string * value)).

(** Truth value of an object, as [if x:] and [x or y] take it. *)
Definition truthy (v : value) : bool :=
  match v with
  | VNone => false
  | VBool b => b
  | VInt n => negb (n =? 0)%Z
  | VStr s => negb (bool_decide (s = ""))
  | VList l => negb (bool_decide (l = []))
  | VDict d => negb (bool_decide (d = []))
  | VObj _ => true
  | VTuple t => negb (bool_decide (t = []))
  | VIntDict m => negb (bool_decide (m = []))
  end.

(** [s == v] for a string [s]: no other type of value equals a string. *)
Definition str_eq (s : string) (v : value) : bool :=
  match v with
  | VStr s' => bool_decide (s = s')
  | _ => false
  end.

(** [x or y] *)
Definition py_or (x y : value) : value := if truthy x then x else y.

Section odict.
Context {V : Type}.

(** [d.get(k)] *)
Fixpoint dict_get (k : string) (d : list (string * V)) : option V :=
  match d with
  | [] => None
  | (k', v) :: d' => if decide (k = k') then Some v else dict_get k d'
  end.

(** [k in d] *)
Definition dict_has (k : string) (d : list (string * V)) : bool :=
  bool_decide (is_Some (dict_get k d)).

(** [d[k] = v]: an existing key keeps its place, a new key goes last. *)
Fixpoint dict_set (k : string) (v : V) (d : list (string * V)) : list (string * V) :=
  match d with
  | [] => [(k, v)]
  | (k', v') :: d' =>
      if decide (k = k') then (k, v) :: d' else (k', v') :: dict_set k v d'
  end.

(** [del d[k]] (for a key that is present). *)
Fixpoint dict_del (k : string) (d : list (string * V)) : list (string * V) :=
  match d with
  | [] => []
  | (k', v') :: d' =>
      if decide (k = k') then d' else (k', v') :: dict_del k d'
  end.

End odict.

(** [sorted]: a stable sort; for the orders used here (strings, and items
    of a dict compared on their distinct keys) every sorting algorithm has
    the same result. *)
Section sorted.
Context {A : Type} (R : relation A) `{!RelDecision R}.

Fixpoint insort (x : A) (l : list A) : list A :=
  match l with
  | [] => [x]
  | y :: l' => if decide (R x y) then x :: y :: l' else y :: insort x l'
  end.

Definition sorted (l : list A) : list A := foldr insort [] l.

End sorted.

(** Order of the items of a dict: tuples [(key, value)] with distinct keys
    compare on the key. *)
Definition item_le {V : Type} (a b : string * V) : Prop := String.le a.1 b.1.

#[global] Instance item_le_dec {V : Type} : RelDecision (@item_le V).
Proof. intros a b. unfold item_le. apply _. Defined.

(** The same for the items of a dict whose keys are ints. *)
Definition int_item_le {V : Type} (a b : Z * V) : Prop := (a.1 ≤ b.1)%Z.

#[global] Instance int_item_le_dec {V : Type} : RelDecision (@int_item_le V).
Proof. intros a b. unfold int_item_le. apply _. Defined.

(** [s.endswith(suffix)] *)
Fixpoint startswith (p s : string) : bool :=
  match p, s with
  | EmptyString, _ => true
  | String a p', String b s' => bool_decide (a = b) && startswith p' s'
  | String _ _, EmptyString => false
  end.

Definition endswith (s suffix : string) : bool :=
  startswith (String.rev suffix) (String.rev s).

(** [", ".join(parts)] *)
Fixpoint join (sep : string) (parts : list string) : string :=
  match parts with
  | [] => ""
  | [p] => p
  | p :: rest => p +:+ sep +:+ join sep rest
  end.

End Py.

(** ** json.dumps(obj, sort_keys=True), and what json.load reads back *)

Module Json.
Import Py.

Definition quote : string := String (ascii_of_N 34) EmptyString.
Definition backslash : string := String (ascii_of_N 92) EmptyString.

Definition hex_digit (n : N) : ascii :=
  if (n <? 10)%N then ascii_of_N (48 + n) else ascii_of_N (87 + n).

(** One character of a string under [ensure_ascii]: the quote, the
    backslash and the control characters have short escapes, everything
    outside [' '..'~'] becomes [\u00XX]. *)
Definition encode_char (c : ascii) : string :=
  let n := N_of_ascii c in
  if (n =? 34)%N then backslash +:+ quote
  else if (n =? 92)%N then backslash +:+ backslash
  else if (n =? 8)%N then backslash +:+ "b"
  else if (n =? 12)%N then backslash +:+ "f"
  else if (n =? 10)%N then backslash +:+ "n"
  else if (n =? 13)%N then backslash +:+ "r"
  else if (n =? 9)%N then backslash +:+ "t"
  else if ((32 <=? n) && (n <=? 126))%N then String c EmptyString
  else backslash +:+ "u00" +:+
       String (hex_digit (n / 16)) (String (hex_digit (n mod 16)) EmptyString).

Fixpoint encode_chars (s : string) : string :=
  match s with
  | EmptyString => ""
  | String c s' => encode_char c +:+ encode_chars s'
  end.

Definition encode_str (s : string) : string := quote +:+ encode_chars s +:+ quote.

(** A rendered item [(key, text of the value)] of a dict. *)
Definition render_item (kv : string * string) : string :=
  encode_str kv.1 +:+ ": " +:+ kv.2.

(** A rendered item of a dict whose keys are ints: the key is written as
    the string of its decimal digits. *)
Definition render_int_item (kv : Z * string) : string :=
  encode_str (pretty kv.1) +:+ ": " +:+ kv.2.

(** The text [json.dumps(v, sort_keys=True)] returns, [None] when it raises
    [TypeError] (an object that is not serialisable).  The values of a dict
    are rendered before its items are ordered so that the recursion is
    structural; [dumps_dict_sorted] below shows the text is that of the
    items taken in sorted order, which is how the encoder proceeds.  The
    items are sorted BEFORE their keys are turned into strings: int keys
    are in the order of the ints, not of their digits. *)
Fixpoint dumps (v : value) : option string :=
  match v with
  | VNone => Some "null"
  | VBool true => Some "true"
  | VBool false => Some "false"
  | VInt n => Some (pretty n)
  | VStr s => Some (encode_str s)
  | VList l =>
      parts ← mapM dumps l;
      Some ("[" +:+ join ", " parts +:+ "]")
  | VDict d =>
      items ← mapM (λ kv, s ← dumps kv.2; Some (kv.1, s)) d;
      Some ("{" +:+ join ", " (render_item <$> sorted item_le items) +:+ "}")
  | VObj _ => None
  | VTuple t =>
      parts ← mapM dumps t;
      Some ("[" +:+ join ", " parts +:+ "]")
  | VIntDict m =>
      items ← mapM (λ kv, s ← dumps kv.2; Some (kv.1, s)) m;
      Some ("{" +:+ join ", " (render_int_item <$> sorted int_item_le items) +:+ "}")
  end.

(** What [json.load] reads from the file [json.dump(v, f)] has written,
    for a [v] that serialises.  The text of a tuple is that of a list, so a
    tuple is read back as a list; the keys of a dict are written as strings,
    so an int key is read back as the string of its digits; everything else
    is read back as it was.  The file is written without [sort_keys]: the
    items come back in the order they were in. *)
Fixpoint loaded (v : value) : value :=
  match v with
  | VList l => VList (map loaded l)
  | VTuple t => VList (map loaded t)
  | VDict d => VDict (map (λ kv, (kv.1, loaded kv.2)) d)
  | VIntDict m => VDict (map (λ kv, (pretty kv.1, loaded kv.2)) m)
  | other => other
  end.

(** The dict read back for a dict: [loaded (VDict d) = VDict (loaded_dict d)]. *)
Definition loaded_dict (d : dict) : dict := map (λ kv, (kv.1, loaded kv.2)) d.

(** The values [json.load] can produce: no tuple, no int key and no
    object that does not serialise, at any depth. *)
Fixpoint json_native (v : value) : bool :=
  match v with
  | VList l => forallb json_native l
  | VDict d => forallb (λ kv, json_native kv.2) d
  | VObj _ | VTuple _ | VIntDict _ => false
  | _ => true
  end.

(** The values with no int key at any depth: what is read back for them
    has the text they had ([dumps_loaded] below). *)
Fixpoint str_keyed (v : value) : bool :=
  match v with
  | VList l => forallb str_keyed l
  | VTuple t => forallb str_keyed t
  | VDict d => forallb (λ kv, str_keyed kv.2) d
  | VIntDict _ => false
  | _ => true
  end.

(** The item [(key, text)] of an item whose value serialises. *)
Definition rendered (kv : string * value) : string * string :=
  (kv.1, default "" (dumps kv.2)).

Definition serialisable (kv : string * value) : Prop := is_Some (dumps kv.2).

(** Every dict inside [v] has distinct keys (always so for a Python
    object; stated for the association lists that stand for them). *)
Fixpoint distinct_keys (v : value) : bool :=
  match v with
  | VList l => forallb distinct_keys l
  | VTuple t => forallb distinct_keys t
  | VDict d => bool_decide (NoDup d.*1) && forallb (λ kv, distinct_keys kv.2) d
  | VIntDict m => bool_decide (NoDup m.*1) && forallb (λ kv, distinct_keys kv.2) m
  | _ => true
  end.

(** Two values that are the same mappings up to the insertion order of the
    keys, at every depth. *)
Inductive reordered : value → value → Prop :=
| reordered_refl v : reordered v v
| reordered_list l1 l2 :
    Forall2 reordered l1 l2 → reordered (VList l1) (VList l2)
| reordered_tuple t1 t2 :
    Forall2 reordered t1 t2 → reordered (VTuple t1) (VTuple t2)
| reordered_dict d1 d d2 :
    Forall2 (λ a b, a.1 = b.1 ∧ reordered a.2 b.2) d1 d →
    d ≡ₚ d2 →
    reordered (VDict d1) (VDict d2)
| reordered_int_dict m1 m m2 :
    Forall2 (λ a b, a.1 = b.1 ∧ reordered a.2 b.2) m1 m →
    m ≡ₚ m2 →
    reordered (VIntDict m1) (VIntDict m2).

End Json.

(** ** The filelock package

    [FileLock(path)] is built by the store with no timeout, and [acquire()]
    is called with none: the package's default is [timeout = -1].  Its
    [acquire] polls the lock file: a poll that finds the file free takes the
    lock; otherwise, when [0 <= timeout < elapsed], it raises [Timeout];
    otherwise it sleeps for a poll interval and polls again.  Time is counted
    in polls; [busy i] tells whether another holder has the file at poll
    [i]. *)

Module FileLock.

Record t := { lock_file : string; timeout : Z }.

Definition default_timeout : Z := (-1)%Z.

(** [FileLock(lock_file)] *)
Definition make (lock_file : string) : t :=
  {| lock_file := lock_file; timeout := default_timeout |}.

Inductive progress :=
| Acquired (poll : nat)
| Timeout (poll : nat)
| Waiting.

(** [polls] is how long the caller is observed; [Waiting] says the call has
    not come back within that many polls. *)
Fixpoint acquire_from (l : t) (busy : nat → bool) (i polls : nat) : progress :=
  match polls with
  | O => Waiting
  | S polls' =>
      if negb (busy i) then Acquired i
      else if bool_decide (0 ≤ timeout l ∧ timeout l < Z.of_nat i)%Z then Timeout i
      else acquire_from l busy (S i) polls'
  end.

Definition acquire (l : t) (busy : nat → bool) (polls : nat) : progress :=
  acquire_from l busy 0 polls.

End FileLock.

(** ** Sequential executions: state, exceptions, locks held *)

Module Exec.

Inductive exn :=
| JSONDecodeError
| KeyError (key : string)
| TypeError
| ValueError (msg : string)
| FileNotFoundError (path : string)
| RecursionError.

(** What a call does on a state: it returns, it raises, or it never comes
    back because it waits for a lock that is not released. *)
Inductive outcome (S A : Type) :=
| Returns (a : A) (s : S)
| Raises (e : exn) (s : S)
| Blocks (s : S).
Arguments Returns {S A} a s.
Arguments Raises {S A} e s.
Arguments Blocks {S A} s.

Definition M (S A : Type) : Type := S → outcome S A.

Definition ret {S A} (a : A) : M S A := λ s, Returns a s.

Definition bind {S A B} (m : M S A) (k : A → M S B) : M S B :=
  λ s, match m s with
       | Returns a s' => k a s'
       | Raises e s' => Raises e s'
       | Blocks s' => Blocks s'
       end.

#[global] Instance M_ret {S} : MRet (M S) := λ A, ret.
#[global] Instance M_bind {S} : MBind (M S) := λ A B k m, bind m k.

Definition raise {S A} (e : exn) : M S A := λ s, Raises e s.
Definition get {S} : M S S := λ s, Returns s s.
Definition put {S} (s : S) : M S unit := λ _, Returns () s.
Definition modify {S} (f : S → S) : M S unit := λ s, Returns () (f s).

(** [try: body except Exception as e: handler(e)] *)
Definition try_except {S A} (body : M S A) (handler : exn → M S A) : M S A :=
  λ s, match body s with
       | Raises e s' => handler e s'
       | r => r
       end.

(** [try: body finally: cleanup] *)
Definition try_finally {S A} (body : M S A) (cleanup : M S unit) : M S A :=
  λ s, match body s with
       | Returns a s' => (cleanup;; ret a) s'
       | Raises e s' => (cleanup;; raise e) s'
       | Blocks s' => Blocks s'
       end.

(** An optional result, [None] standing for the exception [e]. *)
Definition or_raise {S A} (e : exn) (o : option A) : M S A :=
  match o with Some a => ret a | None => raise e end.

(** [for x in l: acc = body(x, acc)] *)
Fixpoint for_each {S A B} (body : A → B → M S B) (l : list A) (acc : B) : M S B :=
  match l with
  | [] => ret acc
  | x :: l' => acc' ← body x acc; for_each body l' acc'
  end.

(** The lock files this process holds through [FileLock] objects. *)
Class Lockable (S : Type) := {
  held : S → list string;
  set_held : list string → S → S
}.

Fixpoint remove_one (name : string) (l : list string) : list string :=
  match l with
  | [] => []
  | x :: l' => if decide (name = x) then l' else x :: remove_one name l'
  end.

Section locks.
Context {S : Type} `{!Lockable S}.

(** The store builds a new [FileLock] object at every call ([_get_lock],
    [_acquire_lock]), and the package does not grant a lock file that is
    held through one object to another object, of the same process or not:
    that is [reentrant = false], the behaviour of the code as written.  No
    timeout is given to [FileLock], so a lock that is not granted is waited
    for without bound.  [reentrant = true] stands for a substrate that would
    grant the lock again; it is a parameter so that a statement can be made
    for both, and what the code does when it asks for a lock it holds is
    stated under [reentrant = false]. *)
Variable reentrant : bool.

Definition acquire (name : string) : M S unit :=
  λ s, if bool_decide (name ∈ held s) && negb reentrant then Blocks s
       else Returns () (set_held (name :: held s) s).

Definition release (name : string) : M S unit :=
  modify (λ s, set_held (remove_one name (held s)) s).

(** [with FileLock(name): body] *)
Definition with_lock {A} (name : string) (body : M S A) : M S A :=
  acquire name;; try_finally body (release name).

End locks.

End Exec.


(** ** cascade_core.py: memories saved with a hash and quick backups *)

Module CascadeCore.
Import Py Json Exec.

(** The text of a [.json] file: it parses to a value, or it does not. *)
Inductive file :=
| Unparsable
| Parsed (v : value).

Inductive log_record :=
| LogWarning (msg : string)
| LogError (msg : string) (e : exn).

(** [data !! name] is the file [data/<name>.json]; [backups !! name] is the
    directory [backups/<name>], present once it has been created, with its
    entries by file name; [locks] are the lock files held; [log] is what
    [logger] has been given, latest first.

    The store is keyed by the memory name, which stands for the paths the
    code joins it into ([data/<name>.json], [backups/<name>/]).  That is
    one file and one directory per name for the names that are file names
    ([file_name] below).  Another name can reach the file of a file name
    ([./plan] and [plan]), a directory that does not exist ([a/b]), or the
    backup directory itself (the empty name, [.]), and the state says
    nothing of how such names relate: what is stated of a round trip, or of
    the files of OTHER names, is stated for file names.  The limits of the
    file system (space, permissions, the length of a name) are not
    described either. *)
Record state := {
  data : gmap string file;
  backups : gmap string (gmap string file);
  locks : list string;
  log : list log_record
}.

(** A name that is one path component: no separator and no NUL in it, and
    not the empty name, [.] or [..].  [data/<name>.json] is then an entry of
    the data directory, [backups/<name>] one of the backup directory, and
    two such names are two files. *)
Fixpoint plain (name : string) : bool :=
  match name with
  | EmptyString => true
  | String c name' =>
      negb (bool_decide (c = "/"%char)) && negb (bool_decide (c = zero)) && plain name'
  end.

Definition file_name (name : string) : bool :=
  plain name && negb (bool_decide (name ∈ [EmptyString; "."; ".."])).

Definition set_data (f : gmap string file → gmap string file) (st : state) : state :=
  {| data := f (data st); backups := backups st; locks := locks st; log := log st |}.

Definition set_backups
    (f : gmap string (gmap string file) → gmap string (gmap string file))
    (st : state) : state :=
  {| data := data st; backups := f (backups st); locks := locks st; log := log st |}.

Definition add_log (r : log_record) (st : state) : state :=
  {| data := data st; backups := backups st; locks := locks st; log := r :: log st |}.

#[global] Instance core_lockable : Lockable state := {|
  held := locks;
  set_held l st :=
    {| data := data st; backups := backups st; locks := l; log := log st |}
|}.

(** [sorted([f for f in os.listdir(backup_dir) if f.endswith('.json')])] *)
Definition backup_names (dir : gmap string file) : list string :=
  sorted String.le (filter (λ f, endswith f ".json" = true) (map_to_list dir).*1).

(** The warning that precedes every call of [_restore_backup]. *)
Definition warning (name : string) : log_record :=
  LogWarning ("Memory " +:+ name +:+ " failed hash validation").

(** [data[key]] for a value read from a file. *)
Definition subscript (data : value) (key : string) : M state value :=
  match data with
  | VDict d => or_raise (KeyError key) (dict_get key d)
  | _ => raise TypeError
  end.

(** [json.load(f)] *)
Definition json_load (f : file) : M state value :=
  match f with
  | Parsed v => mret v
  | Unparsable => raise JSONDecodeError
  end.

Section core.

(** [hashlib.sha256(bytes).hexdigest()] *)
Variable sha256 : string → string.

Variable reentrant : bool.

(** [_hash_dict]: [None] when [json.dumps] raises [TypeError]. *)
Definition _hash_dict (data : value) : option string :=
  sha256 <$> dumps data.

(** A file that holds [content] and the recorded hash [h]. *)
Definition records (f : file) (content : value) (h : string) : Prop :=
  ∃ d, f = Parsed (VDict d) ∧ dict_get "content" d = Some content ∧
       dict_get "hash" d = Some (VStr h).

(** A file whose recorded hash is the hash of its content. *)
Definition validates (f : file) (content : value) : Prop :=
  ∃ d h, f = Parsed (VDict d) ∧ dict_get "content" d = Some content ∧
         _hash_dict content = Some h ∧ dict_get "hash" d = Some (VStr h).

(** A file that parses, whose content has a hash, and whose recorded hash
    is something else. *)
Definition mismatches (f : file) : Prop :=
  ∃ d content h recorded, f = Parsed (VDict d) ∧
     dict_get "content" d = Some content ∧
     _hash_dict content = Some h ∧
     dict_get "hash" d = Some recorded ∧ str_eq h recorded = false.

(** [_quick_backup(name)]; [stamp] is the clock reading
    [utcnow().strftime('%Y%m%d_%H%M%S')]. *)
Definition _quick_backup (name stamp : string) : M state unit :=
  st ← get;
  match data st !! name with
  | None => mret ()
  | Some f =>
      let dir := <[stamp +:+ ".json" := f]> (default ∅ (backups st !! name)) in
      let names := backup_names dir in
      let old := take (length names - 3) names in
      modify (set_backups <[name := foldl (λ d o, delete o d) dir old]>)
  end.

(** [_restore_backup(name)] *)
Definition _restore_backup (name : string) : M state bool :=
  st ← get;
  match backups st !! name with
  | None => mret false
  | Some dir =>
      match last (backup_names dir) with
      | None => mret false
      | Some latest =>
          f ← or_raise (FileNotFoundError latest) (dir !! latest);
          modify (set_data <[name := f]>);;
          mret true
      end
  end.

(** The body of the [try] of [save_memory]; [now] is
    [utcnow().isoformat()].  Opening the file for writing empties it before
    the record to dump is built; the file then holds the text of the record,
    which a later [json.load] reads back as [loaded] gives it. *)
Definition save_memory_try (name : string) (content : value) (stamp now : string)
    : M state bool :=
  _quick_backup name stamp;;
  with_lock reentrant name (
    modify (set_data <[name := Unparsable]>);;
    h ← or_raise TypeError (_hash_dict content);
    modify (set_data <[name := Parsed (loaded (VDict [("content", content);
                                                      ("updated_at", VStr now);
                                                      ("hash", VStr h)]))]>));;
  mret true.

(** The [except Exception] clause of [save_memory]. *)
Definition save_memory_except (name : string) (e : exn) : M state bool :=
  modify (add_log (LogError ("Failed to save memory " +:+ name) e));;
  mret false.

(** [save_memory(name, content)] *)
Definition save_memory (name : string) (content : value) (stamp now : string)
    : M state bool :=
  try_except (save_memory_try name content stamp now) (save_memory_except name).

(** The body of the [try] of [load_memory]; [retry] is the nested call
    [self.load_memory(name)]. *)
Definition load_memory_try (retry : M state (option value)) (name : string)
    : M state (option value) :=
  st ← get;
  match data st !! name with
  | None => mret None
  | Some f =>
      with_lock reentrant name (
        data ← json_load f;
        content ← subscript data "content";
        h ← or_raise TypeError (_hash_dict content);
        recorded ← subscript data "hash";
        if negb (str_eq h recorded) then
          modify (add_log (warning name));;
          _restore_backup name;;
          retry
        else mret (Some content))
  end.

(** The [except Exception] clause of [load_memory]. *)
Definition load_memory_except (name : string) (e : exn) : M state (option value) :=
  modify (add_log (LogError ("Failed to load memory " +:+ name) e));;
  mret None.

(** [load_memory(name)].  [depth] is how many further nested calls the
    interpreter's recursion limit leaves room for: past it the nested call
    raises [RecursionError], inside the [try] of the caller. *)
Fixpoint load_memory (depth : nat) (name : string) : M state (option value) :=
  try_except
    (load_memory_try
       match depth with
       | O => raise RecursionError
       | S depth' => load_memory depth' name
       end
       name)
    (load_memory_except name).

End core.

End CascadeCore.

(** ** cascade_memory.py: versioned records behind an index *)

Module CascadeMemory.
Import Py Json Exec.

(** An entry of [index["memories"]]. *)
Record index_entry := {
  path : string;
  type_ : string;
  version : value;
  last_updated : value
}.

(** The index file [meta/index.json]. *)
Record index := {
  memories : list (string * index_entry);
  stats : dict
}.

(** The text of a record file: the text of a dict, kept as the dict
    [json.load] reads from it (a record file holds a dict, as [get_memory]
    declares), or text that does not parse, which is what a [json.dump]
    that raised has left of the file. *)
Inductive file :=
| Truncated
| Stored (memory : dict).

(** [index_file] is the index on disk; [files !! p] is the record file at
    path [p] under the base directory; [locks] are the lock files held. *)
Record state := {
  index_file : index;
  files : gmap string file;
  locks : list string
}.

Definition set_index (i : index) (st : state) : state :=
  {| index_file := i; files := files st; locks := locks st |}.

Definition set_files (f : gmap string file → gmap string file) (st : state) : state :=
  {| index_file := index_file st; files := f (files st); locks := locks st |}.

#[global] Instance memory_lockable : Lockable state := {|
  held := locks;
  set_held l st := {| index_file := index_file st; files := files st; locks := l |}
|}.

(** [json.load(open(self.index_path))] *)
Definition read_index : M state index := st ← get; mret (index_file st).

(** [json.dump(index, open(self.index_path, 'w'))] *)
Definition write_index (i : index) : M state unit := modify (set_index i).

(** [with open(p, 'r') as f: json.load(f)] *)
Definition read_file (p : string) : M state dict :=
  st ← get;
  match files st !! p with
  | None => raise (FileNotFoundError p)
  | Some Truncated => raise JSONDecodeError
  | Some (Stored memory) => mret memory
  end.

(** [with open(p, 'w') as f: json.dump(memory, f, indent=2)].  Opening the
    file empties it, and [json.dump] writes the text piece by piece: when it
    meets an object it cannot serialise it raises [TypeError], and the file
    is left with the pieces written so far, which do not parse.  Otherwise
    the file holds the text of [memory], which [json.load] reads back as
    [loaded_dict memory]. *)
Definition write_file (p : string) (memory : dict) : M state unit :=
  if dumps (VDict memory) is Some _ then
    modify (set_files <[p := Stored (loaded_dict memory)]>)
  else
    modify (set_files <[p := Truncated]>);;
    raise TypeError.

(** [os.remove(p)] *)
Definition remove_file (p : string) : M state unit :=
  st ← get;
  match files st !! p with
  | Some _ => modify (set_files (delete p))
  | None => raise (FileNotFoundError p)
  end.

(** [v + 1]: defined on the integers (a bool counts as 0 or 1). *)
Definition add_one (v : value) : option value :=
  match v with
  | VInt n => Some (VInt (n + 1))
  | VBool b => Some (VInt (Z.b2z b + 1))
  | _ => None
  end.

(** [v < s] for a string [s]: only a string is comparable to a string. *)
Definition lt_str (v : value) (s : string) : option bool :=
  match v with
  | VStr s' => Some (String.ltb s' s)
  | _ => None
  end.

Definition empty_critique : value :=
  VDict [("strengths", VList []); ("weaknesses", VList []); ("improvements", VList [])].

Definition not_found (memory_id : string) : exn :=
  ValueError ("Memory " +:+ memory_id +:+ " not found").

Definition invalid_format : exn := ValueError "Invalid memory format".

Section memory.

(** [jsonschema.validate] against [meta/schema.json]: whether the schema
    accepts the record. *)
Variable schema_accepts : dict → bool.

Variable reentrant : bool.

(** [_acquire_lock(lock_id)] *)
Definition _acquire_lock (lock_id : string) : M state string :=
  acquire reentrant lock_id;; mret lock_id.

(** [_release_lock(lock)] *)
Definition _release_lock (lock : string) : M state unit :=
  st ← get;
  if bool_decide (lock ∈ held st) then release lock else mret ().

(** [_validate_memory(memory)] *)
Definition _validate_memory (memory : dict) : M state bool :=
  if schema_accepts memory then mret true else raise invalid_format.

(** [create_memory(memory_type, content, critique)]; [memory_id] is the
    value of [uuid.uuid4()], [now] the clock reading; [critique] is [VNone]
    when the argument is left out. *)
Definition create_memory (memory_id now : string)
    (memory_type : string) (content critique : value) : M state string :=
  let memory : dict :=
    [("id", VStr memory_id);
     ("type", VStr memory_type);
     ("content", content);
     ("created_at", VStr now);
     ("updated_at", VStr now);
     ("version", VInt 1);
     ("critique", py_or critique empty_critique)] in
  _validate_memory memory;;
  index_lock ← _acquire_lock "index";
  try_finally
    (index ← read_index;
     let memory_path := "data/memories/" +:+ memory_id +:+ ".json" in
     let index' :=
       {| memories := dict_set memory_id
                        {| path := memory_path; type_ := memory_type;
                           version := VInt 1; last_updated := VStr now |}
                        (memories index);
          stats := stats index |} in
     write_file memory_path memory;;
     write_index index';;
     mret memory_id)
    (_release_lock index_lock).

(** [update_memory(memory_id, content, critique)] *)
Definition update_memory (now : string)
    (memory_id : string) (content critique : value) : M state bool :=
  memory_lock ← _acquire_lock memory_id;
  try_finally
    (index ← read_index;
     entry ← or_raise (not_found memory_id) (dict_get memory_id (memories index));
     let memory_path := path entry in
     memory ← read_file memory_path;
     let memory := dict_set "content" content memory in
     let memory := dict_set "updated_at" (VStr now) memory in
     v ← or_raise (KeyError "version") (dict_get "version" memory);
     v' ← or_raise TypeError (add_one v);
     let memory := dict_set "version" v' memory in
     let memory := if truthy critique then dict_set "critique" critique memory
                   else memory in
     _validate_memory memory;;
     write_file memory_path memory;;
     version' ← or_raise (KeyError "version") (dict_get "version" memory);
     updated' ← or_raise (KeyError "updated_at") (dict_get "updated_at" memory);
     let entry' :=
       {| path := path entry; type_ := type_ entry;
          version := version'; last_updated := updated' |} in
     write_index {| memories := dict_set memory_id entry' (memories index);
                    stats := stats index |};;
     mret true)
    (_release_lock memory_lock).

(** [get_memory(memory_id)] *)
Definition get_memory (memory_id : string) : M state dict :=
  index ← read_index;
  entry ← or_raise (not_found memory_id) (dict_get memory_id (memories index));
  read_file (path entry).

(** [search_memories(memory_type)] *)
Definition search_memories (memory_type : option string) : M state (list dict) :=
  index ← read_index;
  for_each
    (λ '(memory_id, info) results,
       if bool_decide (memory_type = None ∨ memory_type = Some (type_ info)) then
         memory ← get_memory memory_id;
         mret (results ++ [memory])
       else mret results)
    (memories index) [].

(** One round of the loop of [cleanup_expired]: [mems] is
    [index["memories"]] as held in memory, [cleaned] the counter. *)
Definition cleanup_round (now : string) (memory_id : string)
    (acc : list (string * index_entry) * nat)
    : M state (list (string * index_entry) * nat) :=
  let '(mems, cleaned) := acc in
  memory ← get_memory memory_id;
  match dict_get "expires_at" memory with
  | None => mret (mems, cleaned)
  | Some e =>
      expired ← or_raise TypeError (lt_str e now);
      if expired : bool then
        entry ← or_raise (KeyError memory_id) (dict_get memory_id mems);
        remove_file (path entry);;
        mret (dict_del memory_id mems, S cleaned)
      else mret (mems, cleaned)
  end.

(** [cleanup_expired()] *)
Definition cleanup_expired (now : string) : M state nat :=
  index_lock ← _acquire_lock "index";
  try_finally
    (index ← read_index;
     '(mems, cleaned) ← for_each (cleanup_round now) (memories index).*1
                                 (memories index, O);
     (if bool_decide (0 < cleaned)%nat then
        write_index {| memories := mems;
                       stats := dict_set "last_cleanup" (VStr now) (stats index) |}
      else mret ());;
     mret cleaned)
    (_release_lock index_lock).


End memory.

(** [_acquire_lock(lock_id)] as a caller that contends with other
    processes sees it: [FileLock(lock_file)] then [lock.acquire()], both
    with the defaults of the package; [busy] tells when others hold the
    lock file and [polls] how long the caller is observed. *)
Definition _acquire_lock_polling (lock_id : string) (busy : nat → bool) (polls : nat)
    : FileLock.progress :=
  FileLock.acquire (FileLock.make ("locks/" +:+ lock_id +:+ ".lock")) busy polls.

(** The record [create_memory] builds, and the path it writes it to. *)
Definition created (memory_id now memory_type : string) (content critique : value) : dict :=
  [("id", VStr memory_id);
   ("type", VStr memory_type);
   ("content", content);
   ("created_at", VStr now);
   ("updated_at", VStr now);
   ("version", VInt 1);
   ("critique", py_or critique empty_critique)].

Definition record_path (memory_id : string) : string :=
  "data/memories/" +:+ memory_id +:+ ".json".

(** The record [update_memory] writes over [memory], [v] being the new
    version. *)
Definition updated (now : string) (content critique : value) (v : value) (memory : dict)
    : dict :=
  let memory := dict_set "version" v
                  (dict_set "updated_at" (VStr now) (dict_set "content" content memory)) in
  if truthy critique then dict_set "critique" critique memory else memory.


(** The entry's record carries an [expires_at] that is a string below
    [now]: the test of [cleanup_expired]. *)
Definition expired (now : string) (fs : gmap string file) (kv : string * index_entry) : bool :=
  match fs !! path kv.2 with
  | Some (Stored memory) =>
      match dict_get "expires_at" memory with
      | Some (VStr s) => String.ltb s now
      | _ => false
      end
  | _ => false
  end.

(** The index invariant that [cleanup_expired] relies on: ids are distinct,
    every entry has a record file of its own that holds a record, and an
    [expires_at] is a string. *)
Definition consistent (st : state) : Prop :=
  NoDup (memories (index_file st)).*1 ∧
  NoDup (path <$> (memories (index_file st)).*2) ∧
  ∀ memory_id entry, (memory_id, entry) ∈ memories (index_file st) →
    ∃ memory, files st !! path entry = Some (Stored memory) ∧
      ∀ e, dict_get "expires_at" memory = Some e → ∃ s, e = VStr s.

End CascadeMemory.

(** ** cascade_safety.py: file states and old backups *)

Module CascadeSafety.
Import Py Exec.

(** A file: its bytes and [os.stat(path).st_mtime], a clock reading that
    the code only compares for equality. *)
Record file_state := {
  bytes : string;
  st_mtime : Z
}.

(** The record [safety/<basename>.json]. *)
Record safety_record := {
  path : string;
  hash : string;
  mtime : Z;
  recorded_at : string
}.

Inductive log_record :=
| LogInfo (msg : string)
| LogError (msg : string).

(** [files !! p] is the file at path [p]; [safety !! b] is the safety
    record kept under the base name [b]; [backup_dir] lists the entries of
    the backups directory, [true] for a directory; [undeletable] are the
    entries whose removal the operating system refuses. *)
Record state := {
  files : gmap string file_state;
  safety : gmap string safety_record;
  backup_dir : gmap string bool;
  undeletable : gset string;
  log : list log_record
}.

(** [os.path.basename(p)]: what follows the last slash. *)
Fixpoint has_slash (p : string) : bool :=
  match p with
  | EmptyString => false
  | String c p' => bool_decide (c = "/"%char) || has_slash p'
  end.

Fixpoint basename (p : string) : string :=
  match p with
  | EmptyString => ""
  | String _ p' => if has_slash p then basename p' else p
  end.

(** [l[k:]] for a Python int [k]: a negative [k] counts from the end. *)
Definition slice_from {A} (k : Z) (l : list A) : list A :=
  if (k <? 0)%Z then drop (Z.to_nat (Z.of_nat (length l) + k)) l
  else drop (Z.to_nat k) l.

Section safety.

(** [hashlib.sha256()] fed with the blocks of the file, then
    [hexdigest()]. *)
Variable sha256 : string → string.

(** [_calculate_hash(file_path)] *)
Definition _calculate_hash (st : state) (file_path : string) : string :=
  match files st !! file_path with
  | None => ""
  | Some f => sha256 (bytes f)
  end.

(** [safe_to_modify(file_path)] *)
Definition safe_to_modify (st : state) (file_path : string) : bool * string :=
  match files st !! file_path with
  | None => (true, "File does not exist")
  | Some stat =>
      let file_hash := _calculate_hash st file_path in
      match safety st !! basename file_path with
      | Some record =>
          if bool_decide (hash record ≠ file_hash) then
            (false, "File has been modified outside of Cascade")
          else if bool_decide (mtime record ≠ st_mtime stat) then
            (false, "File timestamp has changed")
          else (true, "Safe to modify")
      | None => (true, "Safe to modify")
      end
  end.

(** [record_file_state(file_path)]; [now] is the clock reading. *)
Definition record_file_state (now : string) (file_path : string) (st : state) : state :=
  match files st !! file_path with
  | None => st
  | Some stat =>
      let record :=
        {| path := file_path;
           hash := _calculate_hash st file_path;
           mtime := st_mtime stat;
           recorded_at := now |} in
      {| files := files st;
         safety := <[basename file_path := record]> (safety st);
         backup_dir := backup_dir st;
         undeletable := undeletable st;
         log := log st |}
  end.

End safety.

(** A change of the file made from outside the store: new bytes, new
    modification time. *)
Definition external_write (file_path : string) (f : file_state) (st : state) : state :=
  {| files := <[file_path := f]> (files st);
     safety := safety st;
     backup_dir := backup_dir st;
     undeletable := undeletable st;
     log := log st |}.

(** [shutil.rmtree(backup_path)] inside the [try] of the loop, with both
    branches of the [except]. *)
Definition remove_backup (st : state) (backup : string) : state :=
  if bool_decide (backup ∈ undeletable st) then
    {| files := files st; safety := safety st; backup_dir := backup_dir st;
       undeletable := undeletable st;
       log := LogError ("Failed to remove backup " +:+ backup) :: log st |}
  else
    {| files := files st; safety := safety st;
       backup_dir := delete backup (backup_dir st);
       undeletable := undeletable st;
       log := LogInfo ("Removed old backup: " +:+ backup) :: log st |}.

(** The list [backups] once sorted, newest first. *)
Definition listed_backups (st : state) : list string :=
  sorted (flip String.le)
    (filter (λ item, backup_dir st !! item = Some true
                     ∧ startswith "cascade_backup_" item = true)
            (map_to_list (backup_dir st)).*1).

(** [cleanup_old_backups(keep_last)] *)
Definition cleanup_old_backups (keep_last : Z) (st : state) : state :=
  foldl remove_backup st (slice_from keep_last (listed_backups st)).

End CascadeSafety.

(** ** Sample stores, used to run the operations *)

Module Examples.
Import Py CascadeCore.

(** A stand-in for SHA-256. *)
Definition digest (s : string) : string := "sha256:" +:+ s.

Definition stored (content : value) (updated_at : string) : file :=
  Parsed (VDict [("content", content);
                 ("updated_at", VStr updated_at);
                 ("hash", VStr (default "" (_hash_dict digest content)))]).

Definition plan1 : value := VDict [("stage", VInt 1)].
Definition plan2 : value := VDict [("stage", VInt 2)].

(** The file of a memory whose recorded hash has been overwritten. *)
Definition tampered : file :=
  Parsed (VDict [("content", plan2);
                 ("updated_at", VStr "2024-05-01T10:00:00");
                 ("hash", VStr "0000")]).

Definition snapshots : gmap string file :=
  {[ "20240430_180000.json" := stored (VDict []) "2024-04-30T17:00:00";
     "20240501_095959.json" := stored plan1 "2024-05-01T09:00:00" ]}.

(** A tampered memory with two snapshots. *)
Definition tampered_store : state :=
  {| data := {[ "plan" := tampered ]};
     backups := {[ "plan" := snapshots ]};
     locks := [];
     log := [] |}.

(** A tampered memory with no snapshot. *)
Definition tampered_alone : state :=
  {| data := {[ "plan" := tampered ]}; backups := ∅; locks := []; log := [] |}.

(** A memory whose file does not parse. *)
Definition garbled_store : state :=
  {| data := {[ "plan" := Unparsable ]}; backups := ∅; locks := []; log := [] |}.

Definition empty_store : state :=
  {| data := ∅; backups := ∅; locks := []; log := [] |}.

(** A schema that asks for the fields of a record. *)
Definition record_schema (memory : list (string * value)) : bool :=
  forallb (λ k, dict_has k memory)
    ["id"; "type"; "content"; "created_at"; "updated_at"; "version"; "critique"].

Definition no_records : CascadeMemory.state :=
  {| CascadeMemory.index_file := {| CascadeMemory.memories := []; CascadeMemory.stats := [] |};
     CascadeMemory.files := ∅;
     CascadeMemory.locks := [] |}.

(** The store [no_records] after a record has been created in it. *)
Definition plan_record : list (string * value) :=
  [("id", VStr "id1");
   ("type", VStr "build_plan");
   ("content", plan1);
   ("created_at", VStr "2024-05-01T10:00:00");
   ("updated_at", VStr "2024-05-01T10:00:00");
   ("version", VInt 1);
   ("critique", CascadeMemory.empty_critique)].

Definition plan_entry : CascadeMemory.index_entry :=
  {| CascadeMemory.path := "data/memories/id1.json";
     CascadeMemory.type_ := "build_plan";
     CascadeMemory.version := VInt 1;
     CascadeMemory.last_updated := VStr "2024-05-01T10:00:00" |}.

Definition one_record : CascadeMemory.state :=
  {| CascadeMemory.index_file :=
       {| CascadeMemory.memories := [("id1", plan_entry)]; CascadeMemory.stats := [] |};
     CascadeMemory.files := {[ "data/memories/id1.json" := CascadeMemory.Stored plan_record ]};
     CascadeMemory.locks := [] |}.

(** Two records with an [expires_at]: the first is past at noon, the
    second expires at noon exactly. *)
Definition noon : string := "2024-05-01T12:00:00".

Definition stale_record : list (string * value) :=
  [("id", VStr "id2"); ("type", VStr "note"); ("content", VDict []);
   ("version", VInt 1); ("expires_at", VStr "2024-05-01T11:59:59")].

Definition due_record : list (string * value) :=
  [("id", VStr "id3"); ("type", VStr "note"); ("content", VDict []);
   ("version", VInt 1); ("expires_at", VStr noon)].

Definition note_entry (p : string) : CascadeMemory.index_entry :=
  {| CascadeMemory.path := p;
     CascadeMemory.type_ := "note";
     CascadeMemory.version := VInt 1;
     CascadeMemory.last_updated := VStr "2024-05-01T09:00:00" |}.

Definition expiring_records : CascadeMemory.state :=
  {| CascadeMemory.index_file :=
       {| CascadeMemory.memories :=
            [("id2", note_entry "data/memories/id2.json");
             ("id3", note_entry "data/memories/id3.json")];
          CascadeMemory.stats := [] |};
     CascadeMemory.files :=
       {[ "data/memories/id2.json" := CascadeMemory.Stored stale_record;
          "data/memories/id3.json" := CascadeMemory.Stored due_record ]};
     CascadeMemory.locks := [] |}.

(** A record that expires at noon exactly, alone in its store. *)
Definition due_alone : CascadeMemory.state :=
  {| CascadeMemory.index_file :=
       {| CascadeMemory.memories := [("id3", note_entry "data/memories/id3.json")];
          CascadeMemory.stats := [] |};
     CascadeMemory.files := {[ "data/memories/id3.json" := CascadeMemory.Stored due_record ]};
     CascadeMemory.locks := [] |}.

Definition review : value :=
  VDict [("strengths", VList [VStr "small"]);
         ("weaknesses", VList []);
         ("improvements", VList [])].

(** A tracked file that has since been deleted. *)
Definition deleted_tracked : CascadeSafety.state :=
  {| CascadeSafety.files := ∅;
     CascadeSafety.safety :=
       {[ "notes.txt" :=
            {| CascadeSafety.path := "work/notes.txt";
               CascadeSafety.hash := digest "draft";
               CascadeSafety.mtime := 1714557600;
               CascadeSafety.recorded_at := "2024-05-01T10:00:00" |} ]};
     CascadeSafety.backup_dir := ∅;
     CascadeSafety.undeletable := ∅;
     CascadeSafety.log := [] |}.

(** A file that is there and has never been recorded. *)
Definition untracked : CascadeSafety.state :=
  {| CascadeSafety.files :=
       {[ "work/notes.txt" :=
            {| CascadeSafety.bytes := "draft"; CascadeSafety.st_mtime := 1714557600 |} ]};
     CascadeSafety.safety := ∅;
     CascadeSafety.backup_dir := ∅;
     CascadeSafety.undeletable := ∅;
     CascadeSafety.log := [] |}.

(** Five snapshots, a directory that is not one, and a plain file. *)
Definition five_snapshots : CascadeSafety.state :=
  {| CascadeSafety.files := ∅;
     CascadeSafety.safety := ∅;
     CascadeSafety.backup_dir :=
       list_to_map
         [("cascade_backup_20240503_000000", true);
          ("cascade_backup_20240501_000000", true);
          ("plan", true);
          ("cascade_backup_20240505_000000", true);
          ("cascade_backup_20240502_000000", true);
          ("cascade_backup_notes.txt", false);
          ("cascade_backup_20240504_000000", true)];
     CascadeSafety.undeletable := ∅;
     CascadeSafety.log := [] |}.

(** The lock file is held by another process at every poll. *)
Definition always_busy : nat → bool := λ _, true.

(** The lock file is released by its holder at the third poll. *)
Definition busy_twice : nat → bool := λ i, bool_decide (i < 2)%nat.

(** The same mapping written with its keys in two orders. *)
Definition build_plan : value :=
  VDict [("stage", VInt 1);
         ("tasks", VDict [("limit", VNone); ("valid", VBool true)])].

Definition build_plan_reordered : value :=
  VDict [("tasks", VDict [("valid", VBool true); ("limit", VNone)]);
         ("stage", VInt 1)].

End Examples.

(** ** More sample stores *)

Module Scenarios.
Import Py CascadeCore Examples.

(** The plan saved by the example at the end of cascade_core.py. *)
Definition source_build_plan : value :=
  VDict [("current_stage", VInt 1);
         ("stages",
          VList [VDict [("name", VStr "Security Implementation");
                        ("status", VStr "in_progress");
                        ("tasks", VList [VStr "Rate limiting";
                                         VStr "Input validation"])]])].

(** A content that holds an object [json] cannot serialise. *)
Definition with_datetime : value := VDict [("due", VObj "datetime")].

(** A content that holds a tuple, and what [json] reads back for it. *)
Definition with_tuple : value := VDict [("span", VTuple [VInt 1; VInt 2])].
Definition with_list : value := VDict [("span", VList [VInt 1; VInt 2])].

(** A content whose keys are ints, in an order that is not that of their
    digits, and what [json] reads back for it. *)
Definition with_int_keys : value := VIntDict [(2%Z, VStr "b"); (10%Z, VStr "a")].
Definition with_digit_keys : value := VDict [("2", VStr "b"); ("10", VStr "a")].

(** A memory saved once: a live file, no snapshot yet. *)
Definition saved_once : state :=
  {| data := {[ "plan" := stored plan1 "2024-05-01T09:00:00" ]};
     backups := ∅; locks := []; log := [] |}.

(** A memory with three snapshots taken in June. *)
Definition june_snapshots : gmap string file :=
  {[ "20240601_000000.json" := stored (VDict []) "2024-06-01T00:00:00";
     "20240602_000000.json" := stored plan1 "2024-06-02T00:00:00";
     "20240603_000000.json" := stored plan2 "2024-06-03T00:00:00" ]}.

Definition saved_in_june : state :=
  {| data := {[ "plan" := stored plan1 "2024-06-04T00:00:00" ]};
     backups := {[ "plan" := june_snapshots ]};
     locks := []; log := [] |}.

(** An index entry whose record file is gone. *)
Definition lost_record : CascadeMemory.state :=
  {| CascadeMemory.index_file :=
       {| CascadeMemory.memories := [("id1", plan_entry)]; CascadeMemory.stats := [] |};
     CascadeMemory.files := ∅;
     CascadeMemory.locks := [] |}.

(** An index entry whose record file was left by a write that failed. *)
Definition truncated_record : CascadeMemory.state :=
  {| CascadeMemory.index_file :=
       {| CascadeMemory.memories := [("id1", plan_entry)]; CascadeMemory.stats := [] |};
     CascadeMemory.files := {[ "data/memories/id1.json" := CascadeMemory.Truncated ]};
     CascadeMemory.locks := [] |}.

(** A record without a [version], and one whose version is a string. *)
Definition unversioned_record : CascadeMemory.state :=
  {| CascadeMemory.index_file :=
       {| CascadeMemory.memories := [("id1", plan_entry)]; CascadeMemory.stats := [] |};
     CascadeMemory.files := {[ "data/memories/id1.json" := CascadeMemory.Stored [("id", VStr "id1")] ]};
     CascadeMemory.locks := [] |}.

Definition misversioned_record : CascadeMemory.state :=
  {| CascadeMemory.index_file :=
       {| CascadeMemory.memories := [("id1", plan_entry)]; CascadeMemory.stats := [] |};
     CascadeMemory.files :=
       {[ "data/memories/id1.json" :=
            CascadeMemory.Stored [("id", VStr "id1"); ("version", VStr "1")] ]};
     CascadeMemory.locks := [] |}.

(** Three notes in the index, the second without its record file. *)
Definition dangling_records : CascadeMemory.state :=
  {| CascadeMemory.index_file :=
       {| CascadeMemory.memories :=
            [("id2", note_entry "data/memories/id2.json");
             ("id4", note_entry "data/memories/id4.json");
             ("id3", note_entry "data/memories/id3.json")];
          CascadeMemory.stats := [] |};
     CascadeMemory.files :=
       {[ "data/memories/id2.json" := CascadeMemory.Stored stale_record;
          "data/memories/id3.json" := CascadeMemory.Stored due_record ]};
     CascadeMemory.locks := [] |}.

(** A schema that asks for an expiry date. *)
Definition expiring_schema (memory : list (string * value)) : bool :=
  dict_has "expires_at" memory.

(** Two files with the same base name in two directories. *)
Definition two_notes : CascadeSafety.state :=
  {| CascadeSafety.files :=
       {[ "work/notes.txt" :=
            {| CascadeSafety.bytes := "draft"; CascadeSafety.st_mtime := 1714557600 |};
          "archive/notes.txt" :=
            {| CascadeSafety.bytes := "old"; CascadeSafety.st_mtime := 1714471200 |} ]};
     CascadeSafety.safety := ∅;
     CascadeSafety.backup_dir := ∅;
     CascadeSafety.undeletable := ∅;
     CascadeSafety.log := [] |}.

End Scenarios.

(** ** cascade_safety.py: [create_backup] over the tree of [.cascade] *)

Module CascadeSafetyTree.
Import Py.

(** An entry of a directory: a file with its bytes, or a directory with
    its entries by name, in the order in which the directory lists them. *)
Inductive node :=
| File (bytes : string)
| Dir (entries : list (string * node)).

(** The errors of the operating system that [create_backup] can meet. *)
Inductive error :=
| FileExistsError (path : string)
| NotADirectoryError (path : string)
| IsADirectoryError (path : string)
| FileNotFoundError (path : string).

Inductive log_record :=
| LogInfo (msg : string)
| LogError (msg : string) (e : error).

Inductive result :=
| Returns (backup_name : string)
| Raises (e : error).

(** [cascade] are the entries of the directory [.cascade]; the backups
    directory is its entry [backups]. *)
Record state := {
  cascade : list (string * node);
  log : list log_record
}.

Definition logged (r : log_record) (st : state) : state :=
  {| cascade := cascade st; log := r :: log st |}.

(** The entries of [self.backup_path]; none when it is not a directory. *)
Definition backups_of (st : state) : list (string * node) :=
  match dict_get "backups" (cascade st) with
  | Some (Dir bs) => bs
  | _ => []
  end.

Definition put_backups (bs : list (string * node)) (st : state) : state :=
  {| cascade := dict_set "backups" (Dir bs) (cascade st); log := log st |}.

(** A change of the entries of the directory [backup_dir]. *)
Definition in_backup_dir (backup_name : string)
    (f : list (string * node) → list (string * node)) (st : state) : state :=
  match dict_get backup_name (backups_of st) with
  | Some (Dir es) => put_backups (dict_set backup_name (Dir (f es)) (backups_of st)) st
  | _ => st
  end.

(** [os.path.join(root, name)], relative to [backup_dir]: the root of the
    walk is the empty path. *)
Definition join_path (root name : string) : string :=
  if decide (root = "") then name else root +:+ "/" +:+ name.

(** [os.walk(top)] flattened by the two loops of [create_backup]: the
    relative path and the bytes of every file, the files of a directory
    before those of its subdirectories. *)
Fixpoint walk (root : string) (n : node) : list (string * string) :=
  match n with
  | File _ => []
  | Dir entries =>
      flat_map (λ entry,
                  match entry.2 with
                  | File b => [(join_path root entry.1, b)]
                  | Dir _ => []
                  end) entries
      ++ flat_map (λ entry, walk (join_path root entry.1) entry.2) entries
  end.

(** The file found from [n] by following the names [names]. *)
Fixpoint file_at (n : node) (names : list string) : option string :=
  match names, n with
  | [], File b => Some b
  | name :: names', Dir entries =>
      match dict_get name entries with
      | Some child => file_at child names'
      | None => None
      end
  | _, _ => None
  end.

Section tree.

(** [hashlib.sha256] of the bytes of a file, as a hex digest. *)
Variable sha256 : string → string.

(** The text [json.dump(manifest, f, indent=2)] writes for a manifest with
    the given [timestamp] and [files], each a path and a hash. *)
Variable dump_manifest : string → list (string * string) → string.

(** [os.makedirs(backup_dir)]: the backups directory is created when it is
    missing, and the last directory must not exist. *)
Definition makedirs (backup_name : string) (st : state) : error + state :=
  match dict_get "backups" (cascade st) with
  | Some (File _) => inl (NotADirectoryError ("backups/" +:+ backup_name))
  | _ =>
      match dict_get backup_name (backups_of st) with
      | Some _ => inl (FileExistsError ("backups/" +:+ backup_name))
      | None => inr (put_backups (backups_of st ++ [(backup_name, Dir [])]) st)
      end
  end.

(** One round of the copy loop: [shutil.copytree(src, dst)] or
    [shutil.copy2(src, dst)] for an item that is not [backups]. *)
Definition copy_item (backup_name : string) (st : state) (entry : string * node) : state :=
  if bool_decide (entry.1 ≠ "backups") then
    in_backup_dir backup_name (dict_set entry.1 entry.2) st
  else st.

(** [for item in os.listdir(self.cascade_path): ...] *)
Definition copy_items (backup_name : string) (st : state) : state :=
  foldl (copy_item backup_name) st (cascade st).

(** The list [manifest["files"]] after the walk of [backup_dir]. *)
Definition manifest_files (backup_name : string) (st : state) : list (string * string) :=
  match dict_get backup_name (backups_of st) with
  | Some n => (λ pb, (pb.1, sha256 pb.2)) <$> walk "" n
  | None => []
  end.

(** [with open(manifest_path, 'w') as f: json.dump(manifest, f, indent=2)] *)
Definition write_manifest (backup_name now : string) (files : list (string * string))
    (st : state) : error + state :=
  match dict_get backup_name (backups_of st) with
  | Some (Dir es) =>
      match dict_get "manifest.json" es with
      | Some (Dir _) =>
          inl (IsADirectoryError ("backups/" +:+ backup_name +:+ "/manifest.json"))
      | _ =>
          inr (in_backup_dir backup_name
                 (dict_set "manifest.json" (File (dump_manifest now files))) st)
      end
  | _ => inl (FileNotFoundError ("backups/" +:+ backup_name +:+ "/manifest.json"))
  end.

(** The [except] clause: the error is logged, [backup_dir] is removed
    with [shutil.rmtree] when it exists, and the error is raised again;
    [rmtree] itself raises when [backup_dir] is not a directory. *)
Definition backup_failed (backup_name : string) (e : error) (st : state)
    : result * state :=
  let st := logged (LogError "Backup failed" e) st in
  match dict_get backup_name (backups_of st) with
  | Some (Dir _) => (Raises e, put_backups (dict_del backup_name (backups_of st)) st)
  | Some (File _) => (Raises (NotADirectoryError ("backups/" +:+ backup_name)), st)
  | None => (Raises e, st)
  end.

(** [create_backup()]; [stamp] is the first clock reading, formatted
    [%Y%m%d_%H%M%S], and [now] the second one, in ISO format. *)
Definition create_backup (stamp now : string) (st : state) : result * state :=
  let backup_name := "cascade_backup_" +:+ stamp in
  match makedirs backup_name st with
  | inl e => backup_failed backup_name e st
  | inr st =>
      let st := copy_items backup_name st in
      let files := manifest_files backup_name st in
      match write_manifest backup_name now files st with
      | inl e => backup_failed backup_name e st
      | inr st => (Returns backup_name, logged (LogInfo ("Created backup: " +:+ backup_name)) st)
      end
  end.

End tree.

End CascadeSafetyTree.

(** ** Sample trees of [.cascade] *)

Module TreeScenarios.
Import Py CascadeSafetyTree.

(** A stand-in for the text of a manifest. *)
Definition manifest_text (timestamp : string) (files : list (string * string)) : string :=
  join ";" (timestamp :: ((λ ph, ph.1 +:+ "=" +:+ ph.2) <$> files)).

(** A store with a memory, a quick backup of it, a safety record and a
    file of its own at the top. *)
Definition small_tree : state :=
  {| cascade :=
       [("data", Dir [("plan.json", File "plan v2")]);
        ("backups", Dir [("plan", Dir [("20240501_095959.json", File "plan v1")])]);
        ("safety", Dir [("notes.txt.json", File "record")]);
        ("manifest.json", File "mine")];
     log := [] |}.

(** A store in which [manifest.json] is a directory. *)
Definition manifest_dir_tree : state :=
  {| cascade :=
       [("data", Dir [("plan.json", File "plan v2")]);
        ("backups", Dir []);
        ("manifest.json", Dir [])];
     log := [] |}.

End TreeScenarios.

(** * Properties *)

(** ** Dictionaries and sorting *)

Module PyFacts.
Import Py.

Lemma filter_all {A} (P : A → Prop) `{!∀ x, Decision (P x)} (l : list A) :
  Forall P l → filter P l = l.
Proof.
  induction 1 as [|x l Hx Hl IH]; [done|].
  rewrite filter_cons_True by done. by f_equal.
Qed.

Section odict.
Context {V : Type}.
Implicit Types (d : list (string * V)) (k : string) (v : V).

Lemma dict_get_set_eq k v d : dict_get k (dict_set k v d) = Some v.
Proof.
  induction d as [|[k' v'] d IH]; simpl.
  - by rewrite decide_True.
  - destruct (decide (k = k')) as [->|Hne]; simpl.
    + by rewrite decide_True.
    + by rewrite decide_False.
Qed.

Lemma dict_get_set_ne k k' v d :
  k ≠ k' → dict_get k' (dict_set k v d) = dict_get k' d.
Proof.
  intros Hne. induction d as [|[k0 v0] d IH]; simpl.
  - by rewrite decide_False.
  - destruct (decide (k = k0)) as [->|Hne0]; simpl.
    + by rewrite !decide_False.
    + destruct (decide (k' = k0)); [done|apply IH].
Qed.

Lemma dict_get_Some_elem k v d : dict_get k d = Some v → (k, v) ∈ d.
Proof.
  induction d as [|[k' v'] d IH]; simpl; [done|].
  destruct (decide (k = k')) as [->|Hne].
  - intros [= ->]. left.
  - intros H. right. by apply IH.
Qed.

Lemma dict_get_None k d : dict_get k d = None ↔ k ∉ d.*1.
Proof.
  induction d as [|[k' v'] d IH]; simpl.
  - split; [intros _; apply not_elem_of_nil|done].
  - rewrite not_elem_of_cons. destruct (decide (k = k')) as [->|Hne].
    + split; [done|]. by intros [? _].
    + rewrite IH. tauto.
Qed.

Lemma dict_get_elem k v d : NoDup d.*1 → (k, v) ∈ d → dict_get k d = Some v.
Proof.
  induction d as [|[k' v'] d IH]; simpl.
  - intros _ H. by apply elem_of_nil in H.
  - intros [Hk Hd]%NoDup_cons [[= -> ->]|Hin]%elem_of_cons.
    + by rewrite decide_True.
    + rewrite decide_False; [by apply IH|].
      intros ->. apply Hk. apply list_elem_of_fmap. by exists (k', v).
Qed.

Lemma dict_set_keys k v d :
  is_Some (dict_get k d) → (dict_set k v d).*1 = d.*1.
Proof.
  induction d as [|[k' v'] d IH]; simpl.
  - by intros [? ?].
  - destruct (decide (k = k')) as [->|Hne]; simpl; [done|].
    intros H. f_equal. by apply IH.
Qed.

Lemma dict_get_del_eq k d : NoDup d.*1 → dict_get k (dict_del k d) = None.
Proof.
  induction d as [|[k' v'] d IH]; simpl; [done|].
  intros [Hk Hd]%NoDup_cons. destruct (decide (k = k')) as [->|Hne]; simpl.
  - by apply dict_get_None.
  - rewrite decide_False; [by apply IH|done].
Qed.

Lemma dict_get_del_ne k k' d :
  k ≠ k' → dict_get k' (dict_del k d) = dict_get k' d.
Proof.
  intros Hne. induction d as [|[k0 v0] d IH]; simpl; [done|].
  destruct (decide (k = k0)) as [->|Hne0]; simpl.
  - by rewrite decide_False.
  - destruct (decide (k' = k0)); [done|apply IH].
Qed.

Lemma dict_del_filter k d :
  NoDup d.*1 → dict_del k d = filter (λ kv, kv.1 ≠ k) d.
Proof.
  induction d as [|[k' v'] d IH]; simpl; [done|].
  intros [Hk Hd]%NoDup_cons. destruct (decide (k = k')) as [->|Hne].
  - rewrite filter_cons_False; [|simpl; by intros ?].
    symmetry. apply filter_all. apply Forall_forall. intros [k0 v0] Hin. simpl. intros ->.
    apply Hk. apply list_elem_of_fmap. by exists (k', v0).
  - rewrite filter_cons_True; [|simpl; congruence]. f_equal. by apply IH.
Qed.

End odict.

Section sorted.
Context {A : Type} (R : relation A) `{!RelDecision R}.

Lemma insort_Permutation x l : insort R x l ≡ₚ x :: l.
Proof.
  induction l as [|y l IH]; simpl; [done|].
  destruct (decide (R x y)); [done|].
  rewrite IH. apply Permutation_swap.
Qed.

Lemma sorted_Permutation l : sorted R l ≡ₚ l.
Proof.
  induction l as [|x l IH]; simpl; [done|].
  by rewrite insort_Permutation, IH.
Qed.

Lemma length_sorted l : length (sorted R l) = length l.
Proof. apply Permutation_length, sorted_Permutation. Qed.

Lemma StronglySorted_insort `{!Transitive R, !Total R} x l :
  StronglySorted R l → StronglySorted R (insort R x l).
Proof.
  induction 1 as [|y l Hl IH Hy]; simpl.
  - repeat constructor.
  - destruct (decide (R x y)) as [Hxy|Hxy].
    + constructor; [by constructor|].
      constructor; [done|]. eapply Forall_impl; [exact Hy|].
      intros z Hz. by etrans.
    + constructor; [done|].
      rewrite insort_Permutation. constructor; [|done].
      by destruct (total R x y).
Qed.

Lemma StronglySorted_sorted `{!Transitive R, !Total R} l :
  StronglySorted R (sorted R l).
Proof.
  induction l; simpl; [constructor|by apply StronglySorted_insort].
Qed.

(** On an antisymmetric order the sorted list depends on the elements
    only, not on the order they come in. *)
Lemma sorted_perm `{!Transitive R, !Total R, !AntiSymm (=) R} l1 l2 :
  l1 ≡ₚ l2 → sorted R l1 = sorted R l2.
Proof.
  intros Hp. apply (StronglySorted_unique R); try apply StronglySorted_sorted.
  by rewrite !sorted_Permutation.
Qed.

End sorted.

(** Files removed one after the other. *)
Lemma lookup_foldl_delete {V} (fs : gmap string V) (ps : list string) p :
  foldl (λ f q, delete q f) fs ps !! p = if decide (p ∈ ps) then None else fs !! p.
Proof.
  revert fs. induction ps as [|q ps IH]; intros fs; cbn [foldl].
  - by rewrite decide_False by apply not_elem_of_nil.
  - rewrite IH. destruct (decide (p ∈ ps)) as [Hin|Hin].
    + by rewrite decide_True by (by right).
    + destruct (decide (p = q)) as [->|Hne].
      * rewrite lookup_delete_eq. by rewrite decide_True by left.
      * rewrite lookup_delete_ne by done.
        rewrite decide_False; [done|]. by intros [?|?]%elem_of_cons.
Qed.

#[global] Instance item_le_trans {V} : Transitive (@item_le V).
Proof. intros a b c. unfold item_le. apply transitivity. Qed.

#[global] Instance item_le_total {V} : Total (@item_le V).
Proof. intros a b. unfold item_le. apply total, _. Qed.

(** Items with distinct keys: the sorted list does not depend on the
    insertion order. *)
Lemma sorted_items_perm {V} (d1 d2 : list (string * V)) :
  NoDup d1.*1 → d1 ≡ₚ d2 → sorted item_le d1 = sorted item_le d2.
Proof.
  intros Hnd Hp.
  apply (StronglySorted_unique_strong item_le);
    try apply StronglySorted_sorted; try apply _.
  - intros [k1 v1] [k2 v2] H1 H2 H12 H21. unfold item_le in *. simpl in *.
    assert (k1 = k2) as <- by (by apply (anti_symm String.le)).
    rewrite sorted_Permutation in H1. rewrite sorted_Permutation, <- Hp in H2.
    pose proof (dict_get_elem _ _ _ Hnd H1). pose proof (dict_get_elem _ _ _ Hnd H2).
    congruence.
  - by rewrite !sorted_Permutation.
Qed.

#[global] Instance int_item_le_trans {V} : Transitive (@int_item_le V).
Proof. intros a b c. unfold int_item_le. lia. Qed.

#[global] Instance int_item_le_total {V} : Total (@int_item_le V).
Proof. intros a b. unfold int_item_le. lia. Qed.

Lemma NoDup_fst_elem {K V} (m : list (K * V)) k v1 v2 :
  NoDup m.*1 → (k, v1) ∈ m → (k, v2) ∈ m → v1 = v2.
Proof.
  induction m as [|[k' v'] m IH]; simpl.
  - intros _ H. by apply elem_of_nil in H.
  - intros [Hk Hm]%NoDup_cons [[= -> ->]|H1]%elem_of_cons [[= ->]|H2]%elem_of_cons.
    + done.
    + exfalso. apply Hk. apply list_elem_of_fmap. by exists (k', v2).
    + exfalso. apply Hk. apply list_elem_of_fmap. by exists (k', v1).
    + by apply IH.
Qed.

Lemma sorted_int_items_perm {V} (m1 m2 : list (Z * V)) :
  NoDup m1.*1 → m1 ≡ₚ m2 → sorted int_item_le m1 = sorted int_item_le m2.
Proof.
  intros Hnd Hp.
  apply (StronglySorted_unique_strong int_item_le);
    try apply StronglySorted_sorted; try apply _.
  - intros [k1 v1] [k2 v2] H1 H2 H12 H21. unfold int_item_le in *. simpl in *.
    assert (k1 = k2) as <- by lia.
    rewrite sorted_Permutation in H1. rewrite sorted_Permutation, <- Hp in H2.
    f_equal. by apply (NoDup_fst_elem m1 k1).
  - by rewrite !sorted_Permutation.
Qed.

Lemma insort_int_items_fmap {V W} (f : Z * V → Z * W) x (l : list (Z * V)) :
  (∀ kv, (f kv).1 = kv.1) →
  insort int_item_le (f x) (f <$> l) = f <$> insort int_item_le x l.
Proof.
  intros Hf. induction l as [|y l IH]; simpl; [done|].
  destruct (decide (int_item_le (f x) (f y))) as [H|H];
    destruct (decide (int_item_le x y)) as [H'|H']; simpl.
  - done.
  - exfalso. apply H'. unfold int_item_le in *. by rewrite !Hf in H.
  - exfalso. apply H. unfold int_item_le in *. by rewrite !Hf.
  - f_equal. apply IH.
Qed.

Lemma sorted_int_items_fmap {V W} (f : Z * V → Z * W) (m : list (Z * V)) :
  (∀ kv, (f kv).1 = kv.1) →
  sorted int_item_le (f <$> m) = f <$> sorted int_item_le m.
Proof.
  intros Hf. induction m as [|x m IH]; [done|].
  change (insort int_item_le (f x) (sorted int_item_le (f <$> m))
          = f <$> insort int_item_le x (sorted int_item_le m)).
  rewrite IH. by apply insort_int_items_fmap.
Qed.

(** Sorting looks at the keys only. *)
Lemma insort_items_fmap {V W} (f : string * V → string * W) x (l : list (string * V)) :
  (∀ kv, (f kv).1 = kv.1) →
  insort item_le (f x) (f <$> l) = f <$> insort item_le x l.
Proof.
  intros Hf. induction l as [|y l IH]; simpl; [done|].
  destruct (decide (item_le (f x) (f y))) as [H|H];
    destruct (decide (item_le x y)) as [H'|H']; simpl.
  - done.
  - exfalso. apply H'. unfold item_le in *. by rewrite !Hf in H.
  - exfalso. apply H. unfold item_le in *. by rewrite !Hf.
  - f_equal. apply IH.
Qed.

Lemma sorted_items_fmap {V W} (f : string * V → string * W) (d : list (string * V)) :
  (∀ kv, (f kv).1 = kv.1) →
  sorted item_le (f <$> d) = f <$> sorted item_le d.
Proof.
  intros Hf. induction d as [|x d IH]; [done|].
  change (insort item_le (f x) (sorted item_le (f <$> d))
          = f <$> insort item_le x (sorted item_le d)).
  rewrite IH. by apply insort_items_fmap.
Qed.

End PyFacts.

(** ** json.dumps and the hash of a dictionary *)

Module JsonFacts.
Import Py Json PyFacts.

(** Induction on a value, with the hypothesis for every element of a list
    and every value of a dict. *)
Lemma value_nested_ind (P : value → Prop) :
  P VNone →
  (∀ b, P (VBool b)) →
  (∀ n, P (VInt n)) →
  (∀ s, P (VStr s)) →
  (∀ l, Forall P l → P (VList l)) →
  (∀ d, Forall (λ kv, P kv.2) d → P (VDict d)) →
  (∀ r, P (VObj r)) →
  (∀ t, Forall P t → P (VTuple t)) →
  (∀ m, Forall (λ kv, P kv.2) m → P (VIntDict m)) →
  ∀ v, P v.
Proof.
  intros HN HB HI HS HL HD HO HT HM. fix IH 1.
  intros [|b|n|s|l|d|r|t|m]; [apply HN|apply HB|apply HI|apply HS| | |apply HO| |].
  - apply HL. induction l as [|x l IHl]; constructor; [apply IH|exact IHl].
  - apply HD. induction d as [|[k x] d IHd]; constructor; [apply IH|exact IHd].
  - apply HT. induction t as [|x t IHt]; constructor; [apply IH|exact IHt].
  - apply HM. induction m as [|[k x] m IHm]; constructor; [apply IH|exact IHm].
Qed.

Lemma rendered_key kv : (rendered kv).1 = kv.1.
Proof. done. Qed.

(** The items of the dicts, of either kind of key. *)
Section items.
Context {K : Type}.
Implicit Types m : list (K * value).

Definition rendered_item (kv : K * value) : K * string :=
  (kv.1, default "" (dumps kv.2)).

Lemma render_any_items_Some m :
  Forall (λ kv, is_Some (dumps kv.2)) m →
  mapM (λ kv, s ← dumps kv.2; Some (kv.1, s)) m = Some (rendered_item <$> m).
Proof.
  intros H. apply mapM_Some. induction H as [|[k x] m [s Hs] Hm IH]; simpl.
  - constructor.
  - constructor; [|exact IH]. simpl in *. unfold rendered_item. simpl. by rewrite Hs.
Qed.

Lemma render_any_items_None m :
  ¬ Forall (λ kv, is_Some (dumps kv.2)) m →
  mapM (λ kv, s ← dumps kv.2; Some (kv.1, s)) m = None.
Proof.
  intros H. apply mapM_None. apply not_Forall_Exists in H; [|apply _].
  eapply Exists_impl; [exact H|]. intros [k x] Hx. simpl in *.
  destruct (dumps x); [|done]. exfalso. apply Hx. by eexists.
Qed.

Lemma render_any_items_ext m1 m2 :
  Forall2 (λ a b, a.1 = b.1 ∧ dumps a.2 = dumps b.2) m1 m2 →
  mapM (λ kv, s ← dumps kv.2; Some (kv.1, s)) m1
  = mapM (λ kv, s ← dumps kv.2; Some (kv.1, s)) m2.
Proof.
  intros H. apply Forall2_mapM_ext.
  eapply Forall2_impl; [exact H|]. intros [k1 x1] [k2 x2] [Hk Hx]. simpl in *.
  by rewrite Hk, Hx.
Qed.

End items.

Lemma render_items_Some (d : dict) :
  Forall serialisable d →
  mapM (λ kv, s ← dumps kv.2; Some (kv.1, s)) d = Some (rendered <$> d).
Proof.
  intros H. apply mapM_Some. induction H as [|[k x] d [s Hs] Hd IH]; simpl.
  - constructor.
  - constructor; [|exact IH]. simpl in *. unfold rendered. simpl. by rewrite Hs.
Qed.

Lemma render_items_None (d : dict) :
  ¬ Forall serialisable d →
  mapM (λ kv, s ← dumps kv.2; Some (kv.1, s)) d = None.
Proof.
  intros H. apply mapM_None. apply not_Forall_Exists in H; [|apply _].
  eapply Exists_impl; [exact H|]. intros [k x] Hx. unfold serialisable in Hx. simpl in *.
  destruct (dumps x); [|done]. exfalso. apply Hx. by eexists.
Qed.

(** The text of a dict is the text of its items taken in the order of
    their keys. *)
Lemma dumps_dict_sorted (d : dict) :
  dumps (VDict d) =
    (items ← mapM (λ kv, s ← dumps kv.2; Some (kv.1, s)) (sorted item_le d);
     Some ("{" +:+ join ", " (render_item <$> items) +:+ "}")).
Proof.
  simpl. destruct (decide (Forall serialisable d)) as [H|H].
  - rewrite (render_items_Some d H).
    rewrite render_items_Some by (by rewrite sorted_Permutation).
    simpl. by rewrite sorted_items_fmap by apply rendered_key.
  - rewrite (render_items_None d H).
    by rewrite render_items_None by (by rewrite sorted_Permutation).
Qed.

(** The text of a dict whose keys are ints is the text of its items taken
    in the order of the ints. *)
Lemma dumps_int_dict_sorted (m : list (Z * value)) :
  dumps (VIntDict m) =
    (items ← mapM (λ kv, s ← dumps kv.2; Some (kv.1, s)) (sorted int_item_le m);
     Some ("{" +:+ join ", " (render_int_item <$> items) +:+ "}")).
Proof.
  simpl. destruct (decide (Forall (λ kv : Z * value, is_Some (dumps kv.2)) m)) as [H|H].
  - rewrite (render_any_items_Some m H).
    rewrite render_any_items_Some by (by rewrite sorted_Permutation).
    simpl. by rewrite sorted_int_items_fmap by done.
  - rewrite (render_any_items_None m H).
    by rewrite render_any_items_None by (by rewrite sorted_Permutation).
Qed.

Lemma reordered_items_keys {K} (m1 m2 : list (K * value)) (R : value → value → Prop) :
  Forall2 (λ a b, a.1 = b.1 ∧ R a.2 b.2) m1 m2 → m1.*1 = m2.*1.
Proof. induction 1 as [|???? [? ?]]; simpl; [done|by f_equal]. Qed.

Lemma reordered_items_dumps {K} (m1 m2 : list (K * value)) :
  Forall (λ kv, distinct_keys kv.2 = true) m1 →
  Forall (λ kv, distinct_keys kv.2 = true → ∀ b, reordered kv.2 b → dumps kv.2 = dumps b) m1 →
  Forall2 (λ a b, a.1 = b.1 ∧ reordered a.2 b.2) m1 m2 →
  Forall2 (λ a b, a.1 = b.1 ∧ dumps a.2 = dumps b.2) m1 m2.
Proof.
  intros Hk IH Hd. revert Hk IH.
  induction Hd as [|x y l l2 [Hxy1 Hxy2] Hl IHl]; intros Hk IH; constructor.
  - apply Forall_cons in Hk as [Hx _]. apply Forall_cons in IH as [IHx _].
    split; [done|]. by apply IHx.
  - apply Forall_cons in Hk as [_ Hk]. apply Forall_cons in IH as [_ IH]. auto.
Qed.

Lemma dumps_reordered (a : value) :
  distinct_keys a = true → ∀ b, reordered a b → dumps a = dumps b.
Proof.
  induction a as [| | | |l IH|d IH| |l IH|m IH] using value_nested_ind;
    intros Hk v' Hr;
    inversion Hr as [|? l2 Hl|? l2 Hl|? d' d2 Hd Hp|? m' m2 Hd Hp]; subst; try done.
  - (* lists *)
    simpl in *. f_equal. apply Forall2_mapM_ext.
    apply Is_true_true_2, forallb_True in Hk. revert Hk IH. clear Hr.
    induction Hl as [|x y l l2 Hxy Hl IHl]; intros Hk IH; constructor.
    + apply Forall_cons in Hk as [Hx _]. apply Forall_cons in IH as [IHx _].
      apply IHx; [by apply Is_true_true|done].
    + apply Forall_cons in Hk as [_ Hk]. apply Forall_cons in IH as [_ IH]. auto.
  - (* dicts *)
    simpl in Hk. apply andb_true_iff in Hk as [Hnd Hk].
    apply bool_decide_eq_true in Hnd. apply Is_true_true_2, forallb_True in Hk.
    pose proof (reordered_items_keys _ _ _ Hd) as Hkeys.
    assert (mapM (λ kv, s ← dumps kv.2; Some (kv.1, s)) d
            = mapM (λ kv, s ← dumps kv.2; Some (kv.1, s)) d') as Heq.
    { apply render_any_items_ext, reordered_items_dumps; [|done|done].
      eapply Forall_impl; [exact Hk|]. intros kv. apply Is_true_true_1. }
    simpl. rewrite Heq. clear Heq.
    destruct (decide (Forall serialisable d')) as [H|H].
    + rewrite (render_items_Some d' H).
      rewrite render_items_Some by (by rewrite <- Hp).
      simpl. do 5 f_equal. apply sorted_items_perm.
      * assert ((rendered <$> d').*1 = d'.*1) as ->.
        { rewrite <- list_fmap_compose. by apply list_fmap_ext. }
        by rewrite <- Hkeys.
      * by apply fmap_Permutation.
    + rewrite (render_items_None d' H).
      by rewrite render_items_None by (by rewrite <- Hp).
  - (* tuples *)
    simpl in *. f_equal. apply Forall2_mapM_ext.
    apply Is_true_true_2, forallb_True in Hk. revert Hk IH. clear Hr.
    induction Hl as [|x y l l2 Hxy Hl IHl]; intros Hk IH; constructor.
    + apply Forall_cons in Hk as [Hx _]. apply Forall_cons in IH as [IHx _].
      apply IHx; [by apply Is_true_true|done].
    + apply Forall_cons in Hk as [_ Hk]. apply Forall_cons in IH as [_ IH]. auto.
  - (* dicts whose keys are ints *)
    simpl in Hk. apply andb_true_iff in Hk as [Hnd Hk].
    apply bool_decide_eq_true in Hnd. apply Is_true_true_2, forallb_True in Hk.
    pose proof (reordered_items_keys _ _ _ Hd) as Hkeys.
    assert (mapM (λ kv, s ← dumps kv.2; Some (kv.1, s)) m
            = mapM (λ kv, s ← dumps kv.2; Some (kv.1, s)) m') as Heq.
    { apply render_any_items_ext, reordered_items_dumps; [|done|done].
      eapply Forall_impl; [exact Hk|]. intros kv. apply Is_true_true_1. }
    simpl. rewrite Heq. clear Heq.
    destruct (decide (Forall (λ kv : Z * value, is_Some (dumps kv.2)) m')) as [H|H].
    + rewrite (render_any_items_Some m' H).
      rewrite render_any_items_Some by (by rewrite <- Hp).
      simpl. do 5 f_equal. apply sorted_int_items_perm.
      * assert ((rendered_item <$> m').*1 = m'.*1) as ->.
        { rewrite <- list_fmap_compose. by apply list_fmap_ext. }
        by rewrite <- Hkeys.
      * by apply fmap_Permutation.
    + rewrite (render_any_items_None m' H).
      by rewrite render_any_items_None by (by rewrite <- Hp).
Qed.

(** *** What [json.load] reads back *)

Lemma Forall_mp {A} (P Q : A → Prop) (l : list A) :
  Forall (λ x, P x → Q x) l → Forall P l → Forall Q l.
Proof. induction 1; inversion 1; constructor; auto. Qed.

Lemma mapM_dumps_loaded (l : list value) :
  Forall (λ v, dumps (loaded v) = dumps v) l →
  mapM dumps (map loaded l) = mapM dumps l.
Proof.
  induction 1 as [|v l Hv Hl IH]; [done|].
  cbn [map mapM]. by rewrite Hv, IH.
Qed.

(** The text of what is read back is the text that was written, for a
    value with no int key. *)
Lemma dumps_loaded (v : value) : str_keyed v = true → dumps (loaded v) = dumps v.
Proof.
  induction v as [| | | |l IH|d IH| |t IH|m IH] using value_nested_ind; try done.
  - cbn [loaded dumps str_keyed]. intros Hs.
    apply Is_true_true_2, forallb_True in Hs.
    rewrite mapM_dumps_loaded; [done|].
    eapply Forall_mp; [exact IH|].
    eapply Forall_impl; [exact Hs|]. intros x. apply Is_true_true_1.
  - cbn [loaded dumps str_keyed]. intros Hs.
    apply Is_true_true_2, forallb_True in Hs.
    assert (mapM (λ kv, s ← dumps kv.2; Some (kv.1, s)) (map (λ kv, (kv.1, loaded kv.2)) d)
            = mapM (λ kv, s ← dumps kv.2; Some (kv.1, s)) d) as ->; [|done].
    induction IH as [|[k x] d Hx Hd IHd]; [done|].
    apply Forall_cons in Hs as [Hsx Hsd].
    cbn [map mapM fst snd] in *. by rewrite (Hx (Is_true_true_1 _ Hsx)), IHd.
  - cbn [loaded dumps str_keyed]. intros Hs.
    apply Is_true_true_2, forallb_True in Hs.
    rewrite mapM_dumps_loaded; [done|].
    eapply Forall_mp; [exact IH|].
    eapply Forall_impl; [exact Hs|]. intros x. apply Is_true_true_1.
Qed.

(** A value [json.load] can produce has no int key, and is read back as it
    was written. *)
Lemma native_str_keyed (v : value) : json_native v = true → str_keyed v = true.
Proof.
  induction v as [| | | |l IH|d IH| |t IH|m IH] using value_nested_ind; try done.
  - cbn [json_native str_keyed]. intros Hn.
    apply Is_true_true_2, forallb_True in Hn. apply Is_true_true_1, forallb_True.
    eapply Forall_mp; [|exact Hn].
    eapply Forall_impl; [exact IH|].
    intros x Hx Hnx. by apply Is_true_true_2, Hx, Is_true_true_1.
  - cbn [json_native str_keyed]. intros Hn.
    apply Is_true_true_2, forallb_True in Hn. apply Is_true_true_1, forallb_True.
    eapply Forall_mp; [|exact Hn].
    eapply Forall_impl; [exact IH|].
    intros x Hx Hnx. by apply Is_true_true_2, Hx, Is_true_true_1.
Qed.

Lemma loaded_native (v : value) : json_native v = true → loaded v = v.
Proof.
  induction v as [| | | |l IH|d IH| |t IH|m IH] using value_nested_ind; try done.
  - cbn [loaded json_native]. intros Hn. f_equal.
    apply Is_true_true_2, forallb_True in Hn.
    induction IH as [|x l Hx Hl IHl]; [done|].
    apply Forall_cons in Hn as [Hnx Hnl]. cbn [map]. f_equal.
    + apply Hx. by apply Is_true_true.
    + by apply IHl.
  - cbn [loaded json_native]. intros Hn. f_equal.
    apply Is_true_true_2, forallb_True in Hn.
    induction IH as [|[k x] d Hx Hd IHd]; [done|].
    apply Forall_cons in Hn as [Hnx Hnd]. cbn [map]. f_equal.
    + simpl in *. f_equal. apply Hx. by apply Is_true_true.
    + by apply IHd.
Qed.


Lemma loaded_VDict (d : dict) : loaded (VDict d) = VDict (loaded_dict d).
Proof. done. Qed.


Lemma dict_get_loaded k (d : dict) :
  dict_get k (loaded_dict d) = loaded <$> dict_get k d.
Proof.
  induction d as [|[k' v] d IH]; [done|]. simpl. by destruct (decide (k = k')).
Qed.

Lemma loaded_dict_native (d : dict) :
  json_native (VDict d) = true → loaded_dict d = d.
Proof. intros Hn. apply loaded_native in Hn. by injection Hn. Qed.

Lemma native_dict_get k v (d : dict) :
  json_native (VDict d) = true → dict_get k d = Some v → json_native v = true.
Proof.
  intros Hn Hk. apply dict_get_Some_elem in Hk. simpl in Hn.
  apply Is_true_true_2, forallb_True in Hn.
  apply Is_true_true_1. by apply (proj1 (Forall_forall _ _) Hn (k, v)).
Qed.

End JsonFacts.

(** ** Running an operation *)

Module ExecFacts.
Import Exec.

(** Unfold the monad and compute; [tac] rewrites with what is known of the
    state. *)
Ltac exec_unfold :=
  unfold try_except, try_finally, with_lock, acquire, release, modify, get, put,
    raise, or_raise, mbind, mret, M_bind, M_ret, bind, ret in *.

Ltac exec_by tac :=
  repeat first [progress (exec_unfold; simpl) | progress tac].

(** A [try] whose handler returns lets no exception out. *)
Lemma try_except_never_raises {S A} (body : M S A) handler st :
  (∀ e s, ∃ a s', handler e s = Returns a s') →
  ∀ e s, try_except body handler st ≠ Raises e s.
Proof.
  intros Hh e s. unfold try_except. destruct (body st) as [a s'|e' s'|s']; try done.
  destruct (Hh e' s') as (a & s'' & ->). done.
Qed.

End ExecFacts.

(** ** CascadeCore: validated load, restore, failure by value *)

Module CascadeCoreFacts.
Import Py Json Exec CascadeCore PyFacts JsonFacts ExecFacts Examples.

#[local] Arguments _hash_dict : simpl never.
#[local] Arguments String.app : simpl never.

Lemma last_sorted_greatest (l : list string) x :
  last (sorted String.le l) = Some x → x ∈ l ∧ ∀ y, y ∈ l → String.le y x.
Proof.
  intros Hlast.
  assert (x ∈ sorted String.le l) as Hin.
  { apply last_Some in Hlast as [l' ->]. apply elem_of_app. right. left. }
  split; [by rewrite sorted_Permutation in Hin|].
  intros y Hy. rewrite <- (sorted_Permutation String.le) in Hy.
  pose proof (StronglySorted_sorted String.le l) as Hs.
  apply last_Some in Hlast as [l' Hl']. rewrite Hl' in Hs, Hy.
  apply elem_of_app in Hy as [Hy|Hy].
  - eapply StronglySorted_app_1_elem_of; [exact Hs|exact Hy|left].
  - apply list_elem_of_singleton in Hy as ->. done.
Qed.

Lemma greatest_last_sorted (l : list string) x :
  x ∈ l → (∀ y, y ∈ l → String.le y x) → last (sorted String.le l) = Some x.
Proof.
  intros Hx Hmax. destruct (last (sorted String.le l)) as [z|] eqn:Hlast.
  - apply last_sorted_greatest in Hlast as [Hz Hzmax].
    f_equal. apply (anti_symm String.le); auto.
  - apply last_None in Hlast. rewrite <- (sorted_Permutation String.le), Hlast in Hx.
    by apply elem_of_nil in Hx.
Qed.

Lemma backup_names_elem (dir : gmap string file) k :
  k ∈ backup_names dir ↔ is_Some (dir !! k) ∧ endswith k ".json" = true.
Proof.
  unfold backup_names. rewrite sorted_Permutation, list_elem_of_filter, list_elem_of_fmap.
  split.
  - intros (He & [k' f] & -> & Hk). apply elem_of_map_to_list in Hk.
    split; [by eexists|done].
  - intros ([f Hf] & He). split; [done|]. exists (k, f).
    split; [done|]. by apply elem_of_map_to_list.
Qed.

Lemma backup_names_NoDup (dir : gmap string file) : NoDup (backup_names dir).
Proof.
  unfold backup_names. rewrite sorted_Permutation.
  apply NoDup_filter, NoDup_fst_map_to_list.
Qed.

Lemma backup_names_sorted (dir : gmap string file) :
  StronglySorted String.le (backup_names dir).
Proof. apply StronglySorted_sorted; apply _. Qed.

(** The entry [_restore_backup] takes: the [.json] entry of the directory
    with the greatest name. *)
Lemma latest_backup_greatest (dir : gmap string file) latest :
  last (backup_names dir) = Some latest ↔
  is_Some (dir !! latest) ∧ endswith latest ".json" = true ∧
  ∀ k, is_Some (dir !! k) → endswith k ".json" = true → String.le k latest.
Proof.
  pose proof (backup_names_elem dir) as Hin. unfold backup_names in *. split.
  - intros [H1 Hmax]%last_sorted_greatest.
    rewrite <- (sorted_Permutation String.le) in H1. apply Hin in H1 as [? ?].
    repeat split; [done..|]. intros k ? ?.
    apply Hmax. rewrite <- (sorted_Permutation String.le). by apply Hin.
  - intros (H1 & H2 & Hmax). apply greatest_last_sorted.
    + rewrite <- (sorted_Permutation String.le). by apply Hin.
    + intros k Hk. rewrite <- (sorted_Permutation String.le) in Hk.
      apply Hin in Hk as [? ?]. by apply Hmax.
Qed.

(** [_quick_backup] copies the live file under the name of the clock
    reading and keeps the three entries with the greatest names. *)
Lemma quick_backup_keeps_last_three name stamp st f :
  data st !! name = Some f →
  let dir := <[stamp +:+ ".json" := f]> (default ∅ (backups st !! name)) in
  let names := backup_names dir in
  ∃ st' dir',
    _quick_backup name stamp st = Returns () st'
    ∧ data st' = data st
    ∧ backups st' !! name = Some dir'
    ∧ backup_names dir' = drop (length names - 3) names
    ∧ ∀ k, k ∈ backup_names dir' → dir' !! k = dir !! k.
Proof.
  intros Hf dir names. unfold _quick_backup. exec_by ltac:(rewrite ?Hf).
  fold dir. fold names. eexists _, _. split; [done|]. split; [done|].
  simpl. split; [apply lookup_insert_eq|].
  set (old := take (length names - 3) names).
  set (dir' := foldl (λ d o, delete o d) dir old).
  assert (names = old ++ drop (length names - 3) names) as Hsplit
    by (symmetry; apply take_drop).
  pose proof (backup_names_NoDup dir) as Hnd. fold names in Hnd.
  pose proof (backup_names_sorted dir) as Hsorted. fold names in Hsorted.
  rewrite Hsplit in Hnd, Hsorted.
  apply NoDup_app in Hnd as (_ & Hdisj & Hnd).
  assert (∀ k, k ∈ backup_names dir' ↔ k ∈ drop (length names - 3) names) as Helem.
  { intros k. rewrite backup_names_elem. unfold dir'. rewrite lookup_foldl_delete.
    case_decide as Hold.
    - split; [by intros [[? ?] _]|]. intros Hk. exfalso. by apply (Hdisj k).
    - rewrite <- backup_names_elem. fold names. rewrite Hsplit at 1.
      rewrite elem_of_app. split; [by intros [?|?]|by right]. }
  split.
  - apply (StronglySorted_unique String.le).
    + apply backup_names_sorted.
    + by apply StronglySorted_app_1_r in Hsorted.
    + apply NoDup_Permutation; [apply backup_names_NoDup|done|exact Helem].
  - intros k Hk. unfold dir'. rewrite lookup_foldl_delete.
    rewrite decide_False; [done|]. intros Hold. apply (Hdisj k Hold). by apply Helem.
Qed.

Section core.
Variable sha256 : string → string.

Lemma str_eq_refl h : str_eq h (VStr h) = true.
Proof. simpl. by apply bool_decide_eq_true. Qed.

Lemma load_memory_try_valid reentrant retry name st f content :
  data st !! name = Some f → validates sha256 f content →
  (name ∉ locks st ∨ reentrant = true) →
  load_memory_try sha256 reentrant retry name st = Returns (Some content) st.
Proof.
  intros Hf (d & h & -> & Hc & Hh & Hr) Hl. destruct st as [dt bk lk lg].
  assert (bool_decide (name ∈ lk) && negb reentrant = false) as Hfree.
  { destruct Hl as [Hl| ->]; [|by rewrite andb_false_r].
    by rewrite bool_decide_eq_false_2. }
  unfold load_memory_try. simpl in *.
  exec_by ltac:(rewrite ?Hf, ?Hfree, ?Hc, ?Hh, ?Hr, ?str_eq_refl, ?decide_True by done).
  done.
Qed.

(** A file that validates is returned as it is, and nothing changes. *)
Lemma load_memory_valid reentrant depth name st f content :
  data st !! name = Some f → validates sha256 f content →
  (name ∉ locks st ∨ reentrant = true) →
  load_memory sha256 reentrant depth name st = Returns (Some content) st.
Proof.
  intros Hf Hv Hl. destruct depth; simpl; unfold try_except;
    by rewrite (load_memory_try_valid _ _ _ _ _ _ Hf Hv Hl).
Qed.

Lemma load_memory_never_raises reentrant depth name st e s :
  load_memory sha256 reentrant depth name st ≠ Raises e s.
Proof.
  destruct depth; simpl; apply try_except_never_raises;
    intros e' s'; by eexists _, _.
Qed.

Lemma save_memory_never_raises reentrant name content stamp now st e s :
  save_memory sha256 reentrant name content stamp now st ≠ Raises e s.
Proof.
  apply try_except_never_raises. intros e' s'. by eexists _, _.
Qed.

(** The nested call of a load that fails validation asks for the lock its
    caller holds, and waits for it. *)
Lemma load_memory_blocks depth name st f :
  data st !! name = Some f → mismatches sha256 f → name ∉ locks st →
  ∃ st', load_memory sha256 false (S depth) name st = Blocks st'.
Proof.
  intros Hf (d & c & h & r & -> & Hc & Hh & Hr & Hne) Hl.
  destruct st as [dt bk lk lg]. simpl in *.
  assert (∀ st1 : state, is_Some (data st1 !! name) → name ∈ locks st1 →
          load_memory sha256 false depth name st1 = Blocks st1) as Hnested.
  { intros [dt1 bk1 lk1 lg1] [f1 Hf1] Hl1. simpl in *.
    destruct depth; simpl; unfold load_memory_try;
      exec_by ltac:(rewrite ?Hf1, ?bool_decide_eq_true_2 by done); done. }
  unfold load_memory_try, _restore_backup.
  exec_by ltac:(rewrite ?Hf, ?bool_decide_eq_false_2, ?Hc, ?Hh, ?Hr, ?Hne by done).
  destruct (bk !! name) as [dir|] eqn:Hb; simpl.
  - destruct (last (backup_names dir)) as [latest|] eqn:Hlast; simpl.
    + destruct (proj1 (latest_backup_greatest _ _) Hlast) as ([snap Hsnap] & _).
      rewrite Hsnap. simpl. rewrite Hnested; simpl.
      * by eexists.
      * rewrite lookup_insert_eq. by eexists.
      * left.
    + rewrite Hnested; simpl; [by eexists|by eexists|left].
  - rewrite Hnested; simpl; [by eexists|by eexists|left].
Qed.

(** What [load_memory] returns is the content of the live file as the
    call leaves it, and that file validates. *)
Lemma str_eq_true h v : negb (str_eq h v) = false → v = VStr h.
Proof.
  intros H%negb_false_iff. destruct v; simpl in H; try done.
  by apply bool_decide_eq_true in H as ->.
Qed.

Lemma load_memory_sound reentrant depth name st c st' :
  load_memory sha256 reentrant depth name st = Returns (Some c) st' →
  ∃ f, data st' !! name = Some f ∧ validates sha256 f c.
Proof.
  revert st st'. induction depth as [|depth IH]; intros [dt bk lk lg] st'.
  - simpl. unfold load_memory_try, _restore_backup, load_memory_except, json_load, subscript.
    exec_by idtac. intros H.
    repeat (case_match; simplify_eq/=; try done).
    eexists. split; [done|]. eexists _, _. repeat split; try done.
    match goal with H : negb _ = false |- _ => by apply str_eq_true in H as -> end.
  - change (load_memory sha256 reentrant (S depth) name) with
      (try_except (load_memory_try sha256 reentrant (load_memory sha256 reentrant depth name) name)
                  (load_memory_except name)).
    unfold load_memory_try, _restore_backup, load_memory_except, json_load, subscript.
    exec_by idtac. intros H.
    repeat (case_match; simplify_eq/=; try done);
      try (match goal with
           | H : load_memory _ _ _ _ _ = Returns (Some _) _ |- _ => by apply IH in H
           end).
    eexists. split; [done|]. eexists _, _. repeat split; try done.
    match goal with H : negb _ = false |- _ => by apply str_eq_true in H as -> end.
Qed.

Lemma hash_dict_loaded content :
  str_keyed content = true →
  _hash_dict sha256 (loaded content) = _hash_dict sha256 content.
Proof. intros Hs. unfold _hash_dict. by rewrite dumps_loaded. Qed.

Lemma records_validates f content h :
  records f content h → _hash_dict sha256 content = Some h → validates sha256 f content.
Proof. intros (d & -> & Hc & Hh) Hhash. by exists d, h. Qed.

(** After [save_memory] has returned [True] the file holds the content as
    [json] reads it back, with the hash of the content that was passed. *)
Lemma save_memory_sound reentrant name content stamp now st st' :
  save_memory sha256 reentrant name content stamp now st = Returns true st' →
  ∃ f h, data st' !! name = Some f ∧ _hash_dict sha256 content = Some h
         ∧ records f (loaded content) h.
Proof.
  destruct st as [dt bk lk lg].
  unfold save_memory, save_memory_try, save_memory_except, _quick_backup.
  exec_by idtac. intros H.
  repeat (case_match; simplify_eq/=; try done);
    (eexists _, _; split; [apply lookup_insert_eq|]; split; [done|];
     eexists; repeat split; done).
Qed.


End core.

(** C1.  What the code does on a hash mismatch.  [load_memory] logs the
    warning, restores the most recent snapshot when there is one, and then
    calls itself INSIDE the [with] block that holds the lock of the memory:
    the nested call builds a [FileLock] of its own on the same lock file
    and waits for it, with no timeout.  The call never comes back: it does
    not return the restored content, and it does not fail.  The state it
    waits in is the one stated: the lock held, one warning logged, the live
    file replaced by the snapshot with the greatest name, or left as it was
    when there is no snapshot.  There is no CorruptionError either: whatever
    the lock does, [load_memory] does not raise. *)
Theorem load_memory_waits_after_restoring
    (sha256 : string → string) depth name st f :
  data st !! name = Some f →
  mismatches sha256 f →
  name ∉ locks st →
  ∃ st',
    load_memory sha256 false (S depth) name st = Blocks st'
    ∧ locks st' = name :: locks st
    ∧ log st' = warning name :: log st
    ∧ backups st' = backups st
    ∧ (∀ dir latest snap,
         backups st !! name = Some dir →
         dir !! latest = Some snap →
         endswith latest ".json" = true →
         (∀ k, is_Some (dir !! k) → endswith k ".json" = true → String.le k latest) →
         data st' = <[name := snap]> (data st))
    ∧ ((∀ dir, backups st !! name = Some dir → last (backup_names dir) = None) →
       data st' = data st)
    ∧ ∀ reentrant depth' st0 e s,
        load_memory sha256 reentrant depth' name st0 ≠ Raises e s.
Proof.
  intros Hf (d & c & h & r & -> & Hc & Hh & Hr & Hne) Hl.
  destruct st as [dt bk lk lg]. simpl in *.
  assert (∀ st1 : state, is_Some (data st1 !! name) → name ∈ locks st1 →
          load_memory sha256 false depth name st1 = Blocks st1) as Hnested.
  { intros [dt1 bk1 lk1 lg1] [f1 Hf1] Hl1. simpl in *.
    destruct depth; simpl; unfold load_memory_try;
      exec_by ltac:(rewrite ?Hf1, ?bool_decide_eq_true_2 by done); done. }
  unfold load_memory_try, _restore_backup.
  exec_by ltac:(rewrite ?Hf, ?bool_decide_eq_false_2, ?Hc, ?Hh, ?Hr, ?Hne by done).
  destruct (bk !! name) as [dir|] eqn:Hb; simpl.
  - destruct (last (backup_names dir)) as [latest|] eqn:Hlast; simpl.
    + destruct (proj1 (latest_backup_greatest _ _) Hlast) as ([snap Hsnap] & _).
      rewrite Hsnap. simpl. rewrite Hnested; simpl.
      * eexists. split; [done|]. simpl. repeat split; try done.
        -- intros dir' latest' snap' [= <-] Hs' He' Hmax'.
           assert (last (backup_names dir) = Some latest') as Hlast'.
           { apply latest_backup_greatest. split; [by eexists|done]. }
           congruence.
        -- intros Hnone. specialize (Hnone dir eq_refl). congruence.
        -- intros. apply load_memory_never_raises.
      * rewrite lookup_insert_eq. by eexists.
      * left.
    + rewrite Hnested; simpl; [|by eexists|left].
      eexists. split; [done|]. simpl. repeat split; try done.
      * intros dir' latest' snap' [= <-] Hs' He' Hmax'.
        assert (last (backup_names dir) = Some latest') as Hlast'.
        { apply latest_backup_greatest. split; [by eexists|done]. }
        congruence.
      * intros. apply load_memory_never_raises.
  - rewrite Hnested; simpl; [|by eexists|left].
    eexists. split; [done|]. simpl. repeat split; try done.
    intros. apply load_memory_never_raises.
Qed.

Lemma load_memory_waits_after_restoring_witness :
  ∃ st',
    load_memory digest false 1 "plan" tampered_store = Blocks st'
    ∧ locks st' = "plan" :: locks tampered_store
    ∧ log st' = warning "plan" :: log tampered_store
    ∧ backups st' = backups tampered_store
    ∧ (∀ dir latest snap,
         backups tampered_store !! "plan" = Some dir →
         dir !! latest = Some snap →
         endswith latest ".json" = true →
         (∀ k, is_Some (dir !! k) → endswith k ".json" = true → String.le k latest) →
         data st' = <["plan" := snap]> (data tampered_store))
    ∧ ((∀ dir, backups tampered_store !! "plan" = Some dir →
               last (backup_names dir) = None) →
       data st' = data tampered_store)
    ∧ ∀ reentrant depth' st0 e s,
        load_memory digest reentrant depth' "plan" st0 ≠ Raises e s.
Proof.
  apply (load_memory_waits_after_restoring digest 0 "plan" tampered_store tampered).
  - reflexivity.
  - eexists _, _, _, _. split; [reflexivity|]. split; [reflexivity|].
    split; [reflexivity|]. split; reflexivity.
  - apply not_elem_of_nil.
Defined.

(** The two inputs on which the specification and the code part: a
    tampered memory with snapshots, which the specification has restored
    and returned, and one with none, which it has fail with a
    CorruptionError.  On both the call waits for its own lock; on the first
    the live file has been replaced by the latest snapshot by then. *)
Lemma load_memory_mismatch_counterexample :
  load_memory digest false 2 "plan" tampered_store =
    Blocks {| data := {[ "plan" := stored plan1 "2024-05-01T09:00:00" ]};
              backups := {[ "plan" := snapshots ]};
              locks := ["plan"]; log := [warning "plan"] |}
  ∧ load_memory digest false 2 "plan" tampered_alone =
      Blocks {| data := {[ "plan" := tampered ]}; backups := ∅;
                locks := ["plan"]; log := [warning "plan"] |}.
Proof. split; vm_compute; reflexivity. Qed.

(** C7.  [_hash_dict] is the SHA-256 digest of the text [json.dumps]
    gives for the value with the keys of every dict in sorted order: for a
    dict, the text of its items taken in the order of their keys.  Two
    values that are the same mappings up to the insertion order of their
    keys, at every depth, have the same text and so the same digest.  The
    digest depends on nothing but that text, and tells two values apart as
    far as SHA-256 tells their texts apart. *)
Theorem hash_dict_ignores_insertion_order (sha256 : string → string) (a b : value) :
  distinct_keys a = true →
  reordered a b →
  _hash_dict sha256 a = _hash_dict sha256 b
  ∧ dumps a = dumps b
  ∧ (∀ d,
       a = VDict d →
       sorted item_le d ≡ₚ d
       ∧ StronglySorted item_le (sorted item_le d)
       ∧ _hash_dict sha256 a =
           sha256 <$>
             (items ← mapM (λ kv, s ← dumps kv.2; Some (kv.1, s)) (sorted item_le d);
              Some ("{" +:+ join ", " (render_item <$> items) +:+ "}")))
  ∧ (∀ c,
       (∀ x y, sha256 x = sha256 y → x = y) →
       _hash_dict sha256 a = _hash_dict sha256 c → dumps a = dumps c).
Proof.
  intros Hk Hr.
  split; [unfold _hash_dict; by rewrite (dumps_reordered a Hk b Hr)|].
  split; [by apply dumps_reordered|]. split.
  - intros d ->. split; [apply sorted_Permutation|].
    split; [apply StronglySorted_sorted; apply _|].
    unfold _hash_dict. by rewrite dumps_dict_sorted.
  - intros c Hinj. unfold _hash_dict.
    destruct (dumps a) as [x|], (dumps c) as [y|]; simpl; try done.
    intros [= Hxy]. f_equal. by apply Hinj.
Qed.

Lemma hash_dict_ignores_insertion_order_witness :
  _hash_dict digest build_plan = _hash_dict digest build_plan_reordered
  ∧ dumps build_plan = dumps build_plan_reordered
  ∧ (∀ d,
       build_plan = VDict d →
       sorted item_le d ≡ₚ d
       ∧ StronglySorted item_le (sorted item_le d)
       ∧ _hash_dict digest build_plan =
           digest <$>
             (items ← mapM (λ kv, s ← dumps kv.2; Some (kv.1, s)) (sorted item_le d);
              Some ("{" +:+ join ", " (render_item <$> items) +:+ "}")))
  ∧ (∀ c,
       (∀ x y, digest x = digest y → x = y) →
       _hash_dict digest build_plan = _hash_dict digest c → dumps build_plan = dumps c).
Proof.
  apply (hash_dict_ignores_insertion_order digest build_plan build_plan_reordered).
  - reflexivity.
  - apply (reordered_dict _
             [("stage", VInt 1);
              ("tasks", VDict [("valid", VBool true); ("limit", VNone)])]).
    + constructor; [split; [reflexivity|apply reordered_refl]|].
      constructor; [|constructor]. split; [reflexivity|]. simpl.
      apply (reordered_dict _ [("limit", VNone); ("valid", VBool true)]).
      * repeat constructor.
      * apply Permutation_swap.
    + apply Permutation_swap.
Defined.

(** C8 as the specification states it fails: a file that does not parse
    makes [load_memory] return [None], the value it returns for a memory
    that does not exist, and a content that cannot be serialised makes
    [save_memory] return [False], the live file left empty. *)
Lemma core_swallows_errors_counterexample :
  load_memory digest false 2 "plan" garbled_store =
    Returns None
      {| data := {[ "plan" := Unparsable ]}; backups := ∅; locks := [];
         log := [LogError "Failed to load memory plan" JSONDecodeError] |}
  ∧ load_memory digest false 2 "plan" empty_store = Returns None empty_store
  ∧ save_memory digest false "plan" (VDict [("due", VObj "datetime")])
      "20240501_100000" "2024-05-01T10:00:00" empty_store =
    Returns false
      {| data := {[ "plan" := Unparsable ]}; backups := ∅; locks := [];
         log := [LogError "Failed to save memory plan" TypeError] |}.
Proof. repeat split; vm_compute; reflexivity. Qed.

(** C8, as amended.  [save_memory] and [load_memory] never raise.  An
    exception raised inside either is caught, logged, and turned into the
    return value: [False] from [save_memory], [None] from [load_memory],
    which is also what [load_memory] returns for a memory that does not
    exist.  The other values are meant: after [True] the file holds the
    content as [json] reads it back (the content itself when it holds no
    tuple and no int key) with the hash of the content that was passed,
    which is the hash of what the file holds when the content has no int
    key; and a content returned by [load_memory] is that of the live file,
    which validates. *)
Theorem core_failures_are_return_values (sha256 : string → string) (reentrant : bool) :
  (∀ depth name st e s,
     load_memory sha256 reentrant depth name st ≠ Raises e s)
  ∧ (∀ name content stamp now st e s,
       save_memory sha256 reentrant name content stamp now st ≠ Raises e s)
  ∧ (∀ depth name st,
       data st !! name = None →
       load_memory sha256 reentrant depth name st = Returns None st)
  ∧ (∀ depth name st e s,
       load_memory_try sha256 reentrant
         match depth with
         | O => raise RecursionError
         | S depth' => load_memory sha256 reentrant depth' name
         end name st = Raises e s →
       load_memory sha256 reentrant depth name st =
         Returns None (add_log (LogError ("Failed to load memory " +:+ name) e) s))
  ∧ (∀ name content stamp now st e s,
       save_memory_try sha256 reentrant name content stamp now st = Raises e s →
       save_memory sha256 reentrant name content stamp now st =
         Returns false (add_log (LogError ("Failed to save memory " +:+ name) e) s))
  ∧ (∀ depth name st c st',
       load_memory sha256 reentrant depth name st = Returns (Some c) st' →
       ∃ f, data st' !! name = Some f ∧ validates sha256 f c)
  ∧ (∀ name content stamp now st st',
       save_memory sha256 reentrant name content stamp now st = Returns true st' →
       ∃ f h, data st' !! name = Some f
              ∧ _hash_dict sha256 content = Some h
              ∧ records f (loaded content) h
              ∧ (str_keyed content = true → validates sha256 f (loaded content))
              ∧ (json_native content = true → validates sha256 f content)).
Proof.
  split; [intros; apply load_memory_never_raises|].
  split; [intros; apply save_memory_never_raises|].
  split.
  { intros depth name st Hnone.
    destruct depth; simpl; unfold load_memory_try;
      exec_by ltac:(rewrite ?Hnone); done. }
  split.
  { intros depth name st e s H. destruct depth; simpl in *;
      unfold try_except; by rewrite H. }
  split.
  { intros name content stamp now st e s H. unfold save_memory, try_except.
    by rewrite H. }
  split; [intros *; apply load_memory_sound|].
  intros name content stamp now st st' Hrun.
  destruct (save_memory_sound sha256 reentrant name content stamp now st st' Hrun)
    as (f & h & Hf & Hh & Hrec).
  exists f, h. split; [done|]. split; [done|]. split; [done|].
  assert (str_keyed content = true → validates sha256 f (loaded content)) as Hv.
  { intros Hs. apply (records_validates sha256 _ _ h); [done|]. by rewrite hash_dict_loaded. }
  split; [done|]. intros Hn. rewrite <- (loaded_native content) by done.
  by apply Hv, native_str_keyed.
Qed.

Lemma core_failures_are_return_values_witness :
  load_memory digest false 2 "plan" garbled_store =
    Returns None
      (add_log (LogError ("Failed to load memory " +:+ "plan") JSONDecodeError)
               garbled_store).
Proof.
  apply (proj1 (proj2 (proj2 (proj2 (core_failures_are_return_values digest false))))
           2%nat "plan" garbled_store JSONDecodeError garbled_store).
  vm_compute. reflexivity.
Defined.

End CascadeCoreFacts.

(** ** CascadeMemory: create, get, update, expiry *)

Module CascadeMemoryFacts.
Import Py Json Exec CascadeMemory PyFacts JsonFacts ExecFacts Examples Scenarios.

#[local] Arguments String.app : simpl never.
#[local] Arguments dumps : simpl never.
#[local] Arguments loaded_dict : simpl never.

(** *** Records that [json] can write *)

Lemma dumps_dict_Some (d : dict) : is_Some (dumps (VDict d)) ↔ Forall serialisable d.
Proof.
  unfold dumps; fold dumps. split.
  - intros [s Hs]. destruct (decide (Forall serialisable d)) as [H|H]; [done|].
    by rewrite (render_items_None d H) in Hs.
  - intros H. rewrite (render_items_Some d H). by eexists.
Qed.

Lemma Forall_dict_set {V} (P : string * V → Prop) k v (d : list (string * V)) :
  P (k, v) → Forall P d → Forall P (dict_set k v d).
Proof.
  intros Hv Hd. induction Hd as [|[k' v'] d Hx Hd IH]; simpl; [by constructor|].
  destruct (decide (k = k')); by constructor.
Qed.

Lemma native_serialisable (v : value) : json_native v = true → is_Some (dumps v).
Proof.
  induction v as [| |n|s|l IH|d IH| |t IH|m IH] using value_nested_ind;
    try done; try (intros _; unfold dumps; by eexists).
  - intros _. destruct b; by eexists.
  - cbn [json_native]. intros Hn. apply Is_true_true_2, forallb_True in Hn.
    unfold dumps; fold dumps.
    assert (is_Some (mapM dumps l)) as [parts ->]; [|by eexists].
    induction IH as [|x l Hx Hl IHl]; [by eexists|].
    apply Forall_cons in Hn as [Hnx Hnl]. cbn [mapM].
    destruct (Hx (Is_true_true_1 _ Hnx)) as [sx ->].
    destruct (IHl Hnl) as [sl ->]. by eexists.
  - cbn [json_native]. intros Hn. apply Is_true_true_2, forallb_True in Hn.
    apply dumps_dict_Some.
    induction IH as [|[k x] d Hx Hd IHd]; [constructor|].
    apply Forall_cons in Hn as [Hnx Hnd]. constructor; [|by apply IHd].
    apply Hx. by apply Is_true_true_1.
Qed.

(** The record [update_memory] builds can be written when the record read
    and what is put into it can. *)
Lemma updated_serialisable now content critique v memory :
  Forall serialisable memory →
  is_Some (dumps content) → is_Some (dumps critique) → is_Some (dumps v) →
  is_Some (dumps (VDict (updated now content critique v memory))).
Proof.
  intros Hm Hc Hq Hv. apply dumps_dict_Some. unfold updated.
  assert (Forall serialisable
            (dict_set "version" v
               (dict_set "updated_at" (VStr now) (dict_set "content" content memory)))) as H.
  { apply Forall_dict_set; [done|]. apply Forall_dict_set; [by eexists|].
    by apply Forall_dict_set. }
  destruct (truthy critique); [by apply Forall_dict_set|done].
Qed.

Lemma created_serialisable memory_id now memory_type content critique :
  is_Some (dumps content) → is_Some (dumps critique) →
  is_Some (dumps (VDict (created memory_id now memory_type content critique))).
Proof.
  intros Hc Hq. apply dumps_dict_Some. unfold created, py_or.
  repeat (constructor; [try done; by eexists|]).
  constructor; [|constructor]. unfold serialisable. simpl.
  destruct (truthy critique); [done|by eexists].
Qed.

Section memory.
Variable schema_accepts : dict → bool.
Variable reentrant : bool.

Lemma updated_version now content critique v memory :
  dict_get "version" (updated now content critique v memory) = Some v.
Proof.
  unfold updated. destruct (truthy critique).
  - rewrite dict_get_set_ne by done. apply dict_get_set_eq.
  - apply dict_get_set_eq.
Qed.

Lemma updated_updated_at now content critique v memory :
  dict_get "updated_at" (updated now content critique v memory) = Some (VStr now).
Proof.
  unfold updated. destruct (truthy critique).
  - rewrite !dict_get_set_ne by done. apply dict_get_set_eq.
  - rewrite dict_get_set_ne by done. apply dict_get_set_eq.
Qed.

(** One call of [update_memory] on a record that is in the index, its
    file readable, its version a number: the record is validated, then
    written, which fails on a record [json] cannot serialise and leaves the
    file truncated and the index as it was. *)
Lemma update_memory_step now memory_id content critique st entry memory v v' :
  locks st = [] →
  dict_get memory_id (memories (index_file st)) = Some entry →
  files st !! path entry = Some (Stored memory) →
  dict_get "version" memory = Some v →
  add_one v = Some v' →
  update_memory schema_accepts reentrant now memory_id content critique st =
    if schema_accepts (updated now content critique v' memory) then
      if dumps (VDict (updated now content critique v' memory)) is Some _ then
        Returns true
          {| index_file :=
               {| memories :=
                    dict_set memory_id
                      {| path := path entry; type_ := type_ entry;
                         version := v'; last_updated := VStr now |}
                      (memories (index_file st));
                  stats := stats (index_file st) |};
             files := <[path entry :=
                          Stored (loaded_dict (updated now content critique v' memory))]>
                        (files st);
             locks := [] |}
      else
        Raises TypeError
          {| index_file := index_file st;
             files := <[path entry := Truncated]> (files st);
             locks := [] |}
    else Raises invalid_format st.
Proof.
  intros Hl Hi Hf Hv Hv'. destruct st as [idx fs lk]. simpl in *. subst lk.
  unfold update_memory, _acquire_lock, _release_lock, _validate_memory,
    read_index, read_file, write_file, write_index.
  assert (dict_get "version"
            (dict_set "updated_at" (VStr now) (dict_set "content" content memory))
          = Some v) as Hv2.
  { by rewrite !dict_get_set_ne by done. }
  exec_by ltac:(rewrite ?Hi, ?Hf, ?Hv2, ?Hv', ?andb_false_r, ?decide_True by done).
  change (if truthy critique
          then dict_set "critique" critique
                 (dict_set "version" v'
                    (dict_set "updated_at" (VStr now) (dict_set "content" content memory)))
          else dict_set "version" v'
                 (dict_set "updated_at" (VStr now) (dict_set "content" content memory)))
    with (updated now content critique v' memory).
  rewrite updated_version, updated_updated_at.
  destruct (schema_accepts _); simpl.
  - destruct (dumps (VDict (updated now content critique v' memory))); simpl;
      rewrite bool_decide_eq_true_2 by left; simpl; by rewrite decide_True.
  - rewrite bool_decide_eq_true_2 by left. simpl. by rewrite decide_True.
Qed.


(** One call of [create_memory]: the record is validated, then written,
    which fails on a record [json] cannot serialise and leaves a truncated
    file that the index does not list. *)
Lemma create_memory_step memory_id now memory_type content critique st :
  locks st = [] →
  create_memory schema_accepts reentrant memory_id now memory_type content critique st =
    if schema_accepts (created memory_id now memory_type content critique) then
      if dumps (VDict (created memory_id now memory_type content critique)) is Some _ then
        Returns memory_id
          {| index_file :=
               {| memories :=
                    dict_set memory_id
                      {| path := record_path memory_id; type_ := memory_type;
                         version := VInt 1; last_updated := VStr now |}
                      (memories (index_file st));
                  stats := stats (index_file st) |};
             files := <[record_path memory_id :=
                          Stored (loaded_dict
                                    (created memory_id now memory_type content critique))]>
                        (files st);
             locks := [] |}
      else
        Raises TypeError
          {| index_file := index_file st;
             files := <[record_path memory_id := Truncated]> (files st);
             locks := [] |}
    else Raises invalid_format st.
Proof.
  intros Hl. destruct st as [idx fs lk]. simpl in *. subst lk.
  unfold create_memory, _acquire_lock, _release_lock, _validate_memory,
    read_index, write_file, write_index.
  fold (created memory_id now memory_type content critique).
  fold (record_path memory_id).
  exec_by idtac.
  destruct (schema_accepts _); [|done]. simpl.
  by destruct (dumps (VDict (created memory_id now memory_type content critique))).
Qed.

Lemma get_memory_found memory_id st entry memory :
  dict_get memory_id (memories (index_file st)) = Some entry →
  files st !! path entry = Some (Stored memory) →
  get_memory memory_id st = Returns memory st.
Proof.
  intros Hi Hf. unfold get_memory, read_index, read_file.
  exec_by ltac:(rewrite ?Hi, ?Hf). done.
Qed.

(** [get_memory] does not repair a record file that does not parse. *)
Lemma get_memory_truncated memory_id st entry :
  dict_get memory_id (memories (index_file st)) = Some entry →
  files st !! path entry = Some Truncated →
  get_memory memory_id st = Raises JSONDecodeError st.
Proof.
  intros Hi Hf. unfold get_memory, read_index, read_file.
  exec_by ltac:(rewrite ?Hi, ?Hf). done.
Qed.

(** [get_memory] reads: whatever it does, the store stays as it is, and
    what it returns is the record file named by the index. *)
Lemma get_memory_reads memory_id st :
  match get_memory memory_id st with
  | Returns memory st' =>
      st' = st ∧ ∃ entry, dict_get memory_id (memories (index_file st)) = Some entry
                          ∧ files st !! path entry = Some (Stored memory)
  | Raises e st' => st' = st
  | Blocks _ => False
  end.
Proof.
  unfold get_memory, read_index, read_file. exec_by idtac.
  destruct (dict_get memory_id _) as [entry|] eqn:Hi; simpl; [|done].
  destruct (files st !! path entry) as [[|memory]|] eqn:Hf; simpl; [done| |done].
  split; [done|]. by exists entry.
Qed.






Lemma filter_ext_elem {A} (P Q : A → Prop)
    `{!∀ x, Decision (P x), !∀ x, Decision (Q x)} (l : list A) :
  (∀ x, x ∈ l → P x ↔ Q x) → filter P l = filter Q l.
Proof.
  induction l as [|x l IH]; intros Hpq; [done|].
  rewrite !filter_cons. rewrite IH by (intros; apply Hpq; by right).
  destruct (decide (P x)) as [HP|HP], (decide (Q x)) as [HQ|HQ]; try done.
  - exfalso. apply HQ, Hpq; [left|done].
  - exfalso. apply HP, Hpq; [left|done].
Qed.

Lemma NoDup_fmap_elem_inj {A B} (f : A → B) (l : list A) x y :
  NoDup (f <$> l) → x ∈ l → y ∈ l → f x = f y → x = y.
Proof.
  induction l as [|z l IH]; simpl; [by intros _ ?%elem_of_nil|].
  intros [Hz Hl]%NoDup_cons [->|Hx]%elem_of_cons [->|Hy]%elem_of_cons Hf; auto.
  - exfalso. apply Hz. rewrite Hf. by apply list_elem_of_fmap_2.
  - exfalso. apply Hz. rewrite <- Hf. by apply list_elem_of_fmap_2.
Qed.

Lemma NoDup_fst_filter {V} (P : string * V → Prop) `{!∀ x, Decision (P x)}
    (ms : list (string * V)) :
  NoDup ms.*1 → NoDup (filter P ms).*1.
Proof.
  induction ms as [|[k v] ms IH]; [done|].
  intros [Hk Hnd]%NoDup_cons. rewrite filter_cons.
  destruct (decide _); simpl; [|by apply IH].
  apply NoDup_cons. split; [|by apply IH].
  intros ([k' v'] & Heq & [_ Hin]%list_elem_of_filter)%list_elem_of_fmap.
  simpl in Heq. subst k'. apply Hk. apply list_elem_of_fmap. by exists (k, v').
Qed.

Lemma foldl_dict_del_filter {V} (ms : list (string * V)) (ids : list string) :
  NoDup ms.*1 →
  foldl (λ m i, dict_del i m) ms ids = filter (λ kv, kv.1 ∉ ids) ms.
Proof.
  revert ms. induction ids as [|i ids IH]; intros ms Hnd; cbn [foldl].
  - symmetry. apply filter_all. apply Forall_forall. intros ? _. apply not_elem_of_nil.
  - rewrite IH.
    + rewrite dict_del_filter by done. rewrite list_filter_filter.
      apply filter_ext_elem. intros kv _. rewrite not_elem_of_cons. tauto.
    + rewrite dict_del_filter by done. by apply NoDup_fst_filter.
Qed.

Section cleanup.
Variables (now : string) (idx : index) (lk : list string).

(** The loop of [cleanup_expired] over the entries [todo] not looked at
    yet: [fs] are the files and [mems] the in-memory index at that point. *)
Lemma cleanup_loop todo : ∀ fs mems cleaned,
  NoDup todo.*1 →
  NoDup (path <$> todo.*2) →
  (∀ id e, (id, e) ∈ todo →
     dict_get id (memories idx) = Some e ∧ dict_get id mems = Some e ∧
     ∃ m, fs !! path e = Some (Stored m) ∧
          ∀ x, dict_get "expires_at" m = Some x → ∃ s, x = VStr s) →
  for_each (cleanup_round now) todo.*1 (mems, cleaned)
    {| index_file := idx; files := fs; locks := lk |} =
  Returns
    (foldl (λ m i, dict_del i m) mems (filter (λ kv, expired now fs kv = true) todo).*1,
     (cleaned + length (filter (λ kv, expired now fs kv = true) todo))%nat)
    {| index_file := idx;
       files := foldl (λ f q, delete q f) fs
                  (path <$> (filter (λ kv, expired now fs kv = true) todo).*2);
       locks := lk |}.
Proof.
  induction todo as [|[id e] todo IH]; intros fs mems cleaned Hids Hpaths Htodo.
  - simpl. by rewrite Nat.add_0_r.
  - simpl in Hids, Hpaths.
    apply NoDup_cons in Hids as [Hid Hids]. apply NoDup_cons in Hpaths as [Hp Hpaths].
    destruct (Htodo id e) as (Hdisk & Hmem & m & Hm & Hty); [left|].
    assert (∀ id' e', (id', e') ∈ todo → id' ≠ id ∧ path e' ≠ path e) as Hother.
    { intros id' e' Hin. split.
      - intros ->. apply Hid. apply list_elem_of_fmap. by exists (id, e').
      - intros Heq. apply Hp. rewrite <- Heq. apply list_elem_of_fmap. exists e'.
        split; [done|]. apply list_elem_of_fmap. by exists (id', e'). }
    assert (∀ fs', (∀ id' e', (id', e') ∈ todo → fs' !! path e' = fs !! path e') →
              filter (λ kv, expired now fs' kv = true) todo
              = filter (λ kv, expired now fs kv = true) todo) as Hfilter.
    { intros fs' Hfs'. apply filter_ext_elem. intros [id' e'] Hin.
      unfold expired. simpl. by rewrite (Hfs' id' e' Hin). }
    assert (expired now fs (id, e) =
            match dict_get "expires_at" m with
            | Some (VStr s) => String.ltb s now
            | _ => false
            end) as Hexp.
    { unfold expired. simpl. by rewrite Hm. }
    cbn [fmap list_fmap for_each fst].
    unfold mbind at 1, M_bind at 1, bind at 1.
    unfold cleanup_round at 1, get_memory, read_index, read_file, remove_file.
    destruct (dict_get "expires_at" m) as [x|] eqn:Hx.
    + destruct (Hty x eq_refl) as [s ->].
      destruct (String.ltb s now) eqn:Hlt.
      * rewrite filter_cons_True by done.
        exec_by ltac:(rewrite ?Hdisk, ?Hm, ?Hx, ?Hmem, ?Hlt).
        unfold set_files. simpl.
        rewrite IH; [|done|done|].
        -- rewrite Hfilter.
           { f_equal. f_equal. lia. }
           intros id' e' Hin. destruct (Hother id' e' Hin) as [_ Hne].
           by rewrite lookup_delete_ne.
        -- intros id' e' Hin. destruct (Hother id' e' Hin) as [Hne1 Hne2].
           destruct (Htodo id' e') as (? & ? & m' & ? & ?); [by right|].
           split; [done|]. split; [by rewrite dict_get_del_ne|].
           exists m'. by rewrite lookup_delete_ne.
      * rewrite filter_cons_False by (rewrite Hexp; done).
        exec_by ltac:(rewrite ?Hdisk, ?Hm, ?Hx, ?Hmem, ?Hlt).
        apply IH; [done|done|].
        intros id' e' Hin. apply Htodo. by right.
    + rewrite filter_cons_False by (rewrite Hexp; done).
      exec_by ltac:(rewrite ?Hdisk, ?Hm, ?Hx).
      apply IH; [done|done|].
      intros id' e' Hin. apply Htodo. by right.
Qed.

End cleanup.

End memory.

(** What [cleanup_expired] leaves, in a store that satisfies the index
    invariant: [gone] are the expired entries. *)
Lemma cleanup_expired_result reentrant now st :
  locks st = [] →
  consistent st →
  let gone := filter (λ kv, expired now (files st) kv = true) (memories (index_file st)) in
  ∃ st',
    cleanup_expired reentrant now st = Returns (length gone) st'
    ∧ memories (index_file st') =
        filter (λ kv, kv.1 ∉ gone.*1) (memories (index_file st))
    ∧ files st' = foldl (λ f q, delete q f) (files st) (path <$> gone.*2)
    ∧ locks st' = [].
Proof.
  intros Hl (Hids & Hpaths & Hfiles) gone. destruct st as [idx fs lk].
  simpl in *. subst lk.
  unfold cleanup_expired, _acquire_lock, _release_lock, read_index, write_index.
  exec_by idtac.
  rewrite (cleanup_loop now idx ["index"] (memories idx) fs (memories idx) 0 Hids Hpaths).
  - fold gone. simpl. destruct (length gone) as [|n] eqn:Hn; simpl.
    + eexists. split; [done|]. simpl. split; [|done].
      apply length_zero_iff_nil in Hn. rewrite Hn. simpl.
      symmetry. apply filter_all, Forall_forall. intros ? _. apply not_elem_of_nil.
    + eexists. split; [done|]. simpl. split; [|done].
      by apply foldl_dict_del_filter.
  - intros id e Hin. destruct (Hfiles id e Hin) as (m & Hm & Hty).
    split; [by apply dict_get_elem|]. split; [by apply dict_get_elem|]. by exists m.
Qed.

Lemma loaded_get_native k (memory : dict) :
  json_native (VDict memory) = true →
  dict_get k (loaded_dict memory) = dict_get k memory.
Proof. intros Hn. by rewrite loaded_dict_native. Qed.

(** C5 as the specification states it fails on four records that the
    schema accepts.  A content that holds a tuple is written as an array:
    [get_memory] gives a list back, a record that is not equal to the one
    passed.  A content whose keys are ints comes back with the strings of
    their digits as keys.  An empty critique is replaced by the default
    one, as no critique is: the record read back does not hold the critique
    passed.  A content that holds a datetime is not written at all:
    [create_memory] raises [TypeError], the record file is left without a
    record, and the index does not list the id. *)
Lemma get_after_create_counterexample :
  create_memory record_schema false "id9" noon "note" with_tuple VNone no_records =
    Returns "id9"
      {| index_file :=
           {| memories := [("id9", {| path := record_path "id9"; type_ := "note";
                                      version := VInt 1; last_updated := VStr noon |})];
              stats := [] |};
         files := {[ record_path "id9" := Stored (created "id9" noon "note" with_list VNone) ]};
         locks := [] |}
  ∧ with_list ≠ with_tuple
  ∧ create_memory record_schema false "id9" noon "note" with_int_keys VNone no_records =
      Returns "id9"
        {| index_file :=
             {| memories := [("id9", {| path := record_path "id9"; type_ := "note";
                                        version := VInt 1; last_updated := VStr noon |})];
                stats := [] |};
           files :=
             {[ record_path "id9" := Stored (created "id9" noon "note" with_digit_keys VNone) ]};
           locks := [] |}
  ∧ with_digit_keys ≠ with_int_keys
  ∧ create_memory record_schema false "id9" noon "note" plan1 (VDict []) no_records =
      Returns "id9"
        {| index_file :=
             {| memories := [("id9", {| path := record_path "id9"; type_ := "note";
                                        version := VInt 1; last_updated := VStr noon |})];
                stats := [] |};
           files := {[ record_path "id9" := Stored (created "id9" noon "note" plan1 VNone) ]};
           locks := [] |}
  ∧ dict_get "critique" (created "id9" noon "note" plan1 VNone) = Some empty_critique
  ∧ empty_critique ≠ VDict []
  ∧ create_memory record_schema false "id9" noon "note" with_datetime VNone no_records =
      Raises TypeError
        {| index_file := index_file no_records;
           files := {[ record_path "id9" := Truncated ]};
           locks := [] |}.
Proof. repeat split; try done; vm_compute; reflexivity. Qed.

(** C5, as amended.  For a record that the schema accepts and whose
    content and critique [json] can serialise, [get_memory] on the id
    [create_memory] returns gives back the type, the content and the
    critique as [json] reads them back, that is as they were passed when
    they hold no tuple and no int key; the critique is the default one when
    none, or an empty one, was passed; with them come the id, the two timestamps and
    version 1.  [get_memory] only reads: the store is left as it was, the
    record is the content of the record file, and a record file that does
    not parse is reported ([JSONDecodeError]), not repaired. *)
Theorem get_after_create
    (schema_accepts : dict → bool) (reentrant : bool)
    memory_id now memory_type content critique st :
  locks st = [] →
  schema_accepts (created memory_id now memory_type content critique) = true →
  is_Some (dumps content) →
  is_Some (dumps critique) →
  ∃ st',
    create_memory schema_accepts reentrant memory_id now memory_type content critique st
      = Returns memory_id st'
    ∧ get_memory memory_id st' =
        Returns [("id", VStr memory_id);
                 ("type", VStr memory_type);
                 ("content", loaded content);
                 ("created_at", VStr now);
                 ("updated_at", VStr now);
                 ("version", VInt 1);
                 ("critique", loaded (if truthy critique then critique
                                      else empty_critique))] st'
    ∧ (json_native content = true → loaded content = content)
    ∧ (json_native critique = true → loaded critique = critique)
    ∧ (∀ other s,
         match get_memory other s with
         | Returns memory s' =>
             s' = s ∧ ∃ entry, dict_get other (memories (index_file s)) = Some entry
                               ∧ files s !! path entry = Some (Stored memory)
         | Raises _ s' => s' = s
         | Blocks _ => False
         end)
    ∧ (∀ other s entry,
         dict_get other (memories (index_file s)) = Some entry →
         files s !! path entry = Some Truncated →
         get_memory other s = Raises JSONDecodeError s).
Proof.
  intros Hl Hok Hc Hq. eexists. rewrite create_memory_step by done. rewrite Hok.
  destruct (created_serialisable memory_id now memory_type content critique Hc Hq)
    as [text ->].
  split; [done|]. split.
  { erewrite get_memory_found; [|apply dict_get_set_eq|apply lookup_insert_eq]. done. }
  split; [apply loaded_native|]. split; [apply loaded_native|].
  split; [apply get_memory_reads|apply get_memory_truncated].
Qed.

Lemma get_after_create_witness :
  ∃ st',
    create_memory record_schema false "id1" "2024-05-01T10:00:00" "build_plan"
      plan1 (VDict []) no_records = Returns "id1" st'
    ∧ get_memory "id1" st' =
        Returns [("id", VStr "id1");
                 ("type", VStr "build_plan");
                 ("content", loaded plan1);
                 ("created_at", VStr "2024-05-01T10:00:00");
                 ("updated_at", VStr "2024-05-01T10:00:00");
                 ("version", VInt 1);
                 ("critique", loaded (if truthy (VDict []) then VDict []
                                      else empty_critique))] st'
    ∧ (json_native plan1 = true → loaded plan1 = plan1)
    ∧ (json_native (VDict []) = true → loaded (VDict []) = VDict [])
    ∧ (∀ other s,
         match get_memory other s with
         | Returns memory s' =>
             s' = s ∧ ∃ entry, dict_get other (memories (index_file s)) = Some entry
                               ∧ files s !! path entry = Some (Stored memory)
         | Raises _ s' => s' = s
         | Blocks _ => False
         end)
    ∧ (∀ other s entry,
         dict_get other (memories (index_file s)) = Some entry →
         files s !! path entry = Some Truncated →
         get_memory other s = Raises JSONDecodeError s).
Proof.
  apply (get_after_create record_schema false "id1" "2024-05-01T10:00:00" "build_plan"
           plan1 (VDict []) no_records).
  - reflexivity.
  - reflexivity.
  - by eexists.
  - by eexists.
Defined.







(** C3 as the specification states it fails on a record that expires at
    the very time of the sweep: it is kept, and the count is 0. *)
Lemma cleanup_expired_keeps_record_due_now_counterexample :
  cleanup_expired false noon due_alone = Returns 0%nat due_alone
  ∧ dict_get "expires_at" due_record = Some (VStr noon).
Proof. split; vm_compute; reflexivity. Qed.

(** C3, as amended.  In a store that satisfies the index invariant,
    [cleanup_expired] removes, file and index entry, all and only the
    records whose [expires_at] is strictly before [now] (as strings), and
    returns how many they are; every entry left in the index is an entry
    that was there, with its record file, which holds a record. *)
Theorem cleanup_expired_removes_strictly_expired (reentrant : bool) now st :
  locks st = [] →
  consistent st →
  ∃ st',
    cleanup_expired reentrant now st =
      Returns (length (filter (λ kv, expired now (files st) kv = true)
                         (memories (index_file st)))) st'
    ∧ (∀ id e, (id, e) ∈ memories (index_file st) →
         if expired now (files st) (id, e)
         then files st' !! path e = None
              ∧ dict_get id (memories (index_file st')) = None
         else files st' !! path e = files st !! path e
              ∧ dict_get id (memories (index_file st')) = Some e)
    ∧ (∀ id e, dict_get id (memories (index_file st')) = Some e →
         (id, e) ∈ memories (index_file st)
         ∧ ∃ m, files st' !! path e = Some (Stored m))
    ∧ (∀ id e m, (id, e) ∈ memories (index_file st) →
         files st !! path e = Some (Stored m) →
         (expired now (files st) (id, e) = true ↔
          ∃ s, dict_get "expires_at" m = Some (VStr s) ∧ String.ltb s now = true))
    ∧ locks st' = [].
Proof.
  intros Hl Hc.
  destruct (cleanup_expired_result reentrant now st Hl Hc) as (st' & Hrun & Hm & Hf & Hl').
  destruct Hc as (Hids & Hpaths & Hfiles).
  set (gone := filter (λ kv, expired now (files st) kv = true) (memories (index_file st))) in *.
  assert (∀ kv, kv ∈ memories (index_file st) →
            kv.1 ∈ gone.*1 ↔ expired now (files st) kv = true) as Hgone1.
  { intros kv Hin. split.
    - intros (kv' & Heq & [Hexp Hin']%list_elem_of_filter)%list_elem_of_fmap.
      by rewrite (NoDup_fmap_elem_inj fst _ kv kv' Hids Hin Hin' Heq).
    - intros Hexp. apply list_elem_of_fmap. exists kv. split; [done|].
      by apply list_elem_of_filter. }
  assert (∀ kv, kv ∈ memories (index_file st) →
            path kv.2 ∈ path <$> gone.*2 ↔ expired now (files st) kv = true) as Hgone2.
  { intros kv Hin. rewrite <- list_fmap_compose. split.
    - intros (kv' & Heq & [Hexp Hin']%list_elem_of_filter)%list_elem_of_fmap.
      rewrite <- list_fmap_compose in Hpaths.
      by rewrite (NoDup_fmap_elem_inj (path ∘ snd) _ kv kv' Hpaths Hin Hin' Heq).
    - intros Hexp. apply list_elem_of_fmap. exists kv. split; [done|].
      by apply list_elem_of_filter. }
  assert (NoDup (memories (index_file st')).*1) as Hids'.
  { rewrite Hm. by apply NoDup_fst_filter. }
  exists st'. split; [exact Hrun|]. split; [|split; [|split; [|exact Hl']]].
  - intros id e Hin. rewrite Hf, lookup_foldl_delete.
    destruct (expired now (files st) (id, e)) eqn:Hexp.
    + rewrite decide_True by (by apply (Hgone2 (id, e))). split; [done|].
      apply dict_get_None. rewrite Hm.
      intros ([id' e'] & Heq & [Hne Hin']%list_elem_of_filter)%list_elem_of_fmap.
      simpl in *. subst id'. apply Hne. by apply (Hgone1 (id, e)).
    + rewrite decide_False.
      2:{ intros Hp. apply (Hgone2 (id, e)) in Hp; [|done]. congruence. }
      split; [done|]. apply dict_get_elem; [done|]. rewrite Hm.
      apply list_elem_of_filter. split; [|done]. simpl.
      intros Hp. apply (Hgone1 (id, e)) in Hp; [|done]. congruence.
  - intros id e Hget. apply dict_get_Some_elem in Hget. rewrite Hm in Hget.
    apply list_elem_of_filter in Hget as [Hne Hin]. split; [done|].
    rewrite Hf, lookup_foldl_delete. rewrite decide_False.
    + destruct (Hfiles id e Hin) as (m & -> & _). by eexists.
    + intros Hp. apply (Hgone2 (id, e)) in Hp; [|done].
      apply Hne. by apply (Hgone1 (id, e)).
  - intros id e m Hin Hfm. unfold expired. simpl. rewrite Hfm. split.
    + destruct (dict_get "expires_at" m) as [[]|]; try done. by eexists.
    + by intros (s & -> & ->).
Qed.

Lemma cleanup_expired_removes_strictly_expired_witness :
  ∃ st',
    cleanup_expired false noon expiring_records =
      Returns (length (filter (λ kv, expired noon (files expiring_records) kv = true)
                         (memories (index_file expiring_records)))) st'
    ∧ (∀ id e, (id, e) ∈ memories (index_file expiring_records) →
         if expired noon (files expiring_records) (id, e)
         then files st' !! path e = None
              ∧ dict_get id (memories (index_file st')) = None
         else files st' !! path e = files expiring_records !! path e
              ∧ dict_get id (memories (index_file st')) = Some e)
    ∧ (∀ id e, dict_get id (memories (index_file st')) = Some e →
         (id, e) ∈ memories (index_file expiring_records)
         ∧ ∃ m, files st' !! path e = Some (Stored m))
    ∧ (∀ id e m, (id, e) ∈ memories (index_file expiring_records) →
         files expiring_records !! path e = Some (Stored m) →
         (expired noon (files expiring_records) (id, e) = true ↔
          ∃ s, dict_get "expires_at" m = Some (VStr s) ∧ String.ltb s noon = true))
    ∧ locks st' = [].
Proof.
  apply (cleanup_expired_removes_strictly_expired false noon expiring_records).
  - reflexivity.
  - split; [|split].
    + apply (bool_decide_unpack (NoDup _)). vm_compute. exact I.
    + apply (bool_decide_unpack (NoDup _)). vm_compute. exact I.
    + intros id e [[= -> ->]|[[= -> ->]|[]%elem_of_nil]%elem_of_cons]%elem_of_cons.
      * eexists. split; [reflexivity|]. intros x [= <-]. by eexists.
      * eexists. split; [reflexivity|]. intros x [= <-]. by eexists.
Defined.

End CascadeMemoryFacts.

(** ** The lock: waiting without a bound *)

Module FileLockFacts.
Import FileLock CascadeMemory Examples.

Lemma acquire_from_default_timeout lock_file busy i polls :
  acquire_from (make lock_file) busy i polls =
    match polls with
    | O => Waiting
    | S polls' =>
        if busy i then acquire_from (make lock_file) busy (S i) polls' else Acquired i
    end.
Proof.
  destruct polls as [|polls]; [done|]. cbn [acquire_from].
  destruct (busy i); [|done]. cbn [negb].
  rewrite bool_decide_eq_false_2; [done|]. cbn [make timeout]. unfold default_timeout. lia.
Qed.

Lemma acquire_from_first_free lock_file busy i k polls :
  busy (i + k)%nat = false →
  (∀ j, (j < k)%nat → busy (i + j)%nat = true) →
  (k < polls)%nat →
  acquire_from (make lock_file) busy i polls = Acquired (i + k)%nat.
Proof.
  revert i polls. induction k as [|k IH]; intros i polls Hfree Hbusy Hk;
    rewrite acquire_from_default_timeout; destruct polls as [|polls]; try lia.
  - rewrite Nat.add_0_r in Hfree. by rewrite Hfree, Nat.add_0_r.
  - rewrite <- (Nat.add_0_r i) at 1. rewrite (Hbusy 0%nat) by lia.
    replace (i + S k)%nat with (S i + k)%nat by lia. apply IH.
    + by replace (S i + k)%nat with (i + S k)%nat by lia.
    + intros j Hj. replace (S i + j)%nat with (i + S j)%nat by lia. apply Hbusy. lia.
    + lia.
Qed.

Lemma acquire_from_never_times_out lock_file busy i polls j :
  acquire_from (make lock_file) busy i polls ≠ Timeout j.
Proof.
  revert i. induction polls as [|polls IH]; intros i;
    rewrite acquire_from_default_timeout; [done|].
  destruct (busy i); [apply IH|done].
Qed.

Lemma acquire_from_keeps_waiting lock_file busy i polls :
  (∀ j, busy j = true) →
  acquire_from (make lock_file) busy i polls = Waiting.
Proof.
  intros Hbusy. revert i. induction polls as [|polls IH]; intros i;
    rewrite acquire_from_default_timeout; [done|].
  rewrite Hbusy. apply IH.
Qed.

(** C4 as the specification states it fails: while another process keeps
    the lock file, the caller is still waiting after any number of polls;
    no timeout ends the wait. *)
Lemma acquire_lock_waits_forever_counterexample :
  _acquire_lock_polling "index" always_busy 1000 = Waiting
  ∧ ∀ polls, _acquire_lock_polling "index" always_busy polls = Waiting.
Proof.
  split; [by vm_compute|]. intros polls. by apply acquire_from_keeps_waiting.
Qed.

(** C4, as amended.  [_acquire_lock] takes the lock at the first poll at
    which no other holder has the lock file.  It gives [FileLock] no
    timeout: it never fails with a timeout error, and for as long as
    another holder keeps the lock file it goes on waiting. *)
Theorem acquire_lock_waits_without_bound (lock_id : string) (busy : nat → bool) :
  (∀ k polls,
     busy k = false → (∀ j, (j < k)%nat → busy j = true) → (k < polls)%nat →
     _acquire_lock_polling lock_id busy polls = Acquired k)
  ∧ (∀ polls j, _acquire_lock_polling lock_id busy polls ≠ Timeout j)
  ∧ ((∀ j, busy j = true) →
     ∀ polls, _acquire_lock_polling lock_id busy polls = Waiting).
Proof.
  split; [|split].
  - intros k polls Hfree Hbusy Hk.
    by apply (acquire_from_first_free _ busy 0 k polls).
  - intros polls j. apply acquire_from_never_times_out.
  - intros Hbusy polls. by apply acquire_from_keeps_waiting.
Qed.

Lemma acquire_lock_waits_without_bound_witness :
  _acquire_lock_polling "index" busy_twice 5 = Acquired 2.
Proof.
  apply (proj1 (acquire_lock_waits_without_bound "index" busy_twice) 2%nat 5%nat).
  - reflexivity.
  - intros j Hj. unfold busy_twice. by apply bool_decide_eq_true_2.
  - lia.
Defined.

End FileLockFacts.

(** ** CascadeSafety: recorded file states, old backups *)

Module CascadeSafetyFacts.
Import Py Exec CascadeSafety PyFacts Examples.

#[local] Arguments String.app : simpl never.

Section safety.
Variable sha256 : string → string.

Lemma safe_to_modify_untracked st file_path :
  safety st !! basename file_path = None →
  (safe_to_modify sha256 st file_path).1 = true.
Proof.
  intros Hs. unfold safe_to_modify. destruct (files st !! file_path); [|done].
  by rewrite Hs.
Qed.

Lemma safe_to_modify_tracked st file_path stat record :
  files st !! file_path = Some stat →
  safety st !! basename file_path = Some record →
  (safe_to_modify sha256 st file_path).1 = false ↔
  hash record ≠ sha256 (bytes stat) ∨ mtime record ≠ st_mtime stat.
Proof.
  intros Hf Hs. unfold safe_to_modify, _calculate_hash. rewrite Hf, Hs.
  destruct (decide (hash record = sha256 (bytes stat))) as [Hh|Hh].
  - rewrite bool_decide_eq_false_2 by (by intros ?).
    destruct (decide (mtime record = st_mtime stat)) as [Hm|Hm].
    + rewrite bool_decide_eq_false_2 by (by intros ?). simpl. split; [done|].
      by intros [?|?].
    + rewrite bool_decide_eq_true_2 by done. simpl. split; [by right|done].
  - rewrite bool_decide_eq_true_2 by done. simpl. split; [by left|done].
Qed.

Lemma safe_to_modify_recorded now st file_path :
  (safe_to_modify sha256 (record_file_state sha256 now file_path st) file_path).1 = true.
Proof.
  unfold record_file_state. destruct (files st !! file_path) as [stat|] eqn:Hf.
  - unfold safe_to_modify, _calculate_hash. simpl. rewrite Hf, lookup_insert_eq. simpl.
    by rewrite !bool_decide_eq_false_2 by (by intros ?).
  - unfold safe_to_modify. by rewrite Hf.
Qed.

End safety.

#[local] Instance flip_le_trans : Transitive (flip String.le).
Proof. intros a b c Hab Hbc. unfold flip in *. by etrans. Qed.

#[local] Instance flip_le_total : Total (flip String.le).
Proof. intros a b. unfold flip. destruct (total String.le a b); auto. Qed.

#[local] Instance flip_le_antisym : AntiSymm (=) (flip String.le).
Proof. intros a b Hab Hba. unfold flip in *. by apply (anti_symm String.le). Qed.

Lemma sorted_of_sorted {A} (R : relation A)
    `{!RelDecision R, !Transitive R, !Total R, !AntiSymm (=) R} (l : list A) :
  StronglySorted R l → sorted R l = l.
Proof.
  intros Hs. apply (StronglySorted_unique R);
    [apply StronglySorted_sorted; apply _|done|apply sorted_Permutation].
Qed.

Lemma StronglySorted_take {A} (R : relation A) n (l : list A) :
  StronglySorted R l → StronglySorted R (take n l).
Proof.
  intros Hs. rewrite <- (take_drop n l) in Hs. by apply StronglySorted_app_1_l in Hs.
Qed.

Lemma listed_backups_elem st item :
  item ∈ listed_backups st ↔
  backup_dir st !! item = Some true ∧ startswith "cascade_backup_" item = true.
Proof.
  unfold listed_backups. rewrite sorted_Permutation, list_elem_of_filter. split.
  - by intros [? _].
  - intros [Hd Hs]. split; [done|]. apply list_elem_of_fmap. exists (item, true).
    split; [done|]. by apply elem_of_map_to_list.
Qed.

Lemma listed_backups_NoDup st : NoDup (listed_backups st).
Proof.
  unfold listed_backups. rewrite sorted_Permutation.
  apply NoDup_filter, NoDup_fst_map_to_list.
Qed.

Lemma listed_backups_sorted st : StronglySorted (flip String.le) (listed_backups st).
Proof. apply StronglySorted_sorted; apply _. Qed.

(** The loop of [cleanup_old_backups]: an entry goes when it is in the
    list and its removal is not refused, whatever happens to the others. *)
Lemma foldl_remove_backup l : ∀ st,
  undeletable (foldl remove_backup st l) = undeletable st ∧
  ∀ item, backup_dir (foldl remove_backup st l) !! item =
          if decide (item ∈ l ∧ item ∉ undeletable st) then None
          else backup_dir st !! item.
Proof.
  induction l as [|x l IH]; intros st.
  - split; [done|]. intros item. rewrite decide_False; [done|].
    intros [[]%elem_of_nil _].
  - cbn [foldl]. destruct (IH (remove_backup st x)) as [Hu Hd].
    assert (undeletable (remove_backup st x) = undeletable st) as Hux.
    { unfold remove_backup. by destruct (bool_decide _). }
    split; [by rewrite Hu|]. intros item. rewrite Hd, Hux.
    unfold remove_backup. destruct (bool_decide (x ∈ undeletable st)) eqn:Hx; simpl.
    + apply bool_decide_eq_true in Hx.
      destruct (decide (item ∈ l ∧ item ∉ undeletable st)) as [[Hin Hfree]|Hno].
      * rewrite decide_True; [done|]. split; [by right|done].
      * rewrite decide_False; [done|].
        intros [[->|Hin]%elem_of_cons Hfree]; [done|]. by apply Hno.
    + apply bool_decide_eq_false in Hx.
      destruct (decide (item ∈ l ∧ item ∉ undeletable st)) as [[Hin Hfree]|Hno].
      * rewrite decide_True; [done|]. split; [by right|done].
      * destruct (decide (item = x)) as [->|Hne].
        -- rewrite lookup_delete_eq. rewrite decide_True; [done|]. split; [left|done].
        -- rewrite lookup_delete_ne by done. rewrite decide_False; [done|].
           intros [[->|Hin]%elem_of_cons Hfree]; [done|]. by apply Hno.
Qed.

(** C6 as the specification states it fails on a tracked file that has
    been deleted: a record exists, the hash [_calculate_hash] gives for
    the path is not the recorded one, and the answer is still "safe". *)
Lemma safe_to_modify_deleted_file_counterexample :
  safe_to_modify digest deleted_tracked "work/notes.txt" = (true, "File does not exist")
  ∧ hash <$> safety deleted_tracked !! basename "work/notes.txt" = Some (digest "draft")
  ∧ _calculate_hash digest deleted_tracked "work/notes.txt" = "".
Proof. repeat split. Qed.

(** C6, as amended.  [safe_to_modify] answers "safe" when there is no
    file at the path, and when no safety record is kept under the base
    name of the path.  When the file is there and a record exists, it
    answers "unsafe" exactly when the hash of the file's bytes or its
    modification time differs from the recorded one: after
    [record_file_state] the answer is "safe", after the file is then
    changed from outside it is "unsafe", and after [record_file_state] is
    called again it is "safe" again. *)
Theorem safe_to_modify_follows_recorded_state
    (sha256 : string → string) (st : CascadeSafety.state) (file_path : string) :
  (files st !! file_path = None → (safe_to_modify sha256 st file_path).1 = true)
  ∧ (safety st !! basename file_path = None →
     (safe_to_modify sha256 st file_path).1 = true)
  ∧ (∀ stat record,
       files st !! file_path = Some stat →
       safety st !! basename file_path = Some record →
       (safe_to_modify sha256 st file_path).1 = false ↔
       hash record ≠ sha256 (bytes stat) ∨ mtime record ≠ st_mtime stat)
  ∧ (∀ now later stat changed,
       files st !! file_path = Some stat →
       sha256 (bytes changed) ≠ sha256 (bytes stat) ∨ st_mtime changed ≠ st_mtime stat →
       let recorded := record_file_state sha256 now file_path st in
       let tampered := external_write file_path changed recorded in
       (safe_to_modify sha256 recorded file_path).1 = true
       ∧ (safe_to_modify sha256 tampered file_path).1 = false
       ∧ (safe_to_modify sha256
            (record_file_state sha256 later file_path tampered) file_path).1 = true).
Proof.
  split; [|split; [|split]].
  - intros Hf. unfold safe_to_modify. by rewrite Hf.
  - apply safe_to_modify_untracked.
  - intros stat record. apply safe_to_modify_tracked.
  - intros now later stat changed Hf Hdiff recorded tampered.
    split; [apply safe_to_modify_recorded|]. split; [|apply safe_to_modify_recorded].
    eapply safe_to_modify_tracked.
    + unfold tampered, external_write. simpl. apply lookup_insert_eq.
    + unfold tampered, external_write, recorded, record_file_state. rewrite Hf. simpl.
      apply lookup_insert_eq.
    + simpl. unfold _calculate_hash. rewrite Hf. destruct Hdiff as [H|H]; [left|right]; congruence.
Qed.

Lemma safe_to_modify_follows_recorded_state_witness :
  let changed := {| bytes := "final"; st_mtime := 1714561200 |} in
  let recorded := record_file_state digest "2024-05-01T10:00:00" "work/notes.txt" untracked in
  let tampered := external_write "work/notes.txt" changed recorded in
  (safe_to_modify digest recorded "work/notes.txt").1 = true
  ∧ (safe_to_modify digest tampered "work/notes.txt").1 = false
  ∧ (safe_to_modify digest
       (record_file_state digest "2024-05-01T11:00:00" "work/notes.txt" tampered)
       "work/notes.txt").1 = true.
Proof.
  apply (proj2 (proj2 (proj2
           (safe_to_modify_follows_recorded_state digest untracked "work/notes.txt")))
           "2024-05-01T10:00:00" "2024-05-01T11:00:00"
           {| bytes := "draft"; st_mtime := 1714557600 |}
           {| bytes := "final"; st_mtime := 1714561200 |}).
  - reflexivity.
  - right. simpl. lia.
Defined.

(** C9.  For a retention bound [keep_last >= 0], [cleanup_old_backups]
    sorts the snapshots (the directories named [cascade_backup_...]) by
    name, newest first, and removes all but the first [keep_last]: what it
    keeps is more recent than anything it removes; a snapshot whose removal
    is refused stays, and the others are removed all the same; when no
    removal is refused, exactly the [min m keep_last] most recent of the
    [m] snapshots remain. *)
Theorem cleanup_old_backups_keeps_most_recent (keep_last : Z) (st : CascadeSafety.state) :
  (0 ≤ keep_last)%Z →
  let snapshots := listed_backups st in
  let kept := take (Z.to_nat keep_last) snapshots in
  let old := drop (Z.to_nat keep_last) snapshots in
  let st' := cleanup_old_backups keep_last st in
  (∀ item, item ∈ snapshots ↔
           backup_dir st !! item = Some true
           ∧ startswith "cascade_backup_" item = true)
  ∧ (∀ k o, k ∈ kept → o ∈ old → String.le o k ∧ o ≠ k)
  ∧ (∀ item, backup_dir st' !! item =
             if decide (item ∈ old ∧ item ∉ undeletable st) then None
             else backup_dir st !! item)
  ∧ ((∀ o, o ∈ old → o ∉ undeletable st) →
     listed_backups st' = kept
     ∧ length (listed_backups st') = Nat.min (length snapshots) (Z.to_nat keep_last)).
Proof.
  intros Hk snapshots kept old st'.
  assert (st' = foldl remove_backup st old) as Hst'.
  { unfold st', cleanup_old_backups, slice_from.
    by rewrite (proj2 (Z.ltb_ge keep_last 0) Hk). }
  assert (snapshots = kept ++ old) as Hsplit by (symmetry; apply take_drop).
  pose proof (listed_backups_NoDup st) as Hnd. fold snapshots in Hnd.
  pose proof (listed_backups_sorted st) as Hsorted. fold snapshots in Hsorted.
  destruct (foldl_remove_backup old st) as [_ Hdir]. rewrite <- Hst' in Hdir.
  split; [intros item; apply listed_backups_elem|].
  split.
  { intros k o Hkin Hoin. rewrite Hsplit in Hsorted, Hnd. split.
    - by apply (StronglySorted_app_1_elem_of _ _ _ _ _ Hsorted Hkin Hoin).
    - intros ->. apply NoDup_app in Hnd as (_ & Hdisj & _). by apply (Hdisj k). }
  split; [exact Hdir|].
  intros Hfree.
  assert (listed_backups st' = kept) as Hkept.
  { apply (StronglySorted_unique (flip String.le)).
    - apply listed_backups_sorted.
    - by apply StronglySorted_take.
    - apply NoDup_Permutation.
      + apply listed_backups_NoDup.
      + rewrite Hsplit in Hnd. by apply NoDup_app in Hnd as (? & _).
      + intros item. rewrite listed_backups_elem, Hdir.
        rewrite Hsplit in Hnd. apply NoDup_app in Hnd as (_ & Hdisj & _).
        case_decide as Hold.
        * split; [by intros [? _]|]. intros Hin. exfalso.
          destruct Hold as [Hold _]. by apply (Hdisj item).
        * rewrite <- (listed_backups_elem st). fold snapshots.
          rewrite Hsplit, elem_of_app. split.
          -- intros [?|Hin]; [done|]. exfalso. apply Hold.
             split; [done|by apply Hfree].
          -- intros Hin. by left. }
  split; [exact Hkept|]. rewrite Hkept. unfold kept. rewrite length_take. lia.
Qed.

Lemma cleanup_old_backups_keeps_most_recent_witness :
  listed_backups (cleanup_old_backups 3 five_snapshots) =
    ["cascade_backup_20240505_000000";
     "cascade_backup_20240504_000000";
     "cascade_backup_20240503_000000"]
  ∧ length (listed_backups (cleanup_old_backups 3 five_snapshots)) =
      Nat.min (length (listed_backups five_snapshots)) (Z.to_nat 3).
Proof.
  apply (proj2 (proj2 (proj2
           (cleanup_old_backups_keeps_most_recent 3 five_snapshots ltac:(lia))))).
  intros o _. apply not_elem_of_empty.
Defined.

End CascadeSafetyFacts.

(** ** CascadeCore: saving, snapshots and what a load leaves behind *)

Module CascadeCoreBehaviour.
Import Py Json Exec CascadeCore PyFacts JsonFacts ExecFacts CascadeCoreFacts Examples Scenarios.

#[local] Arguments _hash_dict : simpl never.
#[local] Arguments String.app : simpl never.

Lemma rev_app_append s1 s2 acc :
  String.rev_app (s1 +:+ s2) acc = String.rev_app s2 (String.rev_app s1 acc).
Proof. revert acc. induction s1 as [|a s1 IH]; intros acc; [done|]. apply IH. Qed.

Lemma append_assoc_cons r a acc : (r +:+ String a "") +:+ acc = r +:+ String a acc.
Proof.
  induction r as [|b r IH]; [done|].
  change (String b ((r +:+ String a "") +:+ acc) = String b (r +:+ String a acc)).
  by rewrite IH.
Qed.

Lemma rev_app_acc s acc : String.rev_app s acc = String.rev s +:+ acc.
Proof.
  unfold String.rev. revert acc. induction s as [|a s IH]; intros acc; [done|].
  cbn [String.rev_app]. rewrite IH, (IH (String a "")). by rewrite append_assoc_cons.
Qed.

Lemma startswith_app p s : startswith p (p +:+ s) = true.
Proof.
  induction p as [|a p IH]; [done|].
  change (bool_decide (a = a) && startswith p (p +:+ s) = true).
  by rewrite IH, bool_decide_eq_true_2.
Qed.

Lemma endswith_app s suffix : endswith (s +:+ suffix) suffix = true.
Proof.
  unfold endswith.
  assert (String.rev (s +:+ suffix) = String.rev suffix +:+ String.rev s) as ->.
  { unfold String.rev at 1. rewrite rev_app_append. apply rev_app_acc. }
  apply startswith_app.
Qed.

(** [_quick_backup] always returns; it touches nothing but the backup
    directory of [name]. *)
Lemma quick_backup_returns name stamp st :
  ∃ st1, _quick_backup name stamp st = Returns () st1
         ∧ data st1 = data st ∧ locks st1 = locks st ∧ log st1 = log st
         ∧ ∀ other, other ≠ name → backups st1 !! other = backups st !! other.
Proof.
  unfold _quick_backup. exec_by idtac.
  destruct (data st !! name) as [f|]; simpl.
  - eexists. split; [done|]. simpl. repeat split; try done.
    intros other Hne. by rewrite lookup_insert_ne.
  - by eexists.
Qed.

(** The store [_quick_backup] leaves when the memory has a live file. *)
Lemma quick_backup_outcome name stamp st f :
  data st !! name = Some f →
  let dir := <[stamp +:+ ".json" := f]> (default ∅ (backups st !! name)) in
  let names := backup_names dir in
  _quick_backup name stamp st =
    Returns ()
      (set_backups
         <[name := foldl (λ d o, delete o d) dir (take (length names - 3) names)]> st).
Proof. intros Hf. unfold _quick_backup. exec_by ltac:(rewrite ?Hf). done. Qed.

Section core.
Variable sha256 : string → string.
Variable reentrant : bool.

(** The record [save_memory] writes. *)
Lemma save_memory_outcome name content stamp now st st1 :
  name ∉ locks st ∨ reentrant = true →
  _quick_backup name stamp st = Returns () st1 →
  data st1 = data st → locks st1 = locks st → log st1 = log st →
  save_memory sha256 reentrant name content stamp now st =
    match _hash_dict sha256 content with
    | Some h =>
        Returns true
          (set_data <[name := Parsed (VDict [("content", loaded content);
                                             ("updated_at", VStr now);
                                             ("hash", VStr h)])]> st1)
    | None =>
        Returns false
          (add_log (LogError ("Failed to save memory " +:+ name) TypeError)
             (set_data <[name := Unparsable]> st1))
    end.
Proof.
  intros Hl Hq Hd Hlk Hlg. destruct st1 as [dt1 bk1 lk1 lg1]. simpl in *. subst.
  assert (bool_decide (name ∈ locks st) && negb reentrant = false) as Hfree.
  { destruct Hl as [Hl| ->]; [|by rewrite andb_false_r].
    by rewrite bool_decide_eq_false_2. }
  unfold save_memory, save_memory_try, save_memory_except.
  exec_by ltac:(rewrite ?Hq, ?Hfree). 
  destruct (_hash_dict sha256 content) as [h|]; simpl;
    rewrite decide_True by done; unfold set_data; simpl; [|done].
  by rewrite insert_insert_eq.
Qed.

Lemma last_drop {A} (l : list A) n : (n < length l)%nat → last (drop n l) = last l.
Proof.
  revert n. induction l as [|x l IH]; intros n Hn; [simpl in Hn; lia|].
  destruct n as [|n]; [done|]. simpl in Hn. cbn [drop]. rewrite IH by lia.
  destruct l; [simpl in Hn; lia|done].
Qed.

(** After [_quick_backup] with a clock reading that sorts last, the live
    file is the newest snapshot. *)
Lemma quick_backup_newest name stamp st f :
  data st !! name = Some f →
  (∀ k, is_Some (default ∅ (backups st !! name) !! k) → endswith k ".json" = true →
        String.le k (stamp +:+ ".json")) →
  ∃ st1 dir',
    _quick_backup name stamp st = Returns () st1
    ∧ data st1 = data st ∧ locks st1 = locks st ∧ log st1 = log st
    ∧ backups st1 !! name = Some dir'
    ∧ last (backup_names dir') = Some (stamp +:+ ".json")
    ∧ dir' !! (stamp +:+ ".json") = Some f.
Proof.
  intros Hf Hmax.
  destruct (quick_backup_keeps_last_three name stamp st f Hf)
    as (st1 & dir' & Hrun & Hd & Hb & Hnames & Hsame).
  destruct (quick_backup_returns name stamp st) as (st1' & Hrun' & _ & Hlk & Hlg & _).
  rewrite Hrun in Hrun'. injection Hrun' as <-.
  set (dir := <[stamp +:+ ".json" := f]> (default ∅ (backups st !! name))) in *.
  assert (last (backup_names dir) = Some (stamp +:+ ".json")) as Hlast.
  { apply latest_backup_greatest. split; [|split].
    - unfold dir. rewrite lookup_insert_eq. by eexists.
    - apply endswith_app.
    - intros k Hk He. unfold dir in Hk.
      destruct (decide (k = stamp +:+ ".json")) as [->|Hne]; [done|].
      rewrite lookup_insert_ne in Hk by done. by apply Hmax. }
  assert (last (backup_names dir') = Some (stamp +:+ ".json")) as Hlast'.
  { rewrite Hnames, last_drop; [done|].
    destruct (backup_names dir); [done|simpl; lia]. }
  exists st1, dir'. repeat split; try done.
  rewrite Hsame.
  - unfold dir. apply lookup_insert_eq.
  - apply last_Some in Hlast' as [l' ->]. apply elem_of_app. right. left.
Qed.

(** X1.  For a memory whose name is a file name, saving a content that
    [json] can serialise and loading it again gives the content back as
    [json] reads it, when the keys of its dicts are strings: [save_memory]
    returns [True], and [load_memory] then returns the content with its
    tuples turned into lists, and leaves the store as the save left it.  A
    content that holds no tuple either comes back equal to what was saved
    (the [assert loaded == build_plan] of the example in the source). *)
Theorem save_then_load depth name content stamp now st :
  file_name name = true →
  is_Some (dumps content) →
  str_keyed content = true →
  name ∉ locks st ∨ reentrant = true →
  ∃ st',
    save_memory sha256 reentrant name content stamp now st = Returns true st'
    ∧ load_memory sha256 reentrant depth name st' = Returns (Some (loaded content)) st'
    ∧ (json_native content = true → loaded content = content)
    ∧ locks st' = locks st
    ∧ log st' = log st.
Proof.
  intros _ [text Htext] Hs Hl.
  destruct (quick_backup_returns name stamp st) as (st1 & Hq & Hd & Hlk & Hlg & _).
  rewrite (save_memory_outcome name content stamp now st st1 Hl Hq Hd Hlk Hlg).
  assert (_hash_dict sha256 content = Some (sha256 text)) as Hh.
  { unfold _hash_dict. by rewrite Htext. }
  rewrite Hh. eexists. split; [done|]. split; [|split; [apply loaded_native|done]].
  eapply load_memory_valid.
  - simpl. apply lookup_insert_eq.
  - eexists _, _. split; [reflexivity|]. split; [reflexivity|].
    split; [by rewrite hash_dict_loaded|reflexivity].
  - simpl. by rewrite Hlk.
Qed.

(** X2.  Saving a content that [json] cannot serialise returns [False]
    and leaves the live file empty: the file was opened for writing before
    the hash was computed.  A load then returns [None], the decoding error
    logged. *)
Theorem failed_save_empties_the_file depth name content stamp now st :
  dumps content = None →
  name ∉ locks st ∨ reentrant = true →
  ∃ st',
    save_memory sha256 reentrant name content stamp now st = Returns false st'
    ∧ data st' !! name = Some Unparsable
    ∧ log st' = LogError ("Failed to save memory " +:+ name) TypeError :: log st
    ∧ load_memory sha256 reentrant depth name st' =
        Returns None
          (add_log (LogError ("Failed to load memory " +:+ name) JSONDecodeError) st').
Proof.
  intros Hnone Hl.
  destruct (quick_backup_returns name stamp st) as (st1 & Hq & Hd & Hlk & Hlg & _).
  rewrite (save_memory_outcome name content stamp now st st1 Hl Hq Hd Hlk Hlg).
  assert (_hash_dict sha256 content = None) as Hh.
  { unfold _hash_dict. by rewrite Hnone. }
  rewrite Hh. eexists. split; [done|]. simpl.
  split; [apply lookup_insert_eq|]. split; [by rewrite Hlg|].
  assert (bool_decide (name ∈ locks st1) && negb reentrant = false) as Hfree.
  { rewrite Hlk. destruct Hl as [Hl| ->]; [|by rewrite andb_false_r].
    by rewrite bool_decide_eq_false_2. }
  destruct st1 as [dt1 bk1 lk1 lg1]. simpl in *.
  destruct depth; simpl; unfold load_memory_try, load_memory_except;
    exec_by ltac:(rewrite ?lookup_insert_eq, ?Hfree, ?decide_True by done); done.
Qed.

(** X3.  [save_memory] keeps the version it replaces: when the clock
    reading sorts after every snapshot of the memory, the file that was
    live before the save is the newest snapshot after it, and
    [_restore_backup] puts it back. *)
Theorem save_keeps_previous_version name content stamp now st f :
  data st !! name = Some f →
  (∀ k, is_Some (default ∅ (backups st !! name) !! k) → endswith k ".json" = true →
        String.le k (stamp +:+ ".json")) →
  name ∉ locks st ∨ reentrant = true →
  ∃ b st',
    save_memory sha256 reentrant name content stamp now st = Returns b st'
    ∧ _restore_backup name st' = Returns true (set_data <[name := f]> st').
Proof.
  intros Hf Hmax Hl.
  destruct (quick_backup_newest name stamp st f Hf Hmax)
    as (st1 & dir' & Hq & Hd & Hlk & Hlg & Hb & Hlast & Hsnap).
  rewrite (save_memory_outcome name content stamp now st st1 Hl Hq Hd Hlk Hlg).
  destruct (_hash_dict sha256 content) as [h|]; eexists _, _; (split; [done|]);
    unfold _restore_backup; exec_by ltac:(rewrite ?Hb, ?Hlast, ?Hsnap); done.
Qed.

(** X4.  A live file that cannot be read as a record (text that does not
    parse, a value that is not a dict, a dict without [content] or without
    [hash]) is not repaired from the snapshots: [load_memory] logs the
    exception and returns [None], files and snapshots as they were. *)
Theorem load_of_malformed_file_restores_nothing depth name st f e :
  data st !! name = Some f →
  name ∉ locks st ∨ reentrant = true →
  (f = Unparsable ∧ e = JSONDecodeError)
  ∨ (∃ v, f = Parsed v ∧ (∀ d, v ≠ VDict d) ∧ e = TypeError)
  ∨ (∃ d, f = Parsed (VDict d) ∧ dict_get "content" d = None ∧ e = KeyError "content")
  ∨ (∃ d c, f = Parsed (VDict d) ∧ dict_get "content" d = Some c
            ∧ is_Some (dumps c) ∧ dict_get "hash" d = None ∧ e = KeyError "hash") →
  load_memory sha256 reentrant depth name st =
    Returns None (add_log (LogError ("Failed to load memory " +:+ name) e) st).
Proof.
  intros Hf Hl Hcase. destruct st as [dt bk lk lg]. simpl in *.
  assert (bool_decide (name ∈ lk) && negb reentrant = false) as Hfree.
  { destruct Hl as [Hl| ->]; [|by rewrite andb_false_r].
    by rewrite bool_decide_eq_false_2. }
  destruct Hcase as [[-> ->]|[(v & -> & Hv & ->)|[(d & -> & Hc & ->)|(d & c & -> & Hc & [t Ht] & Hh & ->)]]].
  - destruct depth; simpl; unfold load_memory_try, load_memory_except;
      exec_by ltac:(rewrite ?Hf, ?Hfree, ?decide_True by done); done.
  - destruct depth; simpl; unfold load_memory_try, load_memory_except, subscript;
      exec_by ltac:(rewrite ?Hf, ?Hfree, ?decide_True by done);
      (destruct v; simpl; rewrite ?decide_True by done; try done; by destruct (Hv d)).
  - destruct depth; simpl; unfold load_memory_try, load_memory_except;
      exec_by ltac:(rewrite ?Hf, ?Hfree, ?Hc, ?decide_True by done); done.
  - assert (_hash_dict sha256 c = Some (sha256 t)) as Hhash.
    { unfold _hash_dict. by rewrite Ht. }
    destruct depth; simpl; unfold load_memory_try, load_memory_except;
      exec_by ltac:(rewrite ?Hf, ?Hfree, ?Hc, ?Hhash, ?Hh, ?decide_True by done); done.
Qed.

End core.


(** X6.  A snapshot taken under a clock reading that sorts before three
    snapshots already there is removed by the very call that takes it: the
    version being replaced is then in no snapshot. *)
Theorem quick_backup_drops_stale_snapshot name stamp st f k1 k2 k3 :
  data st !! name = Some f →
  let before := default ∅ (backups st !! name) in
  NoDup [k1; k2; k3] →
  (∀ k, k ∈ [k1; k2; k3] →
     is_Some (before !! k) ∧ endswith k ".json" = true
     ∧ String.le (stamp +:+ ".json") k ∧ k ≠ stamp +:+ ".json") →
  ∃ st1 dir',
    _quick_backup name stamp st = Returns () st1
    ∧ backups st1 !! name = Some dir'
    ∧ dir' !! (stamp +:+ ".json") = None.
Proof.
  intros Hf before Hdistinct Hnewer.
  pose proof (quick_backup_outcome name stamp st f Hf) as Hrun. cbv zeta in Hrun.
  fold before in Hrun.
  set (s := stamp +:+ ".json") in *.
  set (dir := <[s := f]> before) in *.
  set (names := backup_names dir) in *.
  set (old := take (length names - 3) names) in *.
  set (kept := drop (length names - 3) names).
  set (dir' := foldl (λ d o, delete o d) dir old) in *.
  assert (names = old ++ kept) as Hsplit by (symmetry; apply take_drop).
  pose proof (backup_names_NoDup dir) as Hnd. fold names in Hnd.
  pose proof (backup_names_sorted dir) as Hsorted. fold names in Hsorted.
  rewrite Hsplit in Hnd, Hsorted. apply NoDup_app in Hnd as (_ & Hdisj & Hnd).
  assert (s ∈ names) as Hs.
  { apply backup_names_elem. unfold dir. rewrite lookup_insert_eq.
    split; [by eexists|apply endswith_app]. }
  assert (∀ k, k ∈ [k1; k2; k3] → k ∈ names) as Hin.
  { intros k Hk. destruct (Hnewer k Hk) as (Hsome & He & _ & Hne).
    apply backup_names_elem. unfold dir. by rewrite lookup_insert_ne. }
  assert (s ∈ old) as Hsold.
  { rewrite Hsplit in Hs. apply elem_of_app in Hs as [?|Hskept]; [done|]. exfalso.
    assert (∀ k, k ∈ [k1; k2; k3] → k ∈ kept) as Hkept.
    { intros k Hk. pose proof (Hin k Hk) as Hk'. rewrite Hsplit in Hk'.
      apply elem_of_app in Hk' as [Hkold|?]; [|done]. exfalso.
      destruct (Hnewer k Hk) as (_ & _ & Hle & Hne). apply Hne.
      apply (anti_symm String.le); [|done].
      by apply (StronglySorted_app_1_elem_of _ _ _ _ _ Hsorted Hkold Hskept). }
    assert (s :: [k1; k2; k3] ⊆+ kept) as Hsub.
    { apply NoDup_submseteq.
      - apply NoDup_cons. split; [|done]. intros Hk.
        by destruct (Hnewer s Hk) as (_ & _ & _ & ?).
      - intros x [->|Hx]%elem_of_cons; [done|by apply Hkept]. }
    apply submseteq_length in Hsub. unfold kept in Hsub.
    rewrite length_drop in Hsub. simpl in Hsub. lia. }
  exists (set_backups <[name := dir']> st), dir'.
  split; [exact Hrun|]. split; [simpl; apply lookup_insert_eq|].
  unfold dir'. rewrite lookup_foldl_delete. by rewrite decide_True.
Qed.

(** X7.  For a memory whose name is a file name, [_restore_backup]
    returns [False] and changes nothing when the memory has no backup
    directory or the directory has no [.json] entry; otherwise it returns
    [True] and the live file of the memory becomes the [.json] entry with
    the greatest name.  Snapshots, locks and log are as they were, and so
    are the live files of the other file names. *)
Theorem restore_backup_outcome name st :
  file_name name = true →
  ∃ b st',
    _restore_backup name st = Returns b st'
    ∧ backups st' = backups st ∧ locks st' = locks st ∧ log st' = log st
    ∧ (∀ other, file_name other = true → other ≠ name →
         data st' !! other = data st !! other)
    ∧ if b then
        ∃ dir latest f,
          backups st !! name = Some dir ∧ dir !! latest = Some f
          ∧ endswith latest ".json" = true
          ∧ (∀ k, is_Some (dir !! k) → endswith k ".json" = true → String.le k latest)
          ∧ data st' !! name = Some f
      else
        st' = st
        ∧ ∀ dir k, backups st !! name = Some dir → is_Some (dir !! k) →
                   endswith k ".json" = false.
Proof.
  intros _. unfold _restore_backup. exec_by idtac.
  destruct (backups st !! name) as [dir|] eqn:Hb; simpl.
  - destruct (last (backup_names dir)) as [latest|] eqn:Hlast; simpl.
    + pose proof (proj1 (latest_backup_greatest dir latest) Hlast)
        as ([f Hf] & He & Hmax).
      rewrite Hf. simpl. exists true. eexists. split; [done|]. simpl.
      repeat split; try done.
      * intros other _ Hne. by rewrite lookup_insert_ne.
      * exists dir, latest, f. repeat split; try done. apply lookup_insert_eq.
    + exists false, st. repeat split; try done.
      intros dir0 k [= <-] Hk. apply last_None in Hlast.
      destruct (endswith k ".json") eqn:He; [|done]. exfalso.
      assert (k ∈ backup_names dir) as Hin by (by apply backup_names_elem).
      rewrite Hlast in Hin. by apply elem_of_nil in Hin.
  - exists false, st. repeat split; try done.
Qed.

Section retry.
Variable sha256 : string → string.

(** X9.  Where the lock file is not granted to a second [FileLock] object
    of the process that holds it, a load that fails validation never comes
    back: its nested call waits for the lock the outer call holds. *)
Theorem load_waits_for_its_own_lock depth name st f :
  data st !! name = Some f →
  mismatches sha256 f →
  name ∉ locks st →
  ∃ st', load_memory sha256 false (S depth) name st = Blocks st'.
Proof. apply load_memory_blocks. Qed.

(** X10.  For a memory whose name is a file name, a call of
    [load_memory] that comes back leaves the locks, the snapshots and the
    live files of the other file names as they were, and a call of
    [save_memory] the locks and, for every other file name, its live file
    and its snapshots.  Neither call raises: each catches every exception
    of its body. *)
Theorem core_calls_release_their_lock reentrant name st :
  file_name name = true →
  (∀ depth,
     match load_memory sha256 reentrant depth name st with
     | Returns _ st' =>
         locks st' = locks st ∧ backups st' = backups st
         ∧ ∀ other, file_name other = true → other ≠ name →
             data st' !! other = data st !! other
     | Raises _ _ => False
     | Blocks _ => True
     end)
  ∧ (∀ content stamp now,
       match save_memory sha256 reentrant name content stamp now st with
       | Returns _ st' =>
           locks st' = locks st
           ∧ ∀ other, file_name other = true → other ≠ name →
               data st' !! other = data st !! other
               ∧ backups st' !! other = backups st !! other
       | Raises _ _ => False
       | Blocks _ => True
       end).
Proof.
  intros _. split.
  - intros depth. revert st. induction depth as [|depth IH]; intros [dt bk lk lg].
    + simpl. unfold load_memory_try, _restore_backup, load_memory_except, json_load, subscript.
      exec_by idtac.
      repeat (case_match; simplify_eq/=; try done);
        rewrite ?decide_True by done; repeat split; try done;
        intros other _ Hne; by rewrite ?lookup_insert_ne.
    + change (load_memory sha256 reentrant (S depth) name) with
        (try_except (load_memory_try sha256 reentrant (load_memory sha256 reentrant depth name) name)
                    (load_memory_except name)).
      unfold load_memory_try, _restore_backup, load_memory_except, json_load, subscript.
      exec_by idtac.
      repeat (case_match; simplify_eq/=; try done);
        try (match goal with
             | H : load_memory _ _ _ _ ?s = _ |- _ =>
                 pose proof (IH s) as Hnested; rewrite H in Hnested;
                 simpl in Hnested; try done;
                 destruct Hnested as (Hs1 & Hs2 & Hs3); rewrite ?Hs1, ?Hs2; simpl
             end);
        rewrite ?decide_True by done; repeat split; try done;
        intros other Hfn Hne; rewrite ?Hs3 by done; simpl;
        by rewrite ?lookup_insert_ne.
  - intros content stamp now. destruct st as [dt bk lk lg].
    unfold save_memory, save_memory_try, save_memory_except, _quick_backup.
    exec_by idtac.
    repeat (case_match; simplify_eq/=; try done);
      rewrite ?decide_True by done; repeat split; try done;
      rewrite ?lookup_insert_ne by done; done.
Qed.

End retry.

Lemma save_then_load_witness :
  ∃ st',
    save_memory digest false "build_plan" source_build_plan
      "20240501_100000" "2024-05-01T10:00:00" empty_store = Returns true st'
    ∧ load_memory digest false 3 "build_plan" st'
        = Returns (Some (loaded source_build_plan)) st'
    ∧ (json_native source_build_plan = true → loaded source_build_plan = source_build_plan)
    ∧ locks st' = locks empty_store
    ∧ log st' = log empty_store.
Proof.
  apply (save_then_load digest false 3 "build_plan" source_build_plan
           "20240501_100000" "2024-05-01T10:00:00" empty_store).
  - reflexivity.
  - eexists. vm_compute. reflexivity.
  - reflexivity.
  - left. apply not_elem_of_nil.
Defined.

(** A content that holds a tuple does not come back as it was saved: the
    load returns the list [json] reads. *)
Lemma save_then_load_of_a_tuple :
  loaded with_tuple = with_list
  ∧ with_list ≠ with_tuple
  ∧ ∃ st',
      save_memory digest false "span" with_tuple
        "20240501_100000" "2024-05-01T10:00:00" empty_store = Returns true st'
      ∧ load_memory digest false 3 "span" st' = Returns (Some with_list) st'.
Proof.
  split; [done|]. split; [done|]. eexists. split; vm_compute; reflexivity.
Qed.

(** A content whose keys are ints does not come back at all when the order
    of the ints is not the order of their digits.  The hash recorded is that
    of the text with the keys in the order 2, 10; the file is read back with
    the keys ["2"] and ["10"], whose text has them in the order ["10"],
    ["2"].  The load finds a mismatch, and waits for its own lock.  With one
    key the hashes agree, and the load returns the dict with the key turned
    into a string. *)
Lemma save_then_load_of_int_keys :
  dumps with_int_keys ≠ dumps (loaded with_int_keys)
  ∧ (∃ st' st'',
       save_memory digest false "ports" with_int_keys
         "20240501_100000" "2024-05-01T10:00:00" empty_store = Returns true st'
       ∧ data st' !! "ports" =
           Some (Parsed (VDict [("content", with_digit_keys);
                                ("updated_at", VStr "2024-05-01T10:00:00");
                                ("hash", VStr (digest (default "" (dumps with_int_keys))))]))
       ∧ load_memory digest false 3 "ports" st' = Blocks st'')
  ∧ ∃ st',
      save_memory digest false "ports" (VIntDict [(1%Z, VStr "a")])
        "20240501_100000" "2024-05-01T10:00:00" empty_store = Returns true st'
      ∧ load_memory digest false 3 "ports" st' = Returns (Some (VDict [("1", VStr "a")])) st'.
Proof.
  split; [by vm_compute|]. split.
  - eexists _, _. split; [vm_compute; reflexivity|]. split; vm_compute; reflexivity.
  - eexists. split; vm_compute; reflexivity.
Qed.

Lemma restore_backup_outcome_witness :
  ∃ b st',
    _restore_backup "plan" tampered_store = Returns b st'
    ∧ backups st' = backups tampered_store ∧ locks st' = locks tampered_store
    ∧ log st' = log tampered_store
    ∧ (∀ other, file_name other = true → other ≠ "plan" →
         data st' !! other = data tampered_store !! other)
    ∧ if b then
        ∃ dir latest f,
          backups tampered_store !! "plan" = Some dir ∧ dir !! latest = Some f
          ∧ endswith latest ".json" = true
          ∧ (∀ k, is_Some (dir !! k) → endswith k ".json" = true → String.le k latest)
          ∧ data st' !! "plan" = Some f
      else
        st' = tampered_store
        ∧ ∀ dir k, backups tampered_store !! "plan" = Some dir → is_Some (dir !! k) →
                   endswith k ".json" = false.
Proof. apply (restore_backup_outcome "plan" tampered_store). reflexivity. Defined.

Lemma core_calls_release_their_lock_witness :
  (∀ depth,
     match load_memory digest false depth "plan" saved_once with
     | Returns _ st' =>
         locks st' = locks saved_once ∧ backups st' = backups saved_once
         ∧ ∀ other, file_name other = true → other ≠ "plan" →
             data st' !! other = data saved_once !! other
     | Raises _ _ => False
     | Blocks _ => True
     end)
  ∧ (∀ content stamp now,
       match save_memory digest false "plan" content stamp now saved_once with
       | Returns _ st' =>
           locks st' = locks saved_once
           ∧ ∀ other, file_name other = true → other ≠ "plan" →
               data st' !! other = data saved_once !! other
               ∧ backups st' !! other = backups saved_once !! other
       | Raises _ _ => False
       | Blocks _ => True
       end).
Proof. apply (core_calls_release_their_lock digest false "plan" saved_once). reflexivity. Defined.

Lemma failed_save_empties_the_file_witness :
  ∃ st',
    save_memory digest false "plan" with_datetime
      "20240501_100000" "2024-05-01T10:00:00" saved_once = Returns false st'
    ∧ data st' !! "plan" = Some Unparsable
    ∧ log st' = LogError ("Failed to save memory " +:+ "plan") TypeError :: log saved_once
    ∧ load_memory digest false 3 "plan" st' =
        Returns None
          (add_log (LogError ("Failed to load memory " +:+ "plan") JSONDecodeError) st').
Proof.
  apply (failed_save_empties_the_file digest false 3 "plan" with_datetime
           "20240501_100000" "2024-05-01T10:00:00" saved_once).
  - reflexivity.
  - left. apply not_elem_of_nil.
Defined.

Lemma save_keeps_previous_version_witness :
  ∃ b st',
    save_memory digest false "plan" plan2
      "20240501_100000" "2024-05-01T10:00:00" saved_once = Returns b st'
    ∧ _restore_backup "plan" st' =
        Returns true
          (set_data <["plan" := stored plan1 "2024-05-01T09:00:00"]> st').
Proof.
  apply (save_keeps_previous_version digest false "plan" plan2
           "20240501_100000" "2024-05-01T10:00:00" saved_once).
  - reflexivity.
  - intros k [x Hk] _. simpl in Hk. by rewrite lookup_empty in Hk.
  - left. apply not_elem_of_nil.
Defined.


Lemma quick_backup_drops_stale_snapshot_witness :
  ∃ st1 dir',
    _quick_backup "plan" "20240101_000000" saved_in_june = Returns () st1
    ∧ backups st1 !! "plan" = Some dir'
    ∧ dir' !! ("20240101_000000" +:+ ".json") = None.
Proof.
  apply (quick_backup_drops_stale_snapshot "plan" "20240101_000000" saved_in_june
           (stored plan1 "2024-06-04T00:00:00")
           "20240601_000000.json" "20240602_000000.json" "20240603_000000.json").
  - reflexivity.
  - apply (bool_decide_unpack (NoDup _)). vm_compute. exact I.
  - intros k [->|[->|[->|[]%elem_of_nil]%elem_of_cons]%elem_of_cons]%elem_of_cons;
      (split; [by eexists|]; split; [reflexivity|]; split; [vm_compute; exact I|done]).
Defined.

Lemma load_of_malformed_file_restores_nothing_witness :
  load_memory digest false 3 "plan" garbled_store =
    Returns None
      (add_log (LogError ("Failed to load memory " +:+ "plan") JSONDecodeError)
               garbled_store).
Proof.
  apply (load_of_malformed_file_restores_nothing digest false 3 "plan" garbled_store
           Unparsable JSONDecodeError).
  - reflexivity.
  - left. apply not_elem_of_nil.
  - by left.
Defined.

Lemma load_waits_for_its_own_lock_witness :
  ∃ st', load_memory digest false 1 "plan" tampered_store = Blocks st'.
Proof.
  apply (load_waits_for_its_own_lock digest 0 "plan" tampered_store tampered).
  - reflexivity.
  - eexists _, _, _, _. split; [reflexivity|]. split; [reflexivity|].
    split; [reflexivity|]. split; reflexivity.
  - apply not_elem_of_nil.
Defined.

End CascadeCoreBehaviour.

(** ** CascadeMemory: errors, frames and how the operations compose *)

Module CascadeMemoryBehaviour.
Import Py Json Exec CascadeMemory PyFacts JsonFacts ExecFacts CascadeMemoryFacts Examples Scenarios.

#[local] Arguments String.app : simpl never.
#[local] Arguments dumps : simpl never.
#[local] Arguments loaded_dict : simpl never.

Lemma dict_set_absent {V} k (v : V) (d : list (string * V)) :
  dict_get k d = None → dict_set k v d = d ++ [(k, v)].
Proof.
  induction d as [|[k' v'] d IH]; simpl; [done|].
  destruct (decide (k = k')); [done|]. intros H. by rewrite IH.
Qed.

Lemma for_each_app {S A B} (body : A → B → M S B) l1 l2 acc st :
  for_each body (l1 ++ l2) acc st =
    match for_each body l1 acc st with
    | Returns acc' st' => for_each body l2 acc' st'
    | Raises e st' => Raises e st'
    | Blocks st' => Blocks st'
    end.
Proof.
  revert acc st. induction l1 as [|x l1 IH]; intros acc st; [done|].
  cbn [app for_each]. unfold mbind, M_bind, bind.
  destruct (body x acc st); [apply IH|done..].
Qed.

Section memory.
Variable schema_accepts : dict → bool.
Variable reentrant : bool.

(** X11.  A record that the schema rejects is never written: [create_memory]
    and [update_memory] raise "Invalid memory format" and leave record
    files, index and locks as they were. *)
Theorem rejected_record_is_not_written st :
  locks st = [] →
  (∀ memory_id now memory_type content critique,
     schema_accepts (created memory_id now memory_type content critique) = false →
     create_memory schema_accepts reentrant memory_id now memory_type content critique st
       = Raises invalid_format st)
  ∧ (∀ now memory_id content critique entry memory v v',
       dict_get memory_id (memories (index_file st)) = Some entry →
       files st !! path entry = Some (Stored memory) →
       dict_get "version" memory = Some v →
       add_one v = Some v' →
       schema_accepts (updated now content critique v' memory) = false →
       update_memory schema_accepts reentrant now memory_id content critique st
         = Raises invalid_format st).
Proof.
  intros Hl. split.
  - intros memory_id now memory_type content critique Hno.
    rewrite create_memory_step by done. by rewrite Hno.
  - intros now memory_id content critique entry memory v v' Hi Hf Hv Hv' Hno.
    rewrite (update_memory_step schema_accepts reentrant now memory_id content critique
               st entry memory v v' Hl Hi Hf Hv Hv').
    by rewrite Hno.
Qed.

(** X12.  [update_memory] on a record of the index whose file cannot be
    used raises and writes nothing: [FileNotFoundError] when the record
    file is missing, [JSONDecodeError] when it does not parse, [KeyError]
    when the record has no [version], [TypeError] when the version is not a
    number. *)
Theorem update_of_unusable_record_raises now memory_id content critique st entry :
  locks st = [] →
  dict_get memory_id (memories (index_file st)) = Some entry →
  match files st !! path entry with
  | None =>
      update_memory schema_accepts reentrant now memory_id content critique st
        = Raises (FileNotFoundError (path entry)) st
  | Some Truncated =>
      update_memory schema_accepts reentrant now memory_id content critique st
        = Raises JSONDecodeError st
  | Some (Stored memory) =>
      match dict_get "version" memory with
      | None =>
          update_memory schema_accepts reentrant now memory_id content critique st
            = Raises (KeyError "version") st
      | Some v =>
          add_one v = None →
          update_memory schema_accepts reentrant now memory_id content critique st
            = Raises TypeError st
      end
  end.
Proof.
  intros Hl Hi. destruct st as [idx fs lk]. simpl in *. subst lk.
  destruct (fs !! path entry) as [[|memory]|] eqn:Hf.
  - unfold update_memory, _acquire_lock, _release_lock, _validate_memory,
      read_index, read_file, write_file, write_index.
    exec_by ltac:(rewrite ?Hi, ?Hf, ?andb_false_r, ?decide_True by done).
    rewrite (bool_decide_eq_true_2 (memory_id ∈ [memory_id])) by left.
    simpl. by rewrite decide_True.
  - assert (dict_get "version"
              (dict_set "updated_at" (VStr now) (dict_set "content" content memory))
            = dict_get "version" memory) as Hv2.
    { by rewrite !dict_get_set_ne by done. }
    destruct (dict_get "version" memory) as [v|] eqn:Hv.
    + intros Hbad.
      unfold update_memory, _acquire_lock, _release_lock, _validate_memory,
        read_index, read_file, write_file, write_index.
      exec_by ltac:(rewrite ?Hi, ?Hf, ?Hv2, ?Hbad, ?andb_false_r, ?decide_True by done).
      rewrite (bool_decide_eq_true_2 (memory_id ∈ [memory_id])) by left.
      simpl. by rewrite decide_True.
    + unfold update_memory, _acquire_lock, _release_lock, _validate_memory,
        read_index, read_file, write_file, write_index.
      exec_by ltac:(rewrite ?Hi, ?Hf, ?Hv2, ?andb_false_r, ?decide_True by done).
      rewrite (bool_decide_eq_true_2 (memory_id ∈ [memory_id])) by left.
      simpl. by rewrite decide_True.
  - unfold update_memory, _acquire_lock, _release_lock, _validate_memory,
      read_index, read_file, write_file, write_index.
    exec_by ltac:(rewrite ?Hi, ?Hf, ?andb_false_r, ?decide_True by done).
    rewrite (bool_decide_eq_true_2 (memory_id ∈ [memory_id])) by left.
    simpl. by rewrite decide_True.
Qed.

(** The record cannot be written when its content cannot. *)
Lemma unserialisable_item k v (d : dict) :
  (k, v) ∈ d → dumps v = None → dumps (VDict d) = None.
Proof.
  intros Hin Hv. destruct (dumps (VDict d)) as [text|] eqn:Hd; [|done]. exfalso.
  assert (is_Some (dumps (VDict d))) as Hs by (by eexists).
  apply dumps_dict_Some in Hs. rewrite Forall_forall in Hs.
  destruct (Hs _ Hin) as [x Hx]. simpl in Hx. congruence.
Qed.

Lemma elem_of_dict_set {V} k (v : V) (d : list (string * V)) : (k, v) ∈ dict_set k v d.
Proof.
  induction d as [|[k' v'] d IH]; simpl; [left|].
  destruct (decide (k = k')) as [->|]; [left|by right].
Qed.

Lemma elem_of_dict_set_ne {V} k k' (v v' : V) (d : list (string * V)) :
  k ≠ k' → (k, v) ∈ d → (k, v) ∈ dict_set k' v' d.
Proof.
  intros Hne. induction d as [|[k0 v0] d IH]; simpl; [by intros ?%elem_of_nil|].
  intros [[= <- <-]|Hin]%elem_of_cons.
  - rewrite decide_False by done. left.
  - destruct (decide (k' = k0)); right; [done|by apply IH].
Qed.

Lemma updated_unserialisable now content critique v memory :
  dumps content = None → dumps (VDict (updated now content critique v memory)) = None.
Proof.
  intros Hc. apply (unserialisable_item "content" content); [|done].
  unfold updated. destruct (truthy critique);
    repeat (apply elem_of_dict_set_ne; [done|]); apply elem_of_dict_set.
Qed.

Lemma created_unserialisable memory_id now memory_type content critique :
  dumps content = None →
  dumps (VDict (created memory_id now memory_type content critique)) = None.
Proof.
  intros Hc. apply (unserialisable_item "content" content); [|done].
  unfold created. right. right. left.
Qed.

(** X13.  [update_memory] with a content and a critique that [json] can
    serialise replaces the critique only by a critique that is true as a
    condition: a non-empty critique is stored, while [None] or an empty dict
    leaves the stored critique as it was; the content is the new content
    either way, both as [json] reads them back.  With a content [json]
    cannot serialise the call raises [TypeError] and the record file is
    left without a record: critique and content are both lost. *)
Theorem update_stores_a_given_critique now memory_id content critique st entry memory v v' :
  locks st = [] →
  dict_get memory_id (memories (index_file st)) = Some entry →
  files st !! path entry = Some (Stored memory) →
  json_native (VDict memory) = true →
  dict_get "version" memory = Some v →
  add_one v = Some v' →
  schema_accepts (updated now content critique v' memory) = true →
  is_Some (dumps content) →
  is_Some (dumps critique) →
  (∃ st' memory',
     update_memory schema_accepts reentrant now memory_id content critique st
       = Returns true st'
     ∧ get_memory memory_id st' = Returns memory' st'
     ∧ dict_get "critique" memory' =
         (if truthy critique then Some (loaded critique) else dict_get "critique" memory)
     ∧ dict_get "content" memory' = Some (loaded content)
     ∧ (json_native content = true → loaded content = content)
     ∧ (json_native critique = true → loaded critique = critique)
     ∧ ∀ k, k ≠ "content" → k ≠ "updated_at" → k ≠ "version" → k ≠ "critique" →
            dict_get k memory' = dict_get k memory)
  ∧ (∀ content',
       dumps content' = None →
       schema_accepts (updated now content' critique v' memory) = true →
       ∃ st',
         update_memory schema_accepts reentrant now memory_id content' critique st
           = Raises TypeError st'
         ∧ files st' !! path entry = Some Truncated
         ∧ index_file st' = index_file st
         ∧ get_memory memory_id st' = Raises JSONDecodeError st').
Proof.
  intros Hl Hi Hf Hn Hv Hv' Hok Hc Hq. split.
  - eexists _, _.
    rewrite (update_memory_step schema_accepts reentrant now memory_id content critique
               st entry memory v v' Hl Hi Hf Hv Hv'), Hok.
    assert (is_Some (dumps v')) as Hsv'.
    { destruct v; simpl in Hv'; simplify_eq; by eexists. }
    destruct (updated_serialisable now content critique v' memory)
      as [text ->]; [|done|done|done|].
    { apply dumps_dict_Some. by apply native_serialisable. }
    split; [done|]. split.
    { eapply get_memory_found; [apply dict_get_set_eq|apply lookup_insert_eq]. }
    rewrite !dict_get_loaded.
    assert (∀ k, loaded <$> dict_get k memory = dict_get k memory) as Hsame.
    { intros k. rewrite <- dict_get_loaded. by apply loaded_get_native. }
    unfold updated. destruct (truthy critique).
    + split; [by rewrite dict_get_set_eq|]. split.
      { rewrite !dict_get_set_ne by done. by rewrite dict_get_set_eq. }
      split; [apply loaded_native|]. split; [apply loaded_native|].
      intros k H1 H2 H3 H4. rewrite dict_get_loaded.
      by rewrite !dict_get_set_ne by done.
    + split; [by rewrite !dict_get_set_ne by done|]. split.
      { rewrite !dict_get_set_ne by done. by rewrite dict_get_set_eq. }
      split; [apply loaded_native|]. split; [apply loaded_native|].
      intros k H1 H2 H3 H4. rewrite dict_get_loaded.
      by rewrite !dict_get_set_ne by done.
  - intros content' Hnone Hok'. eexists.
    rewrite (update_memory_step schema_accepts reentrant now memory_id content' critique
               st entry memory v v' Hl Hi Hf Hv Hv'), Hok'.
    rewrite (updated_unserialisable now content' critique v' memory Hnone).
    split; [done|]. simpl. split; [apply lookup_insert_eq|]. split; [done|].
    apply (get_memory_truncated memory_id _ entry); [done|apply lookup_insert_eq].
Qed.

(** X14.  [create_memory] with an id that is not in the index, a content
    and a critique that [json] can serialise, adds one entry at the end of
    the index and one record file, which holds the record as [json] reads it
    back; the other entries, the other record files and the statistics are
    as they were.  With a content [json] cannot serialise the call raises
    [TypeError]: the record file is there, without a record, and the index
    has no entry for it. *)
Theorem create_adds_one_record memory_id now memory_type content critique st :
  locks st = [] →
  dict_get memory_id (memories (index_file st)) = None →
  schema_accepts (created memory_id now memory_type content critique) = true →
  is_Some (dumps content) →
  is_Some (dumps critique) →
  (∃ st',
     create_memory schema_accepts reentrant memory_id now memory_type content critique st
       = Returns memory_id st'
     ∧ memories (index_file st') =
         memories (index_file st)
         ++ [(memory_id, {| path := record_path memory_id; type_ := memory_type;
                            version := VInt 1; last_updated := VStr now |})]
     ∧ stats (index_file st') = stats (index_file st)
     ∧ (∀ p, p ≠ record_path memory_id → files st' !! p = files st !! p)
     ∧ files st' !! record_path memory_id
         = Some (Stored (loaded_dict (created memory_id now memory_type content critique)))
     ∧ locks st' = [])
  ∧ (∀ content',
       dumps content' = None →
       schema_accepts (created memory_id now memory_type content' critique) = true →
       create_memory schema_accepts reentrant memory_id now memory_type content' critique st
         = Raises TypeError
             {| index_file := index_file st;
                files := <[record_path memory_id := Truncated]> (files st);
                locks := [] |}).
Proof.
  intros Hl Hnew Hok Hc Hq. split.
  - eexists. rewrite create_memory_step by done. rewrite Hok.
    destruct (created_serialisable memory_id now memory_type content critique Hc Hq)
      as [text ->].
    split; [done|]. simpl. split; [by apply dict_set_absent|]. split; [done|].
    split; [intros p Hp; by rewrite lookup_insert_ne|].
    split; [apply lookup_insert_eq|done].
  - intros content' Hnone Hok'. rewrite create_memory_step by done. rewrite Hok'.
    by rewrite (created_unserialisable memory_id now memory_type content' critique Hnone).
Qed.

End memory.

#[local] Abbreviation search_round memory_type :=
  (λ '(memory_id, info) results,
     if bool_decide (memory_type = None ∨ memory_type = Some (type_ info)) then
       memory ← get_memory memory_id;
       mret (results ++ [memory])
     else mret results).

Lemma search_memories_loop memory_type st :
  search_memories memory_type st
  = for_each (search_round memory_type) (memories (index_file st)) [] st.
Proof. reflexivity. Qed.

(** The loop of [search_memories] over the entries [todo] of the index:
    the records of the wanted entries are appended in order. *)
Lemma search_loop memory_type st todo : ∀ acc,
  (∀ memory_id e, (memory_id, e) ∈ todo →
     dict_get memory_id (memories (index_file st)) = Some e) →
  (∀ memory_id e, (memory_id, e) ∈ todo →
     memory_type = None ∨ memory_type = Some (type_ e) →
     ∃ memory, files st !! path e = Some (Stored memory)) →
  ∃ results,
    for_each (search_round memory_type) todo acc st = Returns (acc ++ results) st
    ∧ Forall2 (λ kv memory, files st !! path kv.2 = Some (Stored memory))
        (filter (λ kv, memory_type = None ∨ memory_type = Some (type_ kv.2)) todo)
        results.
Proof.
  induction todo as [|[memory_id e] todo IH]; intros acc Hidx Hfiles.
  - exists []. split; [by rewrite app_nil_r|constructor].
  - cbn [for_each]. unfold mbind at 1, M_bind at 1, bind at 1.
    destruct (decide (memory_type = None ∨ memory_type = Some (type_ e))) as [Hw|Hw].
    + rewrite bool_decide_eq_true_2 by done.
      destruct (Hfiles memory_id e) as [memory Hm]; [left|done|].
      unfold mbind at 1, M_bind at 1, bind at 1.
      rewrite (get_memory_found memory_id st e memory); [|apply Hidx; left|done].
      unfold mret at 1, M_ret at 1, ret at 1.
      destruct (IH (acc ++ [memory])) as (results & -> & HF).
      { intros k v Hin. apply (Hidx k v). by right. }
      { intros k v Hin. apply (Hfiles k v). by right. }
      exists (memory :: results). split; [by rewrite <- app_assoc|].
      rewrite filter_cons_True by done. by constructor.
    + rewrite bool_decide_eq_false_2 by done.
      unfold mret at 1, M_ret at 1, ret at 1.
      destruct (IH acc) as (results & -> & HF).
      { intros k v Hin. apply (Hidx k v). by right. }
      { intros k v Hin. apply (Hfiles k v). by right. }
      exists results. split; [done|]. by rewrite filter_cons_False by done.
Qed.

(** X15.  [search_memories] returns, in the order of the index, the
    record files of the entries whose type IN THE INDEX is the wanted one
    (of all entries when no type is given), each of which holds a record;
    it reads only, and record files of entries that are not wanted need not
    exist. *)
Theorem search_returns_records_of_wanted_entries memory_type st :
  NoDup (memories (index_file st)).*1 →
  (∀ memory_id e, (memory_id, e) ∈ memories (index_file st) →
     memory_type = None ∨ memory_type = Some (type_ e) →
     ∃ memory, files st !! path e = Some (Stored memory)) →
  ∃ results,
    search_memories memory_type st = Returns results st
    ∧ Forall2 (λ kv memory, files st !! path kv.2 = Some (Stored memory))
        (filter (λ kv, memory_type = None ∨ memory_type = Some (type_ kv.2))
           (memories (index_file st)))
        results.
Proof.
  intros Hnd Hfiles.
  destruct (search_loop memory_type st (memories (index_file st)) [])
    as (results & Hrun & HF); [|done|].
  { intros ???. by apply dict_get_elem. }
  exists results. split; [|done]. by rewrite search_memories_loop.
Qed.

(** X16.  One wanted entry of the index whose record file is missing
    makes [search_memories] raise [FileNotFoundError] for that path: the
    records found before it are not returned. *)
Theorem search_fails_on_a_missing_record memory_type st before memory_id e after :
  memories (index_file st) = before ++ (memory_id, e) :: after →
  NoDup (memories (index_file st)).*1 →
  (∀ memory_id' e', (memory_id', e') ∈ before →
     memory_type = None ∨ memory_type = Some (type_ e') →
     ∃ memory, files st !! path e' = Some (Stored memory)) →
  memory_type = None ∨ memory_type = Some (type_ e) →
  files st !! path e = None →
  search_memories memory_type st = Raises (FileNotFoundError (path e)) st.
Proof.
  intros Hms Hnd Hfiles Hw Hmissing.
  assert (∀ k v, (k, v) ∈ before ++ (memory_id, e) :: after →
            dict_get k (memories (index_file st)) = Some v) as Hidx.
  { intros k v Hin. apply dict_get_elem; [done|]. by rewrite Hms. }
  rewrite search_memories_loop, Hms, for_each_app.
  destruct (search_loop memory_type st before []) as (results & -> & _).
  { intros ???. apply Hidx. apply elem_of_app. by left. }
  { done. }
  cbn [for_each]. unfold mbind at 1, M_bind at 1, bind at 1.
  rewrite bool_decide_eq_true_2 by done.
  unfold get_memory, read_index, read_file.
  exec_by ltac:(rewrite ?(Hidx memory_id e), ?Hmissing
                  by (apply elem_of_app; right; left)).
  done.
Qed.

Lemma filter_none {A} (P : A → Prop) `{!∀ x, Decision (P x)} (l : list A) :
  (∀ x, x ∈ l → ¬ P x) → filter P l = [].
Proof.
  induction l as [|x l IH]; intros Hno; [done|].
  rewrite filter_cons_False by (apply Hno; left). apply IH. intros y Hy. apply Hno. by right.
Qed.

(** The exact outcome of [cleanup_expired] in a store that satisfies the
    index invariant. *)
Lemma cleanup_expired_outcome reentrant now st :
  locks st = [] →
  consistent st →
  let gone := filter (λ kv, expired now (files st) kv = true) (memories (index_file st)) in
  cleanup_expired reentrant now st =
    Returns (length gone)
      (if decide (gone = []) then st
       else {| index_file :=
                 {| memories := filter (λ kv, kv.1 ∉ gone.*1) (memories (index_file st));
                    stats := dict_set "last_cleanup" (VStr now) (stats (index_file st)) |};
               files := foldl (λ f q, delete q f) (files st) (path <$> gone.*2);
               locks := [] |}).
Proof.
  intros Hl (Hids & Hpaths & Hfiles) gone. destruct st as [idx fs lk].
  simpl in *. subst lk.
  unfold cleanup_expired, _acquire_lock, _release_lock, read_index, write_index.
  exec_by idtac.
  rewrite (cleanup_loop now idx ["index"] (memories idx) fs (memories idx) 0 Hids Hpaths).
  - fold gone. destruct (decide (gone = [])) as [Hnil|Hne].
    + rewrite Hnil. done.
    + simpl. destruct (length gone) as [|n] eqn:Hn.
      { by apply length_zero_iff_nil in Hn. }
      simpl. do 3 f_equal. by apply foldl_dict_del_filter.
  - intros id e Hin. destruct (Hfiles id e Hin) as (m & Hm & Hty).
    split; [by apply dict_get_elem|]. split; [by apply dict_get_elem|]. by exists m.
Qed.

(** X17.  [cleanup_expired] writes the index only when it removed
    something: with no expired record it returns 0 and index and files are
    exactly as before, with the statistics untouched; otherwise it writes
    [stats["last_cleanup"] = now] with the shortened index. *)
Theorem cleanup_writes_index_only_after_a_removal reentrant now st :
  locks st = [] →
  consistent st →
  ∃ n st',
    cleanup_expired reentrant now st = Returns n st'
    ∧ (n = 0%nat ↔ ∀ kv, kv ∈ memories (index_file st) → expired now (files st) kv = false)
    ∧ (n = 0%nat → st' = st)
    ∧ ((0 < n)%nat →
         dict_get "last_cleanup" (stats (index_file st')) = Some (VStr now)
         ∧ ∀ k, k ≠ "last_cleanup" →
                dict_get k (stats (index_file st')) = dict_get k (stats (index_file st))).
Proof.
  intros Hl Hc. eexists _, _. split; [by apply cleanup_expired_outcome|].
  set (gone := filter _ _). split; [|split].
  - rewrite length_zero_iff_nil. split.
    + intros Hnil kv Hin. destruct (expired now (files st) kv) eqn:Hexp; [|done].
      exfalso. by apply (filter_nil_not_elem_of _ _ kv Hnil).
    + intros Hno. apply filter_none. intros kv Hin. by rewrite (Hno kv Hin).
  - intros Hn%length_zero_iff_nil. by rewrite decide_True.
  - intros Hn. rewrite decide_False by (intros Hnil; rewrite Hnil in Hn; simpl in Hn; lia).
    simpl. split; [apply dict_get_set_eq|]. intros k Hk. by apply dict_get_set_ne.
Qed.

(** X18.  [cleanup_expired] run again with the same clock reading finds
    nothing to do: after a first run the store satisfies the index
    invariant again, and a second run returns 0 and changes nothing. *)
Theorem cleanup_twice_is_cleanup_once reentrant now st :
  locks st = [] →
  consistent st →
  ∃ n st',
    cleanup_expired reentrant now st = Returns n st'
    ∧ consistent st'
    ∧ cleanup_expired reentrant now st' = Returns 0%nat st'.
Proof.
  intros Hl Hc. eexists _, _. split; [by apply cleanup_expired_outcome|].
  set (gone := filter _ (memories (index_file st))).
  destruct (decide (gone = [])) as [Hnil|Hne].
  { split; [done|]. rewrite cleanup_expired_outcome by done. fold gone.
    rewrite Hnil. by rewrite decide_True. }
  pose proof Hc as (Hids & Hpaths & Hfiles).
  assert (∀ kv, kv ∈ memories (index_file st) → kv.1 ∉ gone.*1 →
            expired now (files st) kv = false ∧ path kv.2 ∉ path <$> gone.*2) as Hkept.
  { intros kv Hin Hout.
    assert (expired now (files st) kv = false) as Hexp.
    { destruct (expired now (files st) kv) eqn:Hexp; [|done].
      exfalso. apply Hout. apply list_elem_of_fmap. exists kv. split; [done|].
      by apply list_elem_of_filter. }
    split; [done|]. rewrite <- list_fmap_compose.
    intros (kv' & Heq & [Hexp' Hin']%list_elem_of_filter)%list_elem_of_fmap.
    rewrite <- list_fmap_compose in Hpaths.
    rewrite (NoDup_fmap_elem_inj (path ∘ snd) _ kv kv' Hpaths Hin Hin' Heq) in Hexp.
    congruence. }
  set (st' := {| index_file := _; files := _; locks := [] |}).
  assert (∀ kv, kv ∈ memories (index_file st') →
            kv ∈ memories (index_file st)
            ∧ files st' !! path kv.2 = files st !! path kv.2
            ∧ expired now (files st') kv = false) as Hsame.
  { intros kv [Hout Hin]%list_elem_of_filter.
    destruct (Hkept kv Hin Hout) as [Hexp Hp].
    assert (files st' !! path kv.2 = files st !! path kv.2) as Hf.
    { simpl. rewrite lookup_foldl_delete. by rewrite decide_False. }
    split; [done|]. split; [done|]. unfold expired in *. by rewrite Hf. }
  assert (consistent st') as Hc'.
  { split; [|split].
    - simpl. by apply NoDup_fst_filter.
    - simpl. eapply sublist_NoDup; [exact Hpaths|].
      apply fmap_sublist, fmap_sublist, sublist_filter.
    - intros memory_id entry Hin.
      destruct (Hsame _ Hin) as (Hin0 & Hf & _). cbn [snd] in Hf. rewrite Hf.
      by apply (Hfiles memory_id entry). }
  split; [done|]. rewrite cleanup_expired_outcome by done.
  rewrite (filter_none (λ kv, expired now (files st') kv = true)).
  - by rewrite decide_True.
  - intros kv Hin. destruct (Hsame kv Hin) as (_ & _ & ->). done.
Qed.

(** X19.  An entry of the index whose record file is missing makes
    [cleanup_expired] raise [FileNotFoundError]; the expired records that
    come before it in the index have lost their files by then, but the index
    on disk has not been written: it still lists them.  The lock is
    released. *)
Theorem cleanup_failure_leaves_dangling_entries reentrant now st before memory_id e after :
  locks st = [] →
  memories (index_file st) = before ++ (memory_id, e) :: after →
  NoDup (memories (index_file st)).*1 →
  NoDup (path <$> before.*2) →
  (∀ memory_id' e', (memory_id', e') ∈ before →
     ∃ m, files st !! path e' = Some (Stored m) ∧
          ∀ x, dict_get "expires_at" m = Some x → ∃ s, x = VStr s) →
  files st !! path e = None →
  let gone := filter (λ kv, expired now (files st) kv = true) before in
  cleanup_expired reentrant now st =
    Raises (FileNotFoundError (path e))
      {| index_file := index_file st;
         files := foldl (λ f q, delete q f) (files st) (path <$> gone.*2);
         locks := [] |}
  ∧ ∀ kv, kv ∈ gone →
      dict_get kv.1 (memories (index_file st)) = Some kv.2
      ∧ foldl (λ f q, delete q f) (files st) (path <$> gone.*2) !! path kv.2 = None.
Proof.
  intros Hl Hms Hnd Hpaths Hfiles Hmissing gone.
  assert (∀ k v, (k, v) ∈ before ++ (memory_id, e) :: after →
            dict_get k (memories (index_file st)) = Some v) as Hidx.
  { intros k v Hin. apply dict_get_elem; [done|]. by rewrite Hms. }
  split.
  - destruct st as [idx fs lk]. simpl in *. subst lk.
    unfold cleanup_expired, _acquire_lock, _release_lock, read_index, write_index.
    exec_by idtac.
    rewrite Hms at 1. rewrite fmap_app, for_each_app.
    rewrite (cleanup_loop now idx ["index"] before fs (memories idx) 0).
    + fold gone. cbn [fmap list_fmap for_each fst].
      unfold mbind at 1, M_bind at 1, bind at 1. unfold cleanup_round at 1.
      unfold mbind at 1, M_bind at 1, bind at 1.
      assert (∀ st', index_file st' = idx →
                files st' = foldl (λ f q, delete q f) fs (path <$> gone.*2) →
                get_memory memory_id st' = Raises (FileNotFoundError (path e)) st') as ->.
      { intros st' Hi Hf. unfold get_memory, read_index, read_file.
        exec_by ltac:(rewrite ?Hi, ?Hf, ?(Hidx memory_id e), ?lookup_foldl_delete, ?Hmissing
                        by (apply elem_of_app; right; left)).
        by destruct (decide _). }
      * by simpl.
      * done.
      * done.
    + rewrite Hms, fmap_app in Hnd. by apply NoDup_app in Hnd as [? _].
    + done.
    + intros k v Hin. split; [|split; [|by apply (Hfiles k v)]].
      * apply (Hidx k v). apply elem_of_app. by left.
      * apply (Hidx k v). apply elem_of_app. by left.
  - intros [k v] [Hexp Hin]%list_elem_of_filter. simpl. split.
    + apply Hidx. apply elem_of_app. by left.
    + rewrite lookup_foldl_delete. rewrite decide_True; [done|].
      apply list_elem_of_fmap. exists v. split; [done|].
      apply list_elem_of_fmap. exists (k, v). split; [done|].
      by apply list_elem_of_filter.
Qed.

Lemma Forall2_lookup_agree {A B C} (f g : A → option C) (wrap : B → C) (l : list A) :
  (∀ x y, wrap x = wrap y → x = y) →
  ∀ r1 r2,
    (∀ x, x ∈ l → f x = g x) →
    Forall2 (λ x y, f x = Some (wrap y)) l r1 →
    Forall2 (λ x y, g x = Some (wrap y)) l r2 → r1 = r2.
Proof.
  intros Hinj.
  induction l as [|x l IH]; intros r1 r2 Hfg H1 H2; inversion H1; inversion H2; subst; [done|].
  f_equal.
  - assert (f x = g x) by (apply Hfg; left). apply Hinj. congruence.
  - apply IH; [|done|done]. intros z Hz. apply Hfg. by right.
Qed.

(** X20.  After [create_memory] with a content and a critique that
    [json] can serialise, [search_memories] for the type of the new record
    (or for every type) returns what it returned before, followed by the
    new record as [json] reads it back; this needs the new id and the path
    of its file to be unused, and the record files of the index to hold
    records. *)
Theorem search_after_create schema_accepts reentrant
    memory_id now memory_type content critique wanted st :
  locks st = [] →
  NoDup (memories (index_file st)).*1 →
  dict_get memory_id (memories (index_file st)) = None →
  (∀ k e, (k, e) ∈ memories (index_file st) →
     path e ≠ record_path memory_id ∧ ∃ memory, files st !! path e = Some (Stored memory)) →
  schema_accepts (created memory_id now memory_type content critique) = true →
  is_Some (dumps content) →
  is_Some (dumps critique) →
  wanted = None ∨ wanted = Some memory_type →
  ∃ st' found,
    create_memory schema_accepts reentrant memory_id now memory_type content critique st
      = Returns memory_id st'
    ∧ search_memories wanted st = Returns found st
    ∧ search_memories wanted st'
        = Returns (found ++ [loaded_dict (created memory_id now memory_type content critique)])
            st'.
Proof.
  intros Hl Hnd Hnew Hfiles Hok Hc Hq Hw.
  destruct (search_loop wanted st (memories (index_file st)) []) as (found & Hfound & HF).
  { intros k e Hin. by apply dict_get_elem. }
  { intros k e Hin _. by apply (Hfiles k e). }
  rewrite <- search_memories_loop in Hfound.
  eexists _, found. rewrite create_memory_step by done. rewrite Hok.
  destruct (created_serialisable memory_id now memory_type content critique Hc Hq)
    as [text ->].
  split; [done|]. split; [done|].
  set (entry := {| path := _; type_ := memory_type; version := _; last_updated := _ |}).
  set (st' := {| index_file := _; files := _; locks := [] |}).
  assert (memories (index_file st') = memories (index_file st) ++ [(memory_id, entry)]) as Hms.
  { by apply dict_set_absent. }
  assert (NoDup (memories (index_file st')).*1) as Hnd'.
  { rewrite Hms, fmap_app. apply NoDup_app. split; [done|]. split.
    - intros k Hk [->|[]%elem_of_nil]%elem_of_cons. by apply dict_get_None in Hnew.
    - apply NoDup_singleton. }
  rewrite search_memories_loop, Hms, for_each_app.
  destruct (search_loop wanted st' (memories (index_file st)) []) as (found' & -> & HF').
  { intros k e Hin. apply dict_get_elem; [done|]. rewrite Hms. apply elem_of_app. by left. }
  { intros k e Hin _. destruct (Hfiles k e Hin) as [Hne Hsome].
    simpl. by rewrite lookup_insert_ne. }
  assert (found' = found) as ->.
  { eapply (Forall2_lookup_agree (λ kv, files st' !! path kv.2)
              (λ kv, files st !! path kv.2) Stored);
      [by intros ?? [= ->]| |exact HF'|exact HF].
    intros [k e] [_ Hin]%list_elem_of_filter. destruct (Hfiles k e Hin) as [Hne _].
    simpl. by rewrite lookup_insert_ne. }
  cbn [for_each]. unfold mbind at 1, M_bind at 1, bind at 1.
  rewrite bool_decide_eq_true_2 by done.
  unfold mbind at 1, M_bind at 1, bind at 1.
  rewrite (get_memory_found memory_id st' entry
             (loaded_dict (created memory_id now memory_type content critique))).
  - done.
  - apply dict_get_elem; [done|]. rewrite Hms. apply elem_of_app. right. left.
  - apply lookup_insert_eq.
Qed.

(** One round of the loop of [cleanup_expired] takes no lock and gives
    none back. *)
Lemma cleanup_round_locks now memory_id acc st :
  match cleanup_round now memory_id acc st with
  | Returns _ st' => locks st' = locks st
  | Raises _ st' => locks st' = locks st
  | Blocks _ => False
  end.
Proof.
  destruct acc as [mems cleaned]. destruct st as [idx fs lk].
  unfold cleanup_round, get_memory, read_index, read_file, remove_file.
  exec_by idtac. repeat (case_match; simplify_eq/=; try done).
Qed.

Lemma cleanup_rounds_locks now ids : ∀ acc st,
  match for_each (cleanup_round now) ids acc st with
  | Returns _ st' => locks st' = locks st
  | Raises _ st' => locks st' = locks st
  | Blocks _ => False
  end.
Proof.
  induction ids as [|memory_id ids IH]; intros acc st; [done|].
  cbn [for_each]. unfold mbind, M_bind, bind.
  pose proof (cleanup_round_locks now memory_id acc st) as Hround.
  destruct (cleanup_round now memory_id acc st) as [acc' st'|e st'|st']; [|done..].
  specialize (IH acc' st'). destruct (for_each _ _ _ _); [congruence|congruence|done].
Qed.

(** X21.  [create_memory], [update_memory] and [cleanup_expired] give
    back the lock they take whether they return or raise (the [finally]
    clause): the locks held are those held before.  They never come back
    only when the lock is already held and is not granted a second time, and
    then nothing has been written. *)
Theorem memory_calls_release_their_lock schema_accepts reentrant now st :
  (∀ memory_id memory_type content critique,
     match create_memory schema_accepts reentrant memory_id now memory_type content critique st
     with
     | Returns _ st' => locks st' = locks st
     | Raises _ st' => locks st' = locks st
     | Blocks st' => st' = st ∧ "index" ∈ locks st ∧ reentrant = false
     end)
  ∧ (∀ memory_id content critique,
       match update_memory schema_accepts reentrant now memory_id content critique st with
       | Returns _ st' => locks st' = locks st
       | Raises _ st' => locks st' = locks st
       | Blocks st' => st' = st ∧ memory_id ∈ locks st ∧ reentrant = false
       end)
  ∧ match cleanup_expired reentrant now st with
    | Returns _ st' => locks st' = locks st
    | Raises _ st' => locks st' = locks st
    | Blocks st' => st' = st ∧ "index" ∈ locks st ∧ reentrant = false
    end.
Proof.
  assert (∀ lock_id : string, bool_decide (lock_id ∈ lock_id :: locks st) = true) as Hheld.
  { intros lock_id. apply bool_decide_eq_true_2. left. }
  destruct st as [idx fs lk]. simpl in Hheld. split; [|split].
  - intros memory_id memory_type content critique.
    unfold create_memory, _acquire_lock, _release_lock, _validate_memory,
      read_index, write_file, write_index.
    exec_by idtac. destruct (schema_accepts _); [|done]. simpl.
    destruct (bool_decide ("index" ∈ lk)) eqn:Hin, reentrant; simpl;
      try (by apply bool_decide_eq_true_1 in Hin);
      repeat (case_match; simplify_eq/=; try done);
      rewrite ?Hheld in *; simplify_eq/=; by rewrite ?decide_True by done.
  - intros memory_id content critique.
    unfold update_memory, _acquire_lock, _release_lock, _validate_memory,
      read_index, read_file, write_file, write_index.
    exec_by idtac.
    destruct (bool_decide (memory_id ∈ lk)) eqn:Hin, reentrant; simpl;
      try (by apply bool_decide_eq_true_1 in Hin);
      repeat (case_match; simplify_eq/=; try done);
      rewrite ?Hheld in *; simplify_eq/=; by rewrite ?decide_True by done.
  - unfold cleanup_expired, _acquire_lock, _release_lock, read_index, write_index.
    exec_by idtac.
    destruct (bool_decide ("index" ∈ lk)) eqn:Hin, reentrant; simpl;
      try (by apply bool_decide_eq_true_1 in Hin);
      match goal with
      | |- context [for_each (cleanup_round now) ?ids ?acc ?s] =>
          pose proof (cleanup_rounds_locks now ids acc s) as Hloop;
          destruct (for_each (cleanup_round now) ids acc s) as [[mems cleaned] s'|e s'|s'];
          [| |done]
      end; simpl in *;
      repeat (case_match; simplify_eq/=; try done);
      rewrite ?Hloop, ?Hheld in *; simplify_eq/=; by rewrite ?decide_True by done.
Qed.

Lemma rejected_record_is_not_written_witness :
  create_memory expiring_schema false "id9" noon "note" (VDict []) VNone one_record
    = Raises invalid_format one_record
  ∧ update_memory record_schema false noon "id2" (VDict []) VNone expiring_records
    = Raises invalid_format expiring_records.
Proof.
  split.
  - apply (proj1 (rejected_record_is_not_written expiring_schema false one_record eq_refl)).
    reflexivity.
  - apply (proj2 (rejected_record_is_not_written record_schema false expiring_records eq_refl)
             noon "id2" (VDict []) VNone (note_entry "data/memories/id2.json")
             stale_record (VInt 1) (VInt 2)); reflexivity.
Defined.

Lemma update_of_unusable_record_raises_witness :
  update_memory record_schema false noon "id1" plan2 VNone lost_record
    = Raises (FileNotFoundError "data/memories/id1.json") lost_record
  ∧ update_memory record_schema false noon "id1" plan2 VNone unversioned_record
    = Raises (KeyError "version") unversioned_record
  ∧ update_memory record_schema false noon "id1" plan2 VNone misversioned_record
    = Raises TypeError misversioned_record
  ∧ update_memory record_schema false noon "id1" plan2 VNone truncated_record
    = Raises JSONDecodeError truncated_record.
Proof.
  split; [|split; [|split]].
  - exact (update_of_unusable_record_raises record_schema false noon "id1" plan2 VNone
             lost_record plan_entry eq_refl eq_refl).
  - exact (update_of_unusable_record_raises record_schema false noon "id1" plan2 VNone
             unversioned_record plan_entry eq_refl eq_refl).
  - exact (update_of_unusable_record_raises record_schema false noon "id1" plan2 VNone
             misversioned_record plan_entry eq_refl eq_refl eq_refl).
  - exact (update_of_unusable_record_raises record_schema false noon "id1" plan2 VNone
             truncated_record plan_entry eq_refl eq_refl).
Defined.

Lemma update_stores_a_given_critique_witness :
  (∃ st' memory',
     update_memory record_schema false noon "id1" plan2 review one_record = Returns true st'
     ∧ get_memory "id1" st' = Returns memory' st'
     ∧ dict_get "critique" memory' =
         (if truthy review then Some (loaded review) else dict_get "critique" plan_record)
     ∧ dict_get "content" memory' = Some (loaded plan2)
     ∧ (json_native plan2 = true → loaded plan2 = plan2)
     ∧ (json_native review = true → loaded review = review)
     ∧ ∀ k, k ≠ "content" → k ≠ "updated_at" → k ≠ "version" → k ≠ "critique" →
            dict_get k memory' = dict_get k plan_record)
  ∧ (∀ content',
       dumps content' = None →
       record_schema (updated noon content' review (VInt 2) plan_record) = true →
       ∃ st',
         update_memory record_schema false noon "id1" content' review one_record
           = Raises TypeError st'
         ∧ files st' !! path plan_entry = Some Truncated
         ∧ index_file st' = index_file one_record
         ∧ get_memory "id1" st' = Raises JSONDecodeError st').
Proof.
  apply (update_stores_a_given_critique record_schema false noon "id1" plan2 review
           one_record plan_entry plan_record (VInt 1) (VInt 2));
    try reflexivity; by eexists.
Defined.

Lemma create_adds_one_record_witness :
  (∃ st',
     create_memory record_schema false "id9" noon "note" plan2 VNone one_record
       = Returns "id9" st'
     ∧ memories (index_file st') =
         memories (index_file one_record)
         ++ [("id9", {| path := record_path "id9"; type_ := "note";
                        version := VInt 1; last_updated := VStr noon |})]
     ∧ stats (index_file st') = stats (index_file one_record)
     ∧ (∀ p, p ≠ record_path "id9" → files st' !! p = files one_record !! p)
     ∧ files st' !! record_path "id9"
         = Some (Stored (loaded_dict (created "id9" noon "note" plan2 VNone)))
     ∧ locks st' = [])
  ∧ (∀ content',
       dumps content' = None →
       record_schema (created "id9" noon "note" content' VNone) = true →
       create_memory record_schema false "id9" noon "note" content' VNone one_record
         = Raises TypeError
             {| index_file := index_file one_record;
                files := <[record_path "id9" := Truncated]> (files one_record);
                locks := [] |}).
Proof.
  apply (create_adds_one_record record_schema false "id9" noon "note" plan2 VNone one_record);
    try reflexivity; by eexists.
Defined.

Lemma expiring_records_consistent : consistent expiring_records.
Proof.
  split; [|split].
  - apply (bool_decide_unpack (NoDup _)). vm_compute. exact I.
  - apply (bool_decide_unpack (NoDup _)). vm_compute. exact I.
  - intros id e [[= -> ->]|[[= -> ->]|[]%elem_of_nil]%elem_of_cons]%elem_of_cons.
    + eexists. split; [reflexivity|]. intros x [= <-]. by eexists.
    + eexists. split; [reflexivity|]. intros x [= <-]. by eexists.
Defined.

Lemma search_returns_records_of_wanted_entries_witness :
  ∃ results,
    search_memories (Some "note") expiring_records = Returns results expiring_records
    ∧ Forall2 (λ kv memory, files expiring_records !! path kv.2 = Some (Stored memory))
        (filter (λ kv, Some "note" = None ∨ Some "note" = Some (type_ kv.2))
           (memories (index_file expiring_records)))
        results.
Proof.
  apply (search_returns_records_of_wanted_entries (Some "note") expiring_records).
  - apply (bool_decide_unpack (NoDup _)). vm_compute. exact I.
  - intros id e [[= -> ->]|[[= -> ->]|[]%elem_of_nil]%elem_of_cons]%elem_of_cons _;
      by eexists.
Defined.

Lemma search_fails_on_a_missing_record_witness :
  search_memories None dangling_records
    = Raises (FileNotFoundError "data/memories/id4.json") dangling_records.
Proof.
  apply (search_fails_on_a_missing_record None dangling_records
           [("id2", note_entry "data/memories/id2.json")]
           "id4" (note_entry "data/memories/id4.json")
           [("id3", note_entry "data/memories/id3.json")]).
  - reflexivity.
  - apply (bool_decide_unpack (NoDup _)). vm_compute. exact I.
  - intros id e [[= -> ->]|[]%elem_of_nil]%elem_of_cons _. by eexists.
  - by left.
  - reflexivity.
Defined.

Lemma cleanup_writes_index_only_after_a_removal_witness :
  ∃ n st',
    cleanup_expired false noon expiring_records = Returns n st'
    ∧ (n = 0%nat ↔ ∀ kv, kv ∈ memories (index_file expiring_records) →
                       expired noon (files expiring_records) kv = false)
    ∧ (n = 0%nat → st' = expiring_records)
    ∧ ((0 < n)%nat →
         dict_get "last_cleanup" (stats (index_file st')) = Some (VStr noon)
         ∧ ∀ k, k ≠ "last_cleanup" →
                dict_get k (stats (index_file st'))
                = dict_get k (stats (index_file expiring_records))).
Proof.
  apply (cleanup_writes_index_only_after_a_removal false noon expiring_records).
  - reflexivity.
  - exact expiring_records_consistent.
Defined.

Lemma cleanup_twice_is_cleanup_once_witness :
  ∃ n st',
    cleanup_expired false noon expiring_records = Returns n st'
    ∧ consistent st'
    ∧ cleanup_expired false noon st' = Returns 0%nat st'.
Proof.
  apply (cleanup_twice_is_cleanup_once false noon expiring_records).
  - reflexivity.
  - exact expiring_records_consistent.
Defined.

Lemma cleanup_failure_leaves_dangling_entries_witness :
  let gone := filter (λ kv, expired noon (files dangling_records) kv = true)
                [("id2", note_entry "data/memories/id2.json")] in
  cleanup_expired false noon dangling_records =
    Raises (FileNotFoundError "data/memories/id4.json")
      {| index_file := index_file dangling_records;
         files := foldl (λ f q, delete q f) (files dangling_records) (path <$> gone.*2);
         locks := [] |}
  ∧ ∀ kv, kv ∈ gone →
      dict_get kv.1 (memories (index_file dangling_records)) = Some kv.2
      ∧ foldl (λ f q, delete q f) (files dangling_records) (path <$> gone.*2)
          !! path kv.2 = None.
Proof.
  apply (cleanup_failure_leaves_dangling_entries false noon dangling_records
           [("id2", note_entry "data/memories/id2.json")]
           "id4" (note_entry "data/memories/id4.json")
           [("id3", note_entry "data/memories/id3.json")]).
  - reflexivity.
  - reflexivity.
  - apply (bool_decide_unpack (NoDup _)). vm_compute. exact I.
  - apply (bool_decide_unpack (NoDup _)). vm_compute. exact I.
  - intros id e [[= -> ->]|[]%elem_of_nil]%elem_of_cons.
    eexists. split; [reflexivity|]. intros x [= <-]. by eexists.
  - reflexivity.
Defined.

Lemma search_after_create_witness :
  ∃ st' found,
    create_memory record_schema false "id9" noon "build_plan" plan2 VNone one_record
      = Returns "id9" st'
    ∧ search_memories (Some "build_plan") one_record = Returns found one_record
    ∧ search_memories (Some "build_plan") st'
        = Returns (found ++ [loaded_dict (created "id9" noon "build_plan" plan2 VNone)]) st'.
Proof.
  apply (search_after_create record_schema false "id9" noon "build_plan" plan2 VNone
           (Some "build_plan") one_record).
  - reflexivity.
  - apply (bool_decide_unpack (NoDup _)). vm_compute. exact I.
  - reflexivity.
  - intros id e [[= -> ->]|[]%elem_of_nil]%elem_of_cons. split; [done|by eexists].
  - reflexivity.
  - by eexists.
  - by eexists.
  - by right.
Defined.

End CascadeMemoryBehaviour.

(** ** CascadeSafety: records by base name, reasons, retention bounds *)

Module CascadeSafetyBehaviour.
Import Py Exec CascadeSafety PyFacts CascadeSafetyFacts Examples Scenarios.

#[local] Arguments String.app : simpl never.

#[local] Instance flip_le_trans' : Transitive (flip String.le).
Proof. intros a b c Hab Hbc. unfold flip in *. by etrans. Qed.

#[local] Instance flip_le_total' : Total (flip String.le).
Proof. intros a b. unfold flip. destruct (total String.le a b); auto. Qed.

#[local] Instance flip_le_antisym' : AntiSymm (=) (flip String.le).
Proof. intros a b Hab Hba. unfold flip in *. by apply (anti_symm String.le). Qed.

(** Removing the snapshots after the first [n], none of them refused,
    leaves the first [n]. *)
Lemma cleanup_keeps_prefix st n :
  (∀ o, o ∈ drop n (listed_backups st) → o ∉ undeletable st) →
  listed_backups (foldl remove_backup st (drop n (listed_backups st)))
  = take n (listed_backups st).
Proof.
  intros Hfree.
  pose proof (listed_backups_NoDup st) as Hnd.
  rewrite <- (take_drop n (listed_backups st)) in Hnd.
  apply NoDup_app in Hnd as (Hnd & Hdisj & _).
  destruct (foldl_remove_backup (drop n (listed_backups st)) st) as [_ Hdir].
  apply (StronglySorted_unique (flip String.le)).
  - apply listed_backups_sorted.
  - apply StronglySorted_take, listed_backups_sorted.
  - apply NoDup_Permutation; [apply listed_backups_NoDup|done|].
    intros item. rewrite listed_backups_elem, Hdir. case_decide as Hold.
    + split; [by intros [? _]|]. intros Hin. exfalso.
      destruct Hold as [Hold _]. by apply (Hdisj item).
    + rewrite <- (listed_backups_elem st).
      rewrite <- (take_drop n (listed_backups st)) at 1. rewrite elem_of_app. split.
      * intros [?|Hin]; [done|]. exfalso. apply Hold. split; [done|by apply Hfree].
      * intros Hin. by left.
Qed.

(** The state left by the loop of [cleanup_old_backups], apart from the
    backups directory. *)
Lemma foldl_remove_backup_frame l : ∀ st,
  files (foldl remove_backup st l) = files st
  ∧ safety (foldl remove_backup st l) = safety st
  ∧ undeletable (foldl remove_backup st l) = undeletable st
  ∧ log (foldl remove_backup st l) =
      rev ((λ backup,
              if bool_decide (backup ∈ undeletable st)
              then LogError ("Failed to remove backup " +:+ backup)
              else LogInfo ("Removed old backup: " +:+ backup)) <$> l) ++ log st.
Proof.
  induction l as [|x l IH]; intros st; [done|].
  cbn [foldl fmap list_fmap rev]. destruct (IH (remove_backup st x)) as (Hf & Hs & Hu & Hlog).
  assert (undeletable (remove_backup st x) = undeletable st) as Hux.
  { unfold remove_backup. by destruct (bool_decide _). }
  rewrite Hf, Hs, Hu, Hlog, Hux.
  unfold remove_backup. rewrite <- app_assoc.
  by destruct (bool_decide (x ∈ undeletable st)).
Qed.

(** X22.  [cleanup_old_backups] with a negative [keep_last] does not keep
    "the last [keep_last]": the slice [backups[keep_last:]] then counts from
    the end, so the call removes the [-keep_last] OLDEST snapshots and keeps
    the others, and removes every snapshot when there are no more than
    [-keep_last]. *)
Theorem cleanup_with_negative_bound_removes_oldest (keep_last : Z) st :
  (keep_last < 0)%Z →
  (∀ o, o ∈ listed_backups st → o ∉ undeletable st) →
  let m := length (listed_backups st) in
  listed_backups (cleanup_old_backups keep_last st)
    = take (m - Z.to_nat (- keep_last)) (listed_backups st)
  ∧ length (listed_backups (cleanup_old_backups keep_last st))
    = (m - Z.to_nat (- keep_last))%nat
  ∧ ((m ≤ Z.to_nat (- keep_last))%nat → listed_backups (cleanup_old_backups keep_last st) = []).
Proof.
  intros Hk Hfree m.
  assert (cleanup_old_backups keep_last st
          = foldl remove_backup st (drop (m - Z.to_nat (- keep_last)) (listed_backups st)))
    as ->.
  { unfold cleanup_old_backups, slice_from. rewrite (proj2 (Z.ltb_lt keep_last 0) Hk).
    do 2 f_equal. fold m. lia. }
  rewrite cleanup_keeps_prefix.
  - split; [done|]. split.
    + rewrite length_take. fold m. lia.
    + intros Hm. replace (m - Z.to_nat (- keep_last))%nat with 0%nat by lia. done.
  - intros o Ho. apply Hfree. rewrite <- (take_drop (m - Z.to_nat (- keep_last))).
    apply elem_of_app. by right.
Qed.

(** X23.  [cleanup_old_backups] touches nothing but the snapshots it
    removes: files and safety records are as before, an entry of the backups
    directory that is not a snapshot (a plain file, a directory with another
    name) stays, and the log receives one record for every snapshot beyond
    the bound, an error for a removal that is refused. *)
Theorem cleanup_old_backups_frame (keep_last : Z) st :
  files (cleanup_old_backups keep_last st) = files st
  ∧ safety (cleanup_old_backups keep_last st) = safety st
  ∧ undeletable (cleanup_old_backups keep_last st) = undeletable st
  ∧ (∀ item, item ∉ listed_backups st →
       backup_dir (cleanup_old_backups keep_last st) !! item = backup_dir st !! item)
  ∧ log (cleanup_old_backups keep_last st) =
      rev ((λ backup,
              if bool_decide (backup ∈ undeletable st)
              then LogError ("Failed to remove backup " +:+ backup)
              else LogInfo ("Removed old backup: " +:+ backup))
             <$> slice_from keep_last (listed_backups st)) ++ log st.
Proof.
  unfold cleanup_old_backups.
  destruct (foldl_remove_backup_frame (slice_from keep_last (listed_backups st)) st)
    as (Hf & Hs & Hu & Hlog).
  destruct (foldl_remove_backup (slice_from keep_last (listed_backups st)) st) as [_ Hdir].
  repeat split; try done.
  intros item Hout. rewrite Hdir. rewrite decide_False; [done|].
  intros [Hin _]. apply Hout. unfold slice_from in Hin.
  destruct (keep_last <? 0)%Z; eapply subseteq_drop; exact Hin.
Qed.

(** X24.  With a bound [keep_last >= 0] and no removal refused,
    [cleanup_old_backups] run a second time does nothing at all: the state,
    log included, is the one the first run left. *)
Theorem cleanup_old_backups_twice (keep_last : Z) st :
  (0 ≤ keep_last)%Z →
  (∀ o, o ∈ listed_backups st → o ∉ undeletable st) →
  cleanup_old_backups keep_last (cleanup_old_backups keep_last st)
  = cleanup_old_backups keep_last st.
Proof.
  intros Hk Hfree.
  assert (listed_backups (cleanup_old_backups keep_last st)
          = take (Z.to_nat keep_last) (listed_backups st)) as Hkept.
  { unfold cleanup_old_backups, slice_from. rewrite (proj2 (Z.ltb_ge keep_last 0) Hk).
    apply cleanup_keeps_prefix. intros o Ho. apply Hfree.
    rewrite <- (take_drop (Z.to_nat keep_last)). apply elem_of_app. by right. }
  unfold cleanup_old_backups at 1. rewrite Hkept.
  unfold slice_from. rewrite (proj2 (Z.ltb_ge keep_last 0) Hk).
  rewrite drop_ge; [done|]. rewrite length_take. lia.
Qed.

Section safety.
Variable sha256 : string → string.

(** X25.  Safety records are kept under the BASE NAME of the path: a
    file is checked against the record of whichever file of that base name
    was recorded last.  Recording [other] makes [file_path], a different
    file with the same base name and other bytes, unsafe to modify although
    it has not changed. *)
Theorem records_are_shared_by_base_name now st file_path other stat stat' :
  files st !! file_path = Some stat →
  files st !! other = Some stat' →
  basename file_path = basename other →
  sha256 (bytes stat) ≠ sha256 (bytes stat') →
  let recorded := record_file_state sha256 now other (record_file_state sha256 now file_path st) in
  safe_to_modify sha256 recorded other = (true, "Safe to modify")
  ∧ safe_to_modify sha256 recorded file_path
    = (false, "File has been modified outside of Cascade")
  ∧ path <$> safety recorded !! basename file_path = Some other.
Proof.
  intros Hf Ho Hb Hh recorded. unfold recorded, record_file_state. rewrite Hf. simpl.
  rewrite Ho. unfold safe_to_modify, _calculate_hash. simpl. rewrite Hf, Ho, Hb.
  rewrite !lookup_insert_eq. simpl.
  rewrite (bool_decide_eq_false_2 (sha256 (bytes stat') ≠ sha256 (bytes stat'))) by (by intros ?).
  rewrite (bool_decide_eq_false_2 (st_mtime stat' ≠ st_mtime stat')) by (by intros ?).
  by rewrite (bool_decide_eq_true_2 (sha256 (bytes stat') ≠ sha256 (bytes stat))).
Qed.

(** X26.  The reason [safe_to_modify] gives after a recorded file has been
    written from outside: other bytes are reported as a modification, also
    when the modification time changed with them; the same bytes with
    another modification time are reported as a timestamp change; the same
    bytes and time are safe. *)
Theorem safe_to_modify_reason now st file_path stat changed :
  files st !! file_path = Some stat →
  let recorded := record_file_state sha256 now file_path st in
  safe_to_modify sha256 recorded file_path = (true, "Safe to modify")
  ∧ safe_to_modify sha256 (external_write file_path changed recorded) file_path =
      if bool_decide (sha256 (bytes changed) = sha256 (bytes stat)) then
        if bool_decide (st_mtime changed = st_mtime stat) then (true, "Safe to modify")
        else (false, "File timestamp has changed")
      else (false, "File has been modified outside of Cascade").
Proof.
  intros Hf recorded. unfold recorded, record_file_state, external_write. rewrite Hf.
  unfold safe_to_modify, _calculate_hash. simpl. rewrite Hf, !lookup_insert_eq. simpl.
  split.
  - by rewrite !bool_decide_eq_false_2 by (by intros ?).
  - repeat case_bool_decide; congruence.
Qed.

End safety.

Lemma cleanup_with_negative_bound_removes_oldest_witness :
  listed_backups (cleanup_old_backups (-2) five_snapshots)
    = take (length (listed_backups five_snapshots) - Z.to_nat (- -2))
        (listed_backups five_snapshots)
  ∧ length (listed_backups (cleanup_old_backups (-2) five_snapshots)) = 3%nat
  ∧ listed_backups (cleanup_old_backups (-7) five_snapshots) = [].
Proof.
  split; [|split].
  - apply (cleanup_with_negative_bound_removes_oldest (-2) five_snapshots); [lia|].
    intros o _. apply not_elem_of_empty.
  - apply (cleanup_with_negative_bound_removes_oldest (-2) five_snapshots); [lia|].
    intros o _. apply not_elem_of_empty.
  - apply (cleanup_with_negative_bound_removes_oldest (-7) five_snapshots); [lia| |].
    + intros o _. apply not_elem_of_empty.
    + vm_compute. lia.
Defined.

Lemma cleanup_old_backups_twice_witness :
  cleanup_old_backups 3 (cleanup_old_backups 3 five_snapshots)
  = cleanup_old_backups 3 five_snapshots.
Proof.
  apply (cleanup_old_backups_twice 3 five_snapshots); [lia|].
  intros o _. apply not_elem_of_empty.
Defined.

Lemma records_are_shared_by_base_name_witness :
  let recorded :=
    record_file_state digest noon "archive/notes.txt"
      (record_file_state digest noon "work/notes.txt" two_notes) in
  safe_to_modify digest recorded "archive/notes.txt" = (true, "Safe to modify")
  ∧ safe_to_modify digest recorded "work/notes.txt"
    = (false, "File has been modified outside of Cascade")
  ∧ path <$> safety recorded !! basename "work/notes.txt" = Some "archive/notes.txt".
Proof.
  apply (records_are_shared_by_base_name digest noon two_notes
           "work/notes.txt" "archive/notes.txt"
           {| bytes := "draft"; st_mtime := 1714557600 |}
           {| bytes := "old"; st_mtime := 1714471200 |}).
  - reflexivity.
  - reflexivity.
  - reflexivity.
  - discriminate.
Defined.

Lemma safe_to_modify_reason_witness :
  let recorded := record_file_state digest noon "work/notes.txt" untracked in
  safe_to_modify digest recorded "work/notes.txt" = (true, "Safe to modify")
  ∧ safe_to_modify digest
      (external_write "work/notes.txt" {| bytes := "draft"; st_mtime := 1714561200 |} recorded)
      "work/notes.txt"
    = (false, "File timestamp has changed").
Proof.
  apply (safe_to_modify_reason digest noon untracked "work/notes.txt"
           {| bytes := "draft"; st_mtime := 1714557600 |}
           {| bytes := "draft"; st_mtime := 1714561200 |}).
  reflexivity.
Defined.

End CascadeSafetyBehaviour.

(** ** CascadeSafety.create_backup: what a snapshot holds, and what a
    failed one leaves *)

Module CascadeBackupFacts.
Import Py CascadeSafetyTree PyFacts Examples TreeScenarios.

#[local] Arguments String.app : simpl never.

Lemma dict_set_fresh {V} k (v : V) (d : list (string * V)) :
  dict_get k d = None → dict_set k v d = d ++ [(k, v)].
Proof.
  induction d as [|[k' v'] d IH]; simpl; [done|].
  destruct (decide (k = k')); [done|]. intros H. by rewrite IH.
Qed.

Lemma dict_get_last {V} k (v : V) (d : list (string * V)) :
  dict_get k d = None → dict_get k (d ++ [(k, v)]) = Some v.
Proof.
  induction d as [|[k' v'] d IH]; simpl; [by rewrite decide_True|].
  destruct (decide (k = k')); [done|]. apply IH.
Qed.

Lemma dict_get_snoc_ne {V} k k' (v : V) (d : list (string * V)) :
  k ≠ k' → dict_get k' (d ++ [(k, v)]) = dict_get k' d.
Proof.
  intros Hne. induction d as [|[k0 w] d IH]; simpl; [by rewrite decide_False|].
  destruct (decide (k' = k0)); [done|apply IH].
Qed.

Lemma dict_set_last {V} k (v v' : V) (d : list (string * V)) :
  dict_get k d = None → dict_set k v' (d ++ [(k, v)]) = d ++ [(k, v')].
Proof.
  induction d as [|[k' w] d IH]; simpl; [by rewrite decide_True|].
  destruct (decide (k = k')); [done|]. intros H. by rewrite IH.
Qed.

Lemma dict_del_last {V} k (v : V) (d : list (string * V)) :
  dict_get k d = None → dict_del k (d ++ [(k, v)]) = d.
Proof.
  induction d as [|[k' w] d IH]; simpl; [by rewrite decide_True|].
  destruct (decide (k = k')); [done|]. intros H. by rewrite IH.
Qed.

Lemma dict_set_set {V} k (v v' : V) (d : list (string * V)) :
  dict_set k v (dict_set k v' d) = dict_set k v d.
Proof.
  induction d as [|[k' w] d IH]; simpl.
  - by rewrite decide_True.
  - destruct (decide (k = k')) as [->|Hne]; simpl.
    + by rewrite decide_True.
    + rewrite decide_False by done. by rewrite IH.
Qed.

Lemma dict_set_same {V} k (v : V) (d : list (string * V)) :
  dict_get k d = Some v → dict_set k v d = d.
Proof.
  induction d as [|[k' w] d IH]; simpl; [done|].
  destruct (decide (k = k')) as [->|Hne]; [by intros [= ->]|].
  intros H. by rewrite IH.
Qed.

Lemma filter_dict_set {V} k (v : V) (d : list (string * V)) :
  is_Some (dict_get k d) →
  filter (λ kv, kv.1 ≠ k) (dict_set k v d) = filter (λ kv, kv.1 ≠ k) d.
Proof.
  induction d as [|[k' w] d IH]; simpl; [by intros [? ?]|].
  destruct (decide (k = k')) as [->|Hne]; intros Hs.
  - by rewrite !filter_cons_False by (simpl; by intros ?).
  - rewrite !filter_cons_True by (simpl; congruence). f_equal. by apply IH.
Qed.

Lemma dict_get_filter_ne {V} k b (d : list (string * V)) :
  k ≠ b → dict_get k (filter (λ kv, kv.1 ≠ b) d) = dict_get k d.
Proof.
  intros Hkb. induction d as [|[k' w] d IH]; [done|].
  rewrite filter_cons. destruct (decide ((k', w).1 ≠ b)) as [Hk'|Hk']; simpl in *.
  - by rewrite IH.
  - rewrite IH. rewrite decide_False; [done|]. intros ->. by apply Hk'.
Qed.

Lemma dict_get_filter_eq {V} b (d : list (string * V)) :
  dict_get b (filter (λ kv, kv.1 ≠ b) d) = None.
Proof.
  apply dict_get_None. intros ([k v] & Hk & [Hne _]%list_elem_of_filter)%list_elem_of_fmap.
  simpl in *. by subst.
Qed.

Lemma filter_all_fresh {V} b (d : list (string * V)) :
  dict_get b d = None → filter (λ kv, kv.1 ≠ b) d = d.
Proof.
  intros Hb%dict_get_None. apply filter_all, Forall_forall. intros [k v] Hin. simpl.
  intros ->. apply Hb. apply list_elem_of_fmap. by exists (b, v).
Qed.

Lemma backups_of_set bs c lg :
  backups_of {| cascade := dict_set "backups" (Dir bs) c; log := lg |} = bs.
Proof. unfold backups_of. cbn [cascade]. by rewrite dict_get_set_eq. Qed.

(** The copy loop over the items [l] that are left to copy, [es] being
    the entries that [backup_dir] has already. *)
Lemma copy_loop backup_name bs c0 lg :
  dict_get backup_name bs = None →
  ∀ l es,
    NoDup l.*1 →
    (∀ k, k ∈ l.*1 → k ∉ es.*1) →
    foldl (copy_item backup_name)
      {| cascade := dict_set "backups" (Dir (bs ++ [(backup_name, Dir es)])) c0; log := lg |} l
    = {| cascade :=
           dict_set "backups"
             (Dir (bs ++ [(backup_name, Dir (es ++ filter (λ kv, kv.1 ≠ "backups") l))])) c0;
         log := lg |}.
Proof.
  intros Hfresh. induction l as [|[k n] l IH]; intros es Hnd Hes.
  - by rewrite app_nil_r.
  - simpl in Hnd. apply NoDup_cons in Hnd as [Hk Hnd]. cbn [foldl].
    unfold copy_item at 2. simpl.
    destruct (decide (k = "backups")) as [->|Hne].
    + rewrite bool_decide_eq_false_2 by (by intros ?).
      rewrite filter_cons_False by (simpl; by intros ?).
      apply IH; [done|]. intros k' Hk'. apply Hes. by right.
    + rewrite bool_decide_eq_true_2 by done.
      rewrite filter_cons_True by done.
      unfold in_backup_dir, backups_of, put_backups. simpl.
      rewrite dict_get_set_eq, dict_get_last by done.
      rewrite dict_set_last, dict_set_set by done.
      rewrite (dict_set_fresh k n es).
      * rewrite IH; [by rewrite <- app_assoc|done|].
        intros k' Hk'. rewrite fmap_app, elem_of_app. intros [Hin|Hin].
        -- by apply (Hes k'); [right|].
        -- apply list_elem_of_singleton in Hin. simpl in Hin. by subst.
      * apply dict_get_None. apply Hes. left.
Qed.

(** The walk lists every file that can be reached by names. *)
Lemma walk_lists_every_file names : ∀ n root bytes,
  names ≠ [] →
  file_at n names = Some bytes →
  (foldl join_path root names, bytes) ∈ walk root n.
Proof.
  induction names as [|name names IH]; intros n root bytes Hne Hat; [done|].
  destruct n as [b|entries]; [done|]. simpl in Hat.
  destruct (dict_get name entries) as [child|] eqn:Hchild; [|done].
  apply dict_get_Some_elem in Hchild. cbn [foldl walk]. apply elem_of_app.
  destruct names as [|name' names'].
  - left. destruct child as [b|es]; [|done]. injection Hat as ->.
    apply list_elem_of_In, in_flat_map. exists (name, File bytes).
    split; [by apply list_elem_of_In|]. simpl. by left.
  - right. apply list_elem_of_In, in_flat_map. exists (name, child).
    split; [by apply list_elem_of_In|]. apply list_elem_of_In. simpl.
    by apply (IH child (join_path root name) bytes).
Qed.

Section tree.
Variable sha256 : string → string.
Variable dump_manifest : string → list (string * string) → string.

Lemma makedirs_fresh backup_name st :
  (∀ b, dict_get "backups" (cascade st) ≠ Some (File b)) →
  dict_get backup_name (backups_of st) = None →
  makedirs backup_name st
  = inr (put_backups (backups_of st ++ [(backup_name, Dir [])]) st).
Proof.
  intros Hdir Hfresh. unfold makedirs. rewrite Hfresh.
  destruct (dict_get "backups" (cascade st)) as [[b|bs]|] eqn:Hb; [|done..].
  by destruct (Hdir b).
Qed.

(** The state once [backup_dir] has been made and the items copied. *)
Lemma copy_items_outcome backup_name st :
  NoDup (cascade st).*1 →
  dict_get backup_name (backups_of st) = None →
  copy_items backup_name (put_backups (backups_of st ++ [(backup_name, Dir [])]) st)
  = put_backups
      (backups_of st
       ++ [(backup_name, Dir (filter (λ kv, kv.1 ≠ "backups") (cascade st)))]) st.
Proof.
  intros Hnd Hfresh.
  remember (backups_of st) as bs eqn:Hbs. destruct st as [c lg]. simpl in *.
  assert (NoDup (dict_set "backups" (Dir (bs ++ [(backup_name, Dir [])])) c).*1) as Hnd1.
  { destruct (dict_get "backups" c) as [old|] eqn:Hb.
    - rewrite dict_set_keys; [done|]. by rewrite Hb.
    - rewrite dict_set_fresh, fmap_app by done. apply NoDup_app. split; [done|].
      split; [|apply NoDup_singleton].
      intros k Hk [->|[]%elem_of_nil]%elem_of_cons. by apply dict_get_None in Hb. }
  assert (filter (λ kv : string * node, kv.1 ≠ "backups")
            (dict_set "backups" (Dir (bs ++ [(backup_name, Dir [])])) c)
          = filter (λ kv, kv.1 ≠ "backups") c) as Hcopied.
  { destruct (dict_get "backups" c) as [old|] eqn:Hb.
    - apply filter_dict_set. by rewrite Hb.
    - rewrite dict_set_fresh, filter_app by done.
      by rewrite filter_cons_False, filter_nil, app_nil_r by (simpl; by intros ?). }
  unfold copy_items, put_backups. cbn [cascade log].
  rewrite (copy_loop backup_name bs c lg Hfresh _ [] Hnd1)
    by (intros ? _; apply not_elem_of_nil).
  by rewrite Hcopied.
Qed.

(** The outcome of [create_backup] when [backup_dir] can be made: the
    manifest cannot be written when the copy has a directory in its place. *)
Lemma create_backup_outcome stamp now st :
  NoDup (cascade st).*1 →
  (∀ b, dict_get "backups" (cascade st) ≠ Some (File b)) →
  dict_get ("cascade_backup_" +:+ stamp) (backups_of st) = None →
  let backup_name := "cascade_backup_" +:+ stamp in
  let copied := filter (λ kv, kv.1 ≠ "backups") (cascade st) in
  let files := (λ pb, (pb.1, sha256 pb.2)) <$> walk "" (Dir copied) in
  create_backup sha256 dump_manifest stamp now st =
    match dict_get "manifest.json" (cascade st) with
    | Some (Dir _) =>
        (Raises (IsADirectoryError ("backups/" +:+ backup_name +:+ "/manifest.json")),
         {| cascade := dict_set "backups" (Dir (backups_of st)) (cascade st);
            log := LogError "Backup failed"
                     (IsADirectoryError ("backups/" +:+ backup_name +:+ "/manifest.json"))
                   :: log st |})
    | _ =>
        (Returns backup_name,
         {| cascade :=
              dict_set "backups"
                (Dir (backups_of st
                      ++ [(backup_name,
                           Dir (dict_set "manifest.json" (File (dump_manifest now files))
                                  copied))]))
                (cascade st);
            log := LogInfo ("Created backup: " +:+ backup_name) :: log st |})
    end.
Proof.
  intros Hnd Hdir Hfresh backup_name copied files.
  unfold create_backup. fold backup_name.
  rewrite makedirs_fresh by done. rewrite copy_items_outcome by done. fold copied.
  assert (dict_get "manifest.json" copied = dict_get "manifest.json" (cascade st)) as Hman.
  { unfold copied. by rewrite dict_get_filter_ne. }
  remember (backups_of st) as bs eqn:Hbs. destruct st as [c lg]. simpl in *.
  unfold write_manifest, manifest_files, backup_failed, in_backup_dir, backups_of,
    put_backups, logged.
  cbn [cascade log]. rewrite !dict_get_set_eq, !dict_get_last by done. fold files.
  rewrite Hman.
  destruct (dict_get "manifest.json" c) as [[b|es]|]; cbn [cascade log].
  - by rewrite dict_set_last, dict_set_set by done.
  - by rewrite dict_del_last, dict_set_set by done.
  - by rewrite dict_set_last, dict_set_set by done.
Qed.

(** A call that finds a directory with the name of its backup. *)
Lemma create_backup_collision stamp now bs tree c lg :
  dict_get ("cascade_backup_" +:+ stamp) bs = None →
  create_backup sha256 dump_manifest stamp now
    {| cascade := dict_set "backups" (Dir (bs ++ [("cascade_backup_" +:+ stamp, Dir tree)])) c;
       log := lg |}
  = (Raises (FileExistsError ("backups/" +:+ ("cascade_backup_" +:+ stamp))),
     {| cascade := dict_set "backups" (Dir bs) c;
        log := LogError "Backup failed"
                 (FileExistsError ("backups/" +:+ ("cascade_backup_" +:+ stamp))) :: lg |}).
Proof.
  intros Hfresh. unfold create_backup, makedirs. rewrite backups_of_set.
  cbn [cascade]. rewrite dict_get_set_eq, dict_get_last by done.
  unfold backup_failed, logged, put_backups. cbn [cascade log].
  rewrite backups_of_set, dict_get_last by done. cbn [cascade log].
  by rewrite dict_del_last, dict_set_set by done.
Qed.

(** X27.  A backup made with nothing in its way holds every file of
    [.cascade] outside [backups], at the same relative path and with the
    same bytes, and its manifest lists each of them with the hash of its
    bytes.  The manifest takes the place of a file [manifest.json] at the
    top of [.cascade], which is listed but not kept; and the backup has no
    entry [backups], so that backups do not nest. *)
Theorem backup_holds_and_lists_every_file stamp now st :
  NoDup (cascade st).*1 →
  (∀ b, dict_get "backups" (cascade st) ≠ Some (File b)) →
  dict_get ("cascade_backup_" +:+ stamp) (backups_of st) = None →
  (∀ es, dict_get "manifest.json" (cascade st) ≠ Some (Dir es)) →
  ∃ st' tree files,
    create_backup sha256 dump_manifest stamp now st
      = (Returns ("cascade_backup_" +:+ stamp), st')
    ∧ dict_get ("cascade_backup_" +:+ stamp) (backups_of st') = Some (Dir tree)
    ∧ dict_get "manifest.json" tree = Some (File (dump_manifest now files))
    ∧ dict_get "backups" tree = None
    ∧ ∀ item names bytes,
        item ≠ "backups" →
        file_at (Dir (cascade st)) (item :: names) = Some bytes →
        (foldl join_path "" (item :: names), sha256 bytes) ∈ files
        ∧ (item ≠ "manifest.json" → file_at (Dir tree) (item :: names) = Some bytes).
Proof.
  intros Hnd Hdir Hfresh Hman. eexists _, _, _.
  rewrite create_backup_outcome by done.
  assert (∀ A (x y : A), match dict_get "manifest.json" (cascade st) with
                          | Some (Dir _) => x
                          | _ => y
                          end = y) as ->.
  { intros A x y. destruct (dict_get "manifest.json" (cascade st)) as [[b|es]|] eqn:Hm;
      [done| |done]. by destruct (Hman es). }
  split; [done|]. rewrite backups_of_set, dict_get_last by done.
  split; [done|]. split; [apply dict_get_set_eq|]. split.
  { rewrite dict_get_set_ne by done. apply dict_get_filter_eq. }
  intros item names bytes Hitem Hat.
  assert (file_at (Dir (filter (λ kv, kv.1 ≠ "backups") (cascade st))) (item :: names)
          = Some bytes) as Hcopy.
  { simpl in *. by rewrite dict_get_filter_ne. }
  split.
  - apply list_elem_of_fmap.
    exists (foldl join_path "" (item :: names), bytes). split; [done|].
    by apply walk_lists_every_file.
  - intros Hm. simpl in *. by rewrite dict_get_set_ne.
Qed.

(** X28.  A backup that succeeds adds one entry to the backups directory
    and one line to the log: the items of [.cascade] and the earlier backups
    are as they were. *)
Theorem backup_changes_nothing_else stamp now st :
  NoDup (cascade st).*1 →
  (∀ b, dict_get "backups" (cascade st) ≠ Some (File b)) →
  dict_get ("cascade_backup_" +:+ stamp) (backups_of st) = None →
  (∀ es, dict_get "manifest.json" (cascade st) ≠ Some (Dir es)) →
  ∃ st' tree,
    create_backup sha256 dump_manifest stamp now st
      = (Returns ("cascade_backup_" +:+ stamp), st')
    ∧ backups_of st' = backups_of st ++ [("cascade_backup_" +:+ stamp, Dir tree)]
    ∧ (∀ item, item ≠ "backups" →
         dict_get item (cascade st') = dict_get item (cascade st))
    ∧ (∀ earlier, earlier ≠ "cascade_backup_" +:+ stamp →
         dict_get earlier (backups_of st') = dict_get earlier (backups_of st))
    ∧ log st' = LogInfo ("Created backup: " +:+ ("cascade_backup_" +:+ stamp)) :: log st.
Proof.
  intros Hnd Hdir Hfresh Hman. eexists _, _.
  rewrite create_backup_outcome by done.
  assert (∀ A (x y : A), match dict_get "manifest.json" (cascade st) with
                          | Some (Dir _) => x
                          | _ => y
                          end = y) as ->.
  { intros A x y. destruct (dict_get "manifest.json" (cascade st)) as [[b|es]|] eqn:Hm;
      [done| |done]. by destruct (Hman es). }
  split; [done|]. rewrite !backups_of_set. cbn [cascade log].
  split; [done|]. split; [|split; [|done]].
  - intros item Hitem. by apply dict_get_set_ne.
  - intros earlier Hne. by apply dict_get_snoc_ne.
Qed.

(** X29.  Two backups within the same second: the second call finds the
    directory of the first, [os.makedirs] raises [FileExistsError], and the
    [except] clause removes [backup_dir], which is the FIRST backup.  The
    backups directory is then as it was before the first call. *)
Theorem second_backup_in_a_second_removes_the_first stamp now later st :
  NoDup (cascade st).*1 →
  (∀ b, dict_get "backups" (cascade st) ≠ Some (File b)) →
  dict_get ("cascade_backup_" +:+ stamp) (backups_of st) = None →
  (∀ es, dict_get "manifest.json" (cascade st) ≠ Some (Dir es)) →
  ∃ st' st'',
    create_backup sha256 dump_manifest stamp now st
      = (Returns ("cascade_backup_" +:+ stamp), st')
    ∧ is_Some (dict_get ("cascade_backup_" +:+ stamp) (backups_of st'))
    ∧ create_backup sha256 dump_manifest stamp later st'
      = (Raises (FileExistsError ("backups/" +:+ ("cascade_backup_" +:+ stamp))), st'')
    ∧ backups_of st'' = backups_of st
    ∧ dict_get ("cascade_backup_" +:+ stamp) (backups_of st'') = None.
Proof.
  intros Hnd Hdir Hfresh Hman. eexists _, _.
  rewrite create_backup_outcome by done.
  assert (∀ A (x y : A), match dict_get "manifest.json" (cascade st) with
                          | Some (Dir _) => x
                          | _ => y
                          end = y) as ->.
  { intros A x y. destruct (dict_get "manifest.json" (cascade st)) as [[b|es]|] eqn:Hm;
      [done| |done]. by destruct (Hman es). }
  split; [done|]. rewrite backups_of_set, dict_get_last by done.
  split; [by eexists|]. rewrite create_backup_collision by done.
  split; [done|]. rewrite backups_of_set. done.
Qed.

(** X30.  A call of [create_backup] that raises leaves no directory
    [backup_dir]: a partial copy is removed, and so is an earlier backup
    with the same name; only a plain file with that name stays, since
    [shutil.rmtree] refuses it.  The items of [.cascade] and the other
    backups are as they were, and the failure is logged. *)
Theorem failed_backup_leaves_no_snapshot stamp now st e st' :
  NoDup (cascade st).*1 →
  NoDup (backups_of st).*1 →
  create_backup sha256 dump_manifest stamp now st = (Raises e, st') →
  (∀ item, item ≠ "backups" → dict_get item (cascade st') = dict_get item (cascade st))
  ∧ (∀ other, other ≠ "cascade_backup_" +:+ stamp →
       dict_get other (backups_of st') = dict_get other (backups_of st))
  ∧ match dict_get ("cascade_backup_" +:+ stamp) (backups_of st) with
    | Some (File b) =>
        dict_get ("cascade_backup_" +:+ stamp) (backups_of st') = Some (File b)
    | _ => dict_get ("cascade_backup_" +:+ stamp) (backups_of st') = None
    end
  ∧ ∃ reason, log st' = LogError "Backup failed" reason :: log st.
Proof.
  intros Hnd Hndb Hrun.
  destruct (dict_get ("cascade_backup_" +:+ stamp) (backups_of st)) as [[b|es]|] eqn:Hname.
  - (* a plain file has the name *)
    revert Hrun. unfold create_backup, makedirs, backup_failed, logged.
    unfold backups_of in *. cbn [cascade log].
    destruct (dict_get "backups" (cascade st)) as [[b0|bs]|] eqn:Hb; [done| |done].
    rewrite Hname. intros [= <- <-]. cbn [cascade log]. rewrite Hb.
    repeat split; try done. by eexists.
  - (* an earlier backup has the name *)
    revert Hrun. unfold create_backup, makedirs, backup_failed, logged, put_backups.
    unfold backups_of in *. cbn [cascade log].
    destruct (dict_get "backups" (cascade st)) as [[b0|bs]|] eqn:Hb; [done| |done].
    rewrite Hname. intros [= <- <-]. cbn [cascade log]. rewrite dict_get_set_eq.
    split; [intros item Hitem; by apply dict_get_set_ne|].
    split; [intros other Hother; by apply dict_get_del_ne|].
    split; [by apply dict_get_del_eq|by eexists].
  - destruct (dict_get "backups" (cascade st)) as [[b0|bs]|] eqn:Hb.
    + (* the backups directory is a plain file *)
      revert Hrun. unfold create_backup, makedirs, backup_failed, logged.
      unfold backups_of in *. cbn [cascade log]. rewrite Hb.
      intros [= <- <-]. cbn [cascade log]. rewrite Hb.
      repeat split; try done. by eexists.
    + rewrite create_backup_outcome in Hrun; [|done|by rewrite Hb|done].
      destruct (dict_get "manifest.json" (cascade st)) as [[b|es]|]; [done| |done].
      injection Hrun as <- <-. unfold backups_of in *. cbn [cascade log].
      rewrite dict_get_set_eq, Hb. rewrite Hb in Hname.
      split; [intros item Hitem; by apply dict_get_set_ne|].
      split; [done|]. split; [done|by eexists].
    + rewrite create_backup_outcome in Hrun; [|done|by rewrite Hb|done].
      destruct (dict_get "manifest.json" (cascade st)) as [[b|es]|]; [done| |done].
      injection Hrun as <- <-. unfold backups_of in *. cbn [cascade log].
      rewrite dict_get_set_eq, Hb. rewrite Hb in Hname.
      split; [intros item Hitem; by apply dict_get_set_ne|].
      split; [done|]. split; [done|by eexists].
Qed.

End tree.

Lemma backup_holds_and_lists_every_file_witness :
  ∃ st' tree files,
    create_backup digest manifest_text "20240506_000000" "2024-05-06T00:00:00" small_tree
      = (Returns ("cascade_backup_" +:+ "20240506_000000"), st')
    ∧ dict_get ("cascade_backup_" +:+ "20240506_000000") (backups_of st') = Some (Dir tree)
    ∧ dict_get "manifest.json" tree
      = Some (File (manifest_text "2024-05-06T00:00:00" files))
    ∧ dict_get "backups" tree = None
    ∧ ∀ item names bytes,
        item ≠ "backups" →
        file_at (Dir (cascade small_tree)) (item :: names) = Some bytes →
        (foldl join_path "" (item :: names), digest bytes) ∈ files
        ∧ (item ≠ "manifest.json" → file_at (Dir tree) (item :: names) = Some bytes).
Proof.
  apply (backup_holds_and_lists_every_file digest manifest_text
           "20240506_000000" "2024-05-06T00:00:00" small_tree).
  - apply (bool_decide_unpack (NoDup _)). vm_compute. exact I.
  - intros b. discriminate.
  - reflexivity.
  - intros es. discriminate.
Defined.

Lemma backup_changes_nothing_else_witness :
  ∃ st' tree,
    create_backup digest manifest_text "20240506_000000" "2024-05-06T00:00:00" small_tree
      = (Returns ("cascade_backup_" +:+ "20240506_000000"), st')
    ∧ backups_of st'
      = backups_of small_tree ++ [("cascade_backup_" +:+ "20240506_000000", Dir tree)]
    ∧ (∀ item, item ≠ "backups" →
         dict_get item (cascade st') = dict_get item (cascade small_tree))
    ∧ (∀ earlier, earlier ≠ "cascade_backup_" +:+ "20240506_000000" →
         dict_get earlier (backups_of st') = dict_get earlier (backups_of small_tree))
    ∧ log st'
      = LogInfo ("Created backup: " +:+ ("cascade_backup_" +:+ "20240506_000000"))
        :: log small_tree.
Proof.
  apply (backup_changes_nothing_else digest manifest_text
           "20240506_000000" "2024-05-06T00:00:00" small_tree).
  - apply (bool_decide_unpack (NoDup _)). vm_compute. exact I.
  - intros b. discriminate.
  - reflexivity.
  - intros es. discriminate.
Defined.

Lemma second_backup_in_a_second_removes_the_first_witness :
  ∃ st' st'',
    create_backup digest manifest_text "20240506_000000" "2024-05-06T00:00:00.100" small_tree
      = (Returns ("cascade_backup_" +:+ "20240506_000000"), st')
    ∧ is_Some (dict_get ("cascade_backup_" +:+ "20240506_000000") (backups_of st'))
    ∧ create_backup digest manifest_text "20240506_000000" "2024-05-06T00:00:00.900" st'
      = (Raises (FileExistsError ("backups/" +:+ ("cascade_backup_" +:+ "20240506_000000"))),
         st'')
    ∧ backups_of st'' = backups_of small_tree
    ∧ dict_get ("cascade_backup_" +:+ "20240506_000000") (backups_of st'') = None.
Proof.
  apply (second_backup_in_a_second_removes_the_first digest manifest_text
           "20240506_000000" "2024-05-06T00:00:00.100" "2024-05-06T00:00:00.900" small_tree).
  - apply (bool_decide_unpack (NoDup _)). vm_compute. exact I.
  - intros b. discriminate.
  - reflexivity.
  - intros es. discriminate.
Defined.

Lemma failed_backup_leaves_no_snapshot_witness :
  let st' := (create_backup digest manifest_text "20240506_000000" "2024-05-06T00:00:00"
                manifest_dir_tree).2 in
  (∀ item, item ≠ "backups" →
     dict_get item (cascade st') = dict_get item (cascade manifest_dir_tree))
  ∧ (∀ other, other ≠ "cascade_backup_" +:+ "20240506_000000" →
       dict_get other (backups_of st') = dict_get other (backups_of manifest_dir_tree))
  ∧ dict_get ("cascade_backup_" +:+ "20240506_000000") (backups_of st') = None
  ∧ ∃ reason, log st' = LogError "Backup failed" reason :: log manifest_dir_tree.
Proof.
  eapply (failed_backup_leaves_no_snapshot digest manifest_text
            "20240506_000000" "2024-05-06T00:00:00" manifest_dir_tree).
  - apply (bool_decide_unpack (NoDup _)). vm_compute. exact I.
  - apply (bool_decide_unpack (NoDup _)). vm_compute. exact I.
  - reflexivity.
Defined.

End CascadeBackupFacts.
